(** * Command pipeline of agentkit-phase1: a shallow embedding

    The development follows the two programs that make up the command
    pipeline:

    - [agents/command-poller/command_poller.py]: [CommandParser],
      [CommandValidator], [IdempotencyStore], [CircuitBreaker],
      [NotionClient.append_ledger] and [CommandPoller.process_command];
    - [mcp/orchestrator.py]: [ActionOrchestrator.execute_action] with its
      policy table, risk validator, judge panel and tool map.

    Python [str] values are Rocq strings whose characters are ASCII codes;
    the external services (Redis, the HTTP endpoint, the AI validator, the
    judges, the tools, SHA-256) are parameters of the definitions that use
    them. *)

From Stdlib Require Import Ascii.
From stdpp Require Import gmap strings list fin_maps pretty.

Local Open Scope string_scope.
Local Open Scope nat_scope.

(** ** Strings *)

Module Str.

Lemma length_app (a b : string) :
  String.length (a +:+ b) = String.length a + String.length b.
Proof. induction a as [|c a IH]; simpl; [done | by rewrite IH]. Qed.

(** Cancellation of a common suffix. *)
Lemma app_inj_r (s a b : string) : a +:+ s = b +:+ s → a = b.
Proof.
  revert b. induction a as [|c a IH]; intros [|d b] Heq.
  - done.
  - apply (f_equal String.length) in Heq.
    rewrite !length_app in Heq. simpl in Heq. lia.
  - apply (f_equal String.length) in Heq.
    rewrite !length_app in Heq. simpl in Heq. lia.
  - cbn in Heq. injection Heq as -> Heq. f_equal. by apply IH.
Qed.

Lemma app_nil_l (a : string) : "" +:+ a = a.
Proof. done. Qed.

Lemma app_cons (x : ascii) (a b : string) :
  String x a +:+ b = String x (a +:+ b).
Proof. done. Qed.

Lemma app_assoc (a b c : string) : (a +:+ b) +:+ c = a +:+ (b +:+ c).
Proof.
  induction a as [|x a IH]; [done|]. rewrite !app_cons. by rewrite IH.
Qed.

Lemma app_nil_r (a : string) : a +:+ "" = a.
Proof.
  induction a as [|x a IH]; [done|]. rewrite app_cons. by rewrite IH.
Qed.

Lemma app_inj_l (s a b : string) : s +:+ a = s +:+ b → a = b.
Proof. apply String.app_inj. Qed.

End Str.

(** ** The ledger: [NotionClient.append_ledger] *)

Module Ledger.

(** The arguments of one [append_ledger] call. *)
Record LedgerEntry := {
  action_id : string;
  command_text : string;
  result : string;
  latency_ms : Z;
  rationale : string;
  signer : string
}.

Definition set_result (e : LedgerEntry) (r : string) : LedgerEntry :=
  {| action_id := action_id e; command_text := command_text e; result := r;
     latency_ms := latency_ms e; rationale := rationale e; signer := signer e |}.

(** [self.last_hash]; [None] until the first append. *)
Record NotionClient := { last_hash : option string }.

Definition new_client : NotionClient := {| last_hash := None |}.

Definition genesis : string := "genesis".

(** [f"{action_id}:{command}:{result}:{self.last_hash}"] *)
Definition entry_data (aid command res prev : string) : string :=
  aid +:+ ":" +:+ command +:+ ":" +:+ res +:+ ":" +:+ prev.

Section Chain.

(** [hashlib.sha256(s.encode()).hexdigest()] *)
Variable sha256_hex : string → string.

Definition append_ledger (self : NotionClient)
    (aid command res : string) (lat : Z) (rat signed_by : string)
  : string * NotionClient :=
  let prev := match last_hash self with
              | None => genesis
              | Some h => h
              end in
  let new_hash := sha256_hex (entry_data aid command res prev) in
  (new_hash, {| last_hash := Some new_hash |}).

Definition append_entry (self : NotionClient) (e : LedgerEntry)
  : string * NotionClient :=
  append_ledger self (action_id e) (command_text e) (result e)
    (latency_ms e) (rationale e) (signer e).

(** A sequence of appends on one client; the returned hashes are the
    stored hashes of the entries, in order. *)
Fixpoint append_all (self : NotionClient) (es : list LedgerEntry)
  : list string * NotionClient :=
  match es with
  | [] => ([], self)
  | e :: es' =>
      let '(h, self') := append_entry self e in
      let '(hs, self'') := append_all self' es' in
      (h :: hs, self'')
  end.

Definition stored_hashes (es : list LedgerEntry) : list string :=
  fst (append_all new_client es).

(** The verifier of the specification: recompute every hash from the
    genesis constant, chaining the recomputed hashes. *)
Fixpoint recompute (prev : string) (es : list LedgerEntry) : list string :=
  match es with
  | [] => []
  | e :: es' =>
      let h := sha256_hex
                 (entry_data (action_id e) (command_text e) (result e) prev) in
      h :: recompute h es'
  end.

(** The previous hash of entry [k] in a list of stored hashes. *)
Definition prev_of (hs : list string) (k : nat) : string :=
  match k with
  | O => genesis
  | S k' => default genesis (hs !! k')
  end.

(** *** Facts about the chain *)

Lemma entry_data_inj_result (aid command r r' prev : string) :
  entry_data aid command r prev = entry_data aid command r' prev → r = r'.
Proof.
  unfold entry_data. intros Heq.
  do 4 apply Str.app_inj_l in Heq.
  by apply Str.app_inj_r in Heq.
Qed.

Lemma entry_data_inj_prev (aid command r prev prev' : string) :
  entry_data aid command r prev = entry_data aid command r prev' →
  prev = prev'.
Proof.
  unfold entry_data. intros Heq. by do 6 apply Str.app_inj_l in Heq.
Qed.

Lemma append_all_from (self : NotionClient) (es : list LedgerEntry) :
  fst (append_all self es)
  = recompute (default genesis (last_hash self)) es.
Proof.
  revert self. induction es as [|e es IH]; intros self; [done|].
  cbn [append_all append_entry append_ledger recompute].
  specialize (IH {| last_hash := Some (sha256_hex
    (entry_data (action_id e) (command_text e) (result e)
       (default genesis (last_hash self)))) |}).
  destruct (last_hash self) as [h|]; cbn [default] in *;
    destruct (append_all _ es) as [hs self']; cbn [fst] in *;
    by rewrite IH.
Qed.

Lemma recompute_length (prev : string) (es : list LedgerEntry) :
  length (recompute prev es) = length es.
Proof.
  revert prev. induction es as [|e es IH]; intros prev; simpl; [done|].
  by rewrite IH.
Qed.

Lemma recompute_lookup (prev : string) (es : list LedgerEntry)
    (k : nat) (e : LedgerEntry) :
  es !! k = Some e →
  recompute prev es !! k
  = Some (sha256_hex (entry_data (action_id e) (command_text e) (result e)
            (match k with
             | O => prev
             | S k' => default prev (recompute prev es !! k')
             end))).
Proof.
  revert prev k. induction es as [|e0 es IH]; intros prev k Hk; [done|].
  destruct k as [|k]; simpl in Hk.
  - by injection Hk as ->.
  - cbn [recompute]. rewrite lookup_cons_ne_0 by done. simpl.
    rewrite (IH _ _ Hk). destruct k as [|k]; [done|]. simpl.
    apply lookup_lt_Some in Hk.
    destruct (recompute _ es !! k) as [h|] eqn:Hh; [done|].
    apply lookup_ge_None in Hh. rewrite recompute_length in Hh. lia.
Qed.

(** The hash ignores the latency, the rationale and the signer. *)
Definition same_hashed_fields (e e' : LedgerEntry) : Prop :=
  action_id e = action_id e' ∧ command_text e = command_text e' ∧
  result e = result e'.

Lemma recompute_same_fields (prev : string) (es es' : list LedgerEntry) :
  Forall2 same_hashed_fields es es' →
  recompute prev es = recompute prev es'.
Proof.
  intros HF. revert prev.
  induction HF as [|e e' es es' (Ha & Hc & Hr) _ IH]; intros prev; [done|].
  simpl. rewrite Ha, Hc, Hr. by rewrite IH.
Qed.

Section Tamper.

(** SHA-256 taken as collision free. *)
Hypothesis sha256_inj : ∀ a b, sha256_hex a = sha256_hex b → a = b.

Lemma recompute_prev_differs (prev prev' : string)
    (es : list LedgerEntry) (j : nat) (h : string) :
  prev ≠ prev' →
  recompute prev es !! j = Some h →
  recompute prev' es !! j ≠ Some h.
Proof.
  revert prev prev' j. induction es as [|e es IH];
    intros prev prev' j Hne Hj; [done|].
  assert (Hh : sha256_hex (entry_data (action_id e) (command_text e)
                 (result e) prev)
             ≠ sha256_hex (entry_data (action_id e) (command_text e)
                 (result e) prev')).
  { intros Heq. apply sha256_inj, entry_data_inj_prev in Heq. done. }
  destruct j as [|j]; simpl in *.
  - injection Hj as <-. congruence.
  - by apply (IH _ _ _ Hh).
Qed.

Lemma recompute_tampered (prev : string) (es : list LedgerEntry)
    (k : nat) (e : LedgerEntry) (r' : string) (j : nat) (h : string) :
  es !! k = Some e → r' ≠ result e → k ≤ j →
  recompute prev es !! j = Some h →
  recompute prev (<[k := set_result e r']> es) !! j ≠ Some h.
Proof.
  revert prev k j. induction es as [|e0 es IH];
    intros prev k j Hk Hr Hkj Hj; [done|].
  destruct k as [|k]; simpl in Hk.
  - injection Hk as ->. cbn [insert list_insert recompute set_result
      action_id command_text result].
    assert (Hh : sha256_hex (entry_data (action_id e) (command_text e)
                   (result e) prev)
               ≠ sha256_hex (entry_data (action_id e) (command_text e)
                   r' prev)).
    { intros Heq. apply sha256_inj, entry_data_inj_result in Heq. done. }
    destruct j as [|j]; simpl in *.
    + injection Hj as <-. congruence.
    + by apply (recompute_prev_differs _ _ _ _ _ Hh).
  - destruct j as [|j]; [lia|]. simpl in *.
    apply (IH _ _ _ Hk Hr); [lia | done].
Qed.

End Tamper.

End Chain.

Lemma stored_hashes_recompute (sha256_hex : string → string)
    (es : list LedgerEntry) :
  stored_hashes sha256_hex es = recompute sha256_hex genesis es.
Proof. unfold stored_hashes. by rewrite append_all_from. Qed.

(** Two sample entries, used to run the definitions. *)
Definition sample_entries : list LedgerEntry :=
  [ {| action_id := "a1"; command_text := "SCAN_SITE domain=example.com";
       result := "SUCCESS"; latency_ms := 12%Z;
       rationale := "Completed successfully"; signer := "command_poller" |};
    {| action_id := "a2"; command_text := "POST_VIMEO title=t url=u";
       result := "FAILED"; latency_ms := 40%Z;
       rationale := "MCP execution failed"; signer := "command_poller" |} ].

(** C2. Every hash returned by a sequence of [append_ledger] calls on a
    fresh client is the hash of [action_id:command:result:previous hash],
    where the previous hash of the first entry is the genesis constant;
    recomputing the chain from genesis over the same entries gives back
    exactly the stored hashes; and, SHA-256 being taken as collision free,
    changing the result field of entry [k] while keeping the stored hashes
    makes the recomputation from genesis differ from the stored hash at
    every position [j ≥ k]. *)
Theorem ledger_chain_integrity (sha256_hex : string → string)
    (es : list LedgerEntry) :
  (∀ k e, es !! k = Some e →
     stored_hashes sha256_hex es !! k
     = Some (sha256_hex (entry_data (action_id e) (command_text e) (result e)
                (prev_of (stored_hashes sha256_hex es) k)))) ∧
  recompute sha256_hex genesis es = stored_hashes sha256_hex es ∧
  ((∀ a b, sha256_hex a = sha256_hex b → a = b) →
   ∀ k e r' j h,
     es !! k = Some e → r' ≠ result e → k ≤ j →
     stored_hashes sha256_hex es !! j = Some h →
     ∃ h', recompute sha256_hex genesis (<[k := set_result e r']> es) !! j
           = Some h' ∧ h' ≠ h).
Proof.
  rewrite stored_hashes_recompute. split; [|split; [done|]].
  - intros k e Hk. rewrite (recompute_lookup _ _ _ _ _ Hk).
    by destruct k.
  - intros Hinj k e r' j h Hk Hr Hkj Hj.
    assert (Hlen : j < length (recompute sha256_hex genesis
                                 (<[k := set_result e r']> es))).
    { rewrite recompute_length, length_insert.
      apply lookup_lt_Some in Hj. by rewrite recompute_length in Hj. }
    apply lookup_lt_is_Some_2 in Hlen. destruct Hlen as [h' Hh'].
    exists h'. split; [done|]. intros ->.
    by apply (recompute_tampered sha256_hex Hinj genesis es k e r' j h).
Qed.

(** The chain of [sample_entries] under the identity in place of SHA-256:
    after the first result is changed, the second stored hash is no longer
    reproduced. *)
Lemma ledger_chain_integrity_witness :
  ∃ h', recompute (λ s, s) genesis
          (<[0 := set_result
                    {| action_id := "a1";
                       command_text := "SCAN_SITE domain=example.com";
                       result := "SUCCESS"; latency_ms := 12%Z;
                       rationale := "Completed successfully";
                       signer := "command_poller" |} "FAILED"]>
             sample_entries) !! 1
        = Some h' ∧
        h' ≠ "a2:POST_VIMEO title=t url=u:FAILED:a1:SCAN_SITE domain=example.com:SUCCESS:genesis".
Proof.
  apply (proj2 (proj2 (ledger_chain_integrity (λ s, s) sample_entries))
           (λ a b Hab, Hab) 0).
  - reflexivity.
  - discriminate.
  - lia.
  - reflexivity.
Defined.

(** C10. The hash returned by [append_ledger] depends only on the action
    id, the command text, the result and the previous hash: two appends on
    the same client that agree on these return the same hash whatever the
    latency, rationale and signer; hence a sequence of entries that differs
    from the appended one only in those three fields recomputes to exactly
    the stored hashes, so such a change is not detected. *)
Theorem ledger_hash_ignores_unhashed_fields (sha256_hex : string → string) :
  (∀ self aid command res lat lat' rat rat' sg sg',
     fst (append_ledger sha256_hex self aid command res lat rat sg)
     = fst (append_ledger sha256_hex self aid command res lat' rat' sg')) ∧
  (∀ es es', Forall2 same_hashed_fields es es' →
     recompute sha256_hex genesis es' = stored_hashes sha256_hex es).
Proof.
  split; [done|]. intros es es' HF.
  rewrite stored_hashes_recompute. symmetry.
  by apply recompute_same_fields.
Qed.

Definition sample_entries_edited : list LedgerEntry :=
  [ {| action_id := "a1"; command_text := "SCAN_SITE domain=example.com";
       result := "SUCCESS"; latency_ms := 99999%Z;
       rationale := "rewritten"; signer := "someone_else" |};
    {| action_id := "a2"; command_text := "POST_VIMEO title=t url=u";
       result := "FAILED"; latency_ms := 0%Z;
       rationale := ""; signer := "" |} ].

Lemma ledger_hash_ignores_unhashed_fields_witness :
  recompute (λ s, s) genesis sample_entries_edited
  = stored_hashes (λ s, s) sample_entries.
Proof.
  apply (proj2 (ledger_hash_ignores_unhashed_fields (λ s, s))).
  repeat constructor.
Defined.

End Ledger.

(** ** The circuit breaker: [CircuitBreaker] *)

Module Breaker.

(** [self.state] only ever holds one of three literals. *)
Inductive State := CLOSED | OPEN | HALF_OPEN.

(** [last_failure] is a [datetime], here in microseconds; [timeout] is in
    seconds as in the constructor. *)
Record CircuitBreaker := {
  name : string;
  failure_count : Z;
  threshold : Z;
  timeout : Z;
  last_failure : option Z;
  state : State
}.

(** [__init__]; the defaults are [failure_threshold=5],
    [timeout_seconds=60]. *)
Definition new (nm : string) (failure_threshold timeout_seconds : Z)
  : CircuitBreaker :=
  {| name := nm; failure_count := 0; threshold := failure_threshold;
     timeout := timeout_seconds; last_failure := None; state := CLOSED |}.

Definition with_state (self : CircuitBreaker) (s : State) : CircuitBreaker :=
  {| name := name self; failure_count := failure_count self;
     threshold := threshold self; timeout := timeout self;
     last_failure := last_failure self; state := s |}.

Definition reset (self : CircuitBreaker) : CircuitBreaker :=
  {| name := name self; failure_count := 0;
     threshold := threshold self; timeout := timeout self;
     last_failure := None; state := CLOSED |}.

(** What a Python call does: return a value or raise an [Exception]. *)
Inductive Outcome (A : Type) :=
| Returned (a : A)
| Raised (msg : string).
Arguments Returned {A} a.
Arguments Raised {A} msg.

(** [timedelta(seconds=n)] in microseconds. *)
Definition timedelta_seconds (n : Z) : Z := (n * 1000000)%Z.

(** The first [if] of [call]: [None] stands for the raise of
    "Circuit breaker ... is OPEN". *)
Definition gate (self : CircuitBreaker) (now : Z) : option CircuitBreaker :=
  match state self with
  | OPEN =>
      match last_failure self with
      | Some lf =>
          if (timedelta_seconds (timeout self) <? now - lf)%Z
          then Some (with_state self HALF_OPEN)
          else None
      | None => None
      end
  | _ => Some self
  end.

(** The [try] block of [call] once [func] has come back with [r]; [now] is
    the clock read in the [except] branch. *)
Definition settle {A} (self : CircuitBreaker) (r : Outcome A) (now : Z)
  : CircuitBreaker :=
  match r with
  | Returned _ =>
      match state self with
      | HALF_OPEN => reset self
      | _ => self
      end
  | Raised _ =>
      let self' :=
        {| name := name self; failure_count := (failure_count self + 1)%Z;
           threshold := threshold self; timeout := timeout self;
           last_failure := Some now; state := state self |} in
      if (threshold self' <=? failure_count self')%Z
      then with_state self' OPEN
      else self'
  end.

Definition open_message (self : CircuitBreaker) : string :=
  "Circuit breaker " +:+ name self +:+ " is OPEN".

(** [call]: the wrapped function acts on a world [W], so that a call that
    does not invoke it leaves the world as it was. [now_entry] and
    [now_fail] are the two readings of [datetime.now()]. *)
Definition call {W A} (self : CircuitBreaker) (func : W → Outcome A * W)
    (now_entry now_fail : Z) (w : W) : Outcome A * CircuitBreaker * W :=
  match gate self now_entry with
  | None => (Raised (open_message self), self, w)
  | Some self1 =>
      let '(r, w') := func w in
      (r, settle self1 r now_fail, w')
  end.

Definition breaker_after {W A} (x : Outcome A * CircuitBreaker * W)
  : CircuitBreaker := snd (fst x).

(** A sequence of calls, each with its function and clock readings. *)
Fixpoint run {W A} (self : CircuitBreaker)
    (cs : list ((W → Outcome A * W) * Z * Z)) (w : W) : CircuitBreaker * W :=
  match cs with
  | [] => (self, w)
  | (func, t1, t2) :: cs' =>
      let '(_, self', w') := call self func t1 t2 w in
      run self' cs' w'
  end.

(** A wrapped function that raises whatever the world. *)
Definition fails {W A} (func : W → Outcome A * W) : Prop :=
  ∀ w, ∃ msg w', func w = (Raised msg, w').

(** The breakers a program can hold: a fresh one, or one that came out of
    [call]. *)
Inductive reachable (nm : string) (th tmo : Z) : CircuitBreaker → Prop :=
| reach_new : reachable nm th tmo (new nm th tmo)
| reach_call (W A : Type) (self : CircuitBreaker)
    (func : W → Outcome A * W) (t1 t2 : Z) (w : W) :
    reachable nm th tmo self →
    reachable nm th tmo (breaker_after (call self func t1 t2 w)).

(** *** Invariant of reachable breakers *)

Definition inv (nm : string) (th tmo : Z) (self : CircuitBreaker) : Prop :=
  name self = nm ∧ threshold self = th ∧ timeout self = tmo ∧
  state self ≠ HALF_OPEN ∧
  (state self = OPEN →
   (th ≤ failure_count self)%Z ∧ is_Some (last_failure self)).

Lemma call_inv {W A} nm th tmo (self : CircuitBreaker)
    (func : W → Outcome A * W) t1 t2 w :
  inv nm th tmo self →
  inv nm th tmo (breaker_after (call self func t1 t2 w)).
Proof.
  intros (Hn & Ht & Hto & Hs & Ho).
  unfold call, gate, breaker_after.
  destruct self as [n c t tout lf s]; simpl in *; subst.
  destruct s; [| |done].
  - destruct (func w) as [[a|e] w']; simpl; [by repeat split|].
    destruct (Z.leb_spec th (c + 1)); unfold inv; simpl;
      repeat split; try done; eauto.
  - destruct Ho as [Hc [lf' ->]]; [done|].
    destruct (_ <? _)%Z; simpl; [|by unfold inv; simpl; eauto 10].
    destruct (func w) as [[a|e] w']; simpl; [by repeat split|].
    destruct (Z.leb_spec th (c + 1)); [|lia].
    unfold inv; simpl; repeat split; try done; try lia; eauto.
Qed.

Lemma reachable_inv nm th tmo self :
  reachable nm th tmo self → inv nm th tmo self.
Proof.
  induction 1 as [|W A self func t1 t2 w _ IH].
  - by repeat split.
  - by apply call_inv.
Qed.

Lemma run_failures_open {W A} (cs : list ((W → Outcome A * W) * Z * Z)) :
  ∀ (self : CircuitBreaker) (w : W),
    state self = CLOSED →
    (failure_count self < threshold self)%Z →
    Forall (λ c, fails (fst (fst c))) cs →
    Z.of_nat (length cs) = (threshold self - failure_count self)%Z →
    state (fst (run self cs w)) = OPEN ∧
    failure_count (fst (run self cs w)) = threshold self.
Proof.
  induction cs as [|[[func t1] t2] cs IH]; intros self w Hs Hlt HF Hlen.
  - simpl in Hlen. lia.
  - inversion HF as [|? ? Hf HF']; subst. simpl in Hf.
    destruct (Hf w) as (msg & w' & Hfw).
    cbn [run]. unfold call, gate. rewrite Hs, Hfw.
    cbn [settle failure_count threshold].
    destruct (Z.leb_spec (threshold self) (failure_count self + 1)) as [Hle|Hgt].
    + destruct cs as [|c cs]; [|simpl in Hlen; lia].
      simpl. split; [done | lia].
    + destruct self as [n c t tout lf s]; simpl in *; subst.
      match goal with
      | |- context [run ?s cs w'] => specialize (IH s w')
      end.
      simpl in IH. apply IH; [done | lia | done | lia].
Qed.

(** A dependency that is down: it raises and counts the attempts. *)
Definition down (w : nat) : Outcome unit * nat := (Raised "timeout", S w).

(** A dependency that answers. *)
Definition up (w : nat) : Outcome unit * nat := (Returned (), S w).

Lemma down_fails : fails down.
Proof. intros w. by exists "timeout", (S w). Qed.

(** C5. For a breaker built with a positive threshold, [threshold]
    consecutive failing calls from the fresh (CLOSED) breaker leave it OPEN.
    For every breaker the program can reach that is OPEN, a failure time is
    recorded, and: a call at most [timeout] seconds after it raises at once
    and leaves breaker and world untouched (the wrapped function is not
    invoked); a call later than that passes the gate as HALF_OPEN and
    invokes the wrapped function once; if that probe returns, the breaker is
    CLOSED with a zero counter and no failure time; if it raises, the
    breaker is OPEN again with the failure time set to the time of the
    probe's failure, so the next call within [timeout] of it is rejected
    without invocation. *)
Theorem breaker_cycle (nm : string) (th tmo : Z) :
  (∀ (W A : Type) (cs : list ((W → Outcome A * W) * Z * Z)) (w : W),
     (0 < th)%Z → length cs = Z.to_nat th →
     Forall (λ c, fails (fst (fst c))) cs →
     state (fst (run (new nm th tmo) cs w)) = OPEN) ∧
  (∀ self, reachable nm th tmo self → state self = OPEN →
     ∃ lf, last_failure self = Some lf ∧
     ∀ (W A : Type) (func : W → Outcome A * W) (t1 t2 : Z) (w : W),
       ((t1 - lf ≤ timedelta_seconds tmo)%Z →
        call self func t1 t2 w = (Raised (open_message self), self, w)) ∧
       ((timedelta_seconds tmo < t1 - lf)%Z →
        gate self t1 = Some (with_state self HALF_OPEN) ∧
        ∃ r w', func w = (r, w') ∧
          let after := breaker_after (call self func t1 t2 w) in
          call self func t1 t2 w = (r, after, w') ∧
          match r with
          | Returned _ =>
              state after = CLOSED ∧ failure_count after = 0%Z ∧
              last_failure after = None
          | Raised _ =>
              state after = OPEN ∧ last_failure after = Some t2 ∧
              ∀ (W' A' : Type) (func' : W' → Outcome A' * W')
                (t3 t4 : Z) (w2 : W'),
                (t3 - t2 ≤ timedelta_seconds tmo)%Z →
                call after func' t3 t4 w2
                = (Raised (open_message after), after, w2)
          end)).
Proof.
  split.
  - intros W A cs w Hth Hlen HF.
    apply (run_failures_open cs (new nm th tmo) w); simpl; try done; lia.
  - intros self Hreach Hopen.
    destruct (reachable_inv _ _ _ _ Hreach) as (Hn & Ht & Hto & _ & Ho).
    destruct (Ho Hopen) as [Hc [lf Hlf]]. exists lf. split; [done|].
    intros W A func t1 t2 w. split.
    + intros Hearly. unfold call, gate. rewrite Hopen, Hlf, Hto.
      destruct (Z.ltb_spec (timedelta_seconds tmo) (t1 - lf)); [lia | done].
    + intros Hlate.
      assert (Hg : gate self t1 = Some (with_state self HALF_OPEN)).
      { unfold gate. rewrite Hopen, Hlf, Hto.
        destruct (Z.ltb_spec (timedelta_seconds tmo) (t1 - lf)); [done | lia]. }
      split; [done|].
      destruct (func w) as [r w'] eqn:Hf. exists r, w'. split; [done|].
      unfold call, breaker_after. rewrite Hg, Hf. cbn [fst snd].
      split; [done|].
      destruct r as [a|e]; cbn [settle with_state state failure_count
        threshold last_failure reset]; [done|].
      destruct (Z.leb_spec (threshold self) (failure_count self + 1));
        [|lia].
      cbn [with_state state last_failure]. repeat split.
      intros W' A' func' t3 t4 w2 Hearly. unfold call, gate.
      cbn [with_state state last_failure timeout]. rewrite Hto.
      destruct (Z.ltb_spec (timedelta_seconds tmo) (t3 - t2)); [lia | done].
Qed.

(** A breaker with threshold 2 and a 60 s timeout after two failures. *)
Definition opened : CircuitBreaker :=
  fst (run (new "mcp_api" 2 60)
         [(down, 0%Z, 1000000%Z); (down, 2000000%Z, 3000000%Z)] 0).

Lemma opened_reachable : reachable "mcp_api" 2 60 opened.
Proof.
  exact (reach_call "mcp_api" 2 60 nat unit _ down 2000000 3000000 1
           (reach_call "mcp_api" 2 60 nat unit _ down 0 1000000 0
              (reach_new "mcp_api" 2 60))).
Qed.

(** Two failures open the breaker; a call one second after the last
    failure is rejected with the world (the attempt counter) unchanged. *)
Lemma breaker_cycle_witness :
  state opened = OPEN ∧
  call opened up 4000000 5000000 2
  = (Raised "Circuit breaker mcp_api is OPEN", opened, 2).
Proof.
  split.
  - apply (proj1 (breaker_cycle "mcp_api" 2 60) nat unit).
    + lia.
    + reflexivity.
    + repeat constructor; apply down_fails.
  - destruct (proj2 (breaker_cycle "mcp_api" 2 60) opened opened_reachable
                eq_refl) as (lf & Hlf & Hcalls).
    injection Hlf as <-.
    apply (proj1 (Hcalls nat unit up 4000000%Z 5000000%Z 2)).
    unfold timedelta_seconds. lia.
Defined.

End Breaker.

(** ** The orchestrator: [ActionOrchestrator.execute_action] *)

Module Orchestrator.

Import Breaker (Outcome, Returned, Raised).

Inductive Severity := LOW | MEDIUM | HIGH.

(** The [ActionResult] enum of the orchestrator; these four members are all
    it has. *)
Inductive ActionResult := SUCCESS | FAILED | BLOCKED | NEEDS_APPROVAL.

(** [ActionResult.X.value] *)
Definition ActionResult_value (a : ActionResult) : string :=
  match a with
  | SUCCESS => "SUCCESS"
  | FAILED => "FAILED"
  | BLOCKED => "BLOCKED"
  | NEEDS_APPROVAL => "NEEDS_APPROVAL"
  end.

(** One entry of [default_policies]: every key that occurs in the table,
    absent keys being [None]. *)
Record Policy := {
  max_spend : option Z;
  allowed_channels : option (list string);
  description : option string;
  allowed : option bool;
  require_judge_approval : option bool;
  max_frequency_per_hour : option Z;
  action : option string;
  reason : option string
}.

Definition empty_policy : Policy :=
  {| max_spend := None; allowed_channels := None; description := None;
     allowed := None; require_judge_approval := None;
     max_frequency_per_hour := None; action := None; reason := None |}.

Definition default_policies : gmap string Policy :=
  <["START_CAMPAIGN" :=
      {| max_spend := Some 10000%Z;
         allowed_channels := Some ["linkedin"; "meta"; "mailchimp"];
         description := None; allowed := None;
         require_judge_approval := None; max_frequency_per_hour := None;
         action := None; reason := None |}]>
  (<["CHECK_INTEGRATION_STATUS" :=
      {| max_spend := None; allowed_channels := None;
         description := Some "Low-risk read-only operation. Always allowed.";
         allowed := Some true;
         require_judge_approval := None; max_frequency_per_hour := None;
         action := None; reason := None |}]>
  (<["REFRESH_TOKEN" :=
      {| max_spend := None; allowed_channels := None;
         description :=
           Some "Medium-risk state-changing operation. Requires judge approval.";
         allowed := None;
         require_judge_approval := Some true;
         max_frequency_per_hour := Some 5%Z;
         action := None; reason := None |}]>
  (<["CONNECT_INTEGRATION" :=
      {| max_spend := None; allowed_channels := None;
         description :=
           Some "High-risk operation creating new permissions. Must be blocked for human review.";
         allowed := None;
         require_judge_approval := None; max_frequency_per_hour := None;
         action := Some "BLOCK";
         reason :=
           Some "New integrations require manual security and permissions review." |}]>
   ∅))).

(** [default_policies.get(command_type, {})] *)
Definition _get_policies_for_command (command_type : string) : Policy :=
  default (empty_policy) (default_policies !! command_type).

(** [str(x)] of an optional string inside an f-string. *)
Definition str_opt (o : option string) : string :=
  match o with
  | Some s => s
  | None => "None"
  end.

Section WithServices.

(** Python floats (scores) and the JSON value a tool returns are carried
    around and never inspected by [execute_action]. *)
Context {float tool_value : Type}.

Record ValidationResult := {
  risk_score : float;
  short_summary : string;
  compressed_proof : string;
  passed : bool
}.

Record JudgeDecision := {
  judge_id : string;
  score : float;
  jd_rationale : string;
  approved : bool
}.

(** The result dictionary; the optional keys are absent until assigned. *)
Record Result := {
  action_id : string;
  command_type : string;
  status : ActionResult;
  rationale : string;
  timestamp : string;
  validation : option (float * string * bool);
  judge_decisions : option (list JudgeDecision);
  tool_result : option tool_value
}.

Definition set_status (r : Result) (s : ActionResult) (why : string) : Result :=
  {| action_id := action_id r; command_type := command_type r;
     status := s; rationale := why; timestamp := timestamp r;
     validation := validation r; judge_decisions := judge_decisions r;
     tool_result := tool_result r |}.

Definition set_validation (r : Result) (v : ValidationResult) : Result :=
  {| action_id := action_id r; command_type := command_type r;
     status := status r; rationale := rationale r; timestamp := timestamp r;
     validation := Some (risk_score v, short_summary v, passed v);
     judge_decisions := judge_decisions r; tool_result := tool_result r |}.

Definition set_judge_decisions (r : Result) (jds : list JudgeDecision)
  : Result :=
  {| action_id := action_id r; command_type := command_type r;
     status := status r; rationale := rationale r; timestamp := timestamp r;
     validation := validation r; judge_decisions := Some jds;
     tool_result := tool_result r |}.

Definition set_tool_result (r : Result) (t : tool_value) : Result :=
  {| action_id := action_id r; command_type := command_type r;
     status := status r; rationale := rationale r; timestamp := timestamp r;
     validation := validation r; judge_decisions := judge_decisions r;
     tool_result := Some t |}.

(** The orchestrator's collaborators. [validator] and [judge] are [None]
    when the corresponding API key is not set; [executor] gives, for a tool
    name, what calling that tool with the parameters as keyword arguments
    does. *)
Record ActionOrchestrator := {
  validator : option (string → gmap string string → ValidationResult);
  judge : option (string → gmap string string → ValidationResult →
                  list JudgeDecision);
  executor : string → gmap string string → Outcome tool_value
}.

(** The keys of [self.tool_map]. *)
Definition tool_names : list string :=
  ["SCAN_SITE"; "START_CAMPAIGN"; "CHECK_INTEGRATION_STATUS";
   "REFRESH_TOKEN"; "CONNECT_INTEGRATION"].

(** [self.tool_map.get(command_type)] *)
Definition tool_map (self : ActionOrchestrator) (ct : string)
  : option (gmap string string → Outcome tool_value) :=
  if bool_decide (ct ∈ tool_names) then Some (executor self ct) else None.

(** The calls [execute_action] makes to its collaborators, in order. *)
Inductive Event :=
| CallValidator (ct : string) (params : gmap string string)
| CallJudges (ct : string) (params : gmap string string)
| CallTool (ct : string) (params : gmap string string).

Definition is_judge_call (e : Event) : bool :=
  match e with CallJudges _ _ => true | _ => false end.

Definition is_tool_call (e : Event) : bool :=
  match e with CallTool _ _ => true | _ => false end.

(** [sum(1 for jd in judge_decisions if jd.approved)] *)
Definition approved_count (jds : list JudgeDecision) : nat :=
  length (filter (λ jd, approved jd = true) jds).

(** [approved_count < len(judge_decisions) / 2]: the quotient is a float,
    so the comparison is that of the rationals, [2 * count < len]. *)
Definition lacks_approval (jds : list JudgeDecision) : bool :=
  2 * approved_count jds <? length jds.

(** Step 4 of [execute_action]. *)
Definition execute_tool (self : ActionOrchestrator) (result : Result)
    (ct : string) (params : gmap string string) : Result * list Event :=
  match tool_map self ct with
  | None =>
      (set_status result FAILED
         ("Execution error: " +:+ "Unknown command type: " +:+ ct), [])
  | Some tool_func =>
      match tool_func params with
      | Returned tr =>
          let result := set_tool_result result tr in
          let result := set_status result SUCCESS (rationale result) in
          let result :=
            if bool_decide (rationale result = "")
            then set_status result SUCCESS "Action completed successfully"
            else result in
          (result, [CallTool ct params])
      | Raised e =>
          (set_status result FAILED ("Execution error: " +:+ e),
           [CallTool ct params])
      end
  end.

(** Step 3 of [execute_action]; [validation] is the local variable of that
    name, [None] when no validator ran. *)
Definition judge_step (self : ActionOrchestrator) (result : Result)
    (ct : string) (params : gmap string string) (severity : Severity)
    (validation : option ValidationResult) : Result * list Event :=
  match severity, judge self, validation with
  | (MEDIUM | HIGH), Some j, Some v =>
      let jds := j ct params v in
      let result := set_judge_decisions result jds in
      if lacks_approval jds
      then (set_status result NEEDS_APPROVAL "Majority judge approval required",
            [CallJudges ct params])
      else
        let '(r, evs) := execute_tool self result ct params in
        (r, CallJudges ct params :: evs)
  | _, _, _ => execute_tool self result ct params
  end.

(** [execute_action]; [now] is [datetime.utcnow().isoformat()]. *)
Definition execute_action (self : ActionOrchestrator) (aid ct : string)
    (params : gmap string string) (severity : Severity) (now : string)
  : Result * list Event :=
  let result :=
    {| action_id := aid; command_type := ct; status := FAILED;
       rationale := ""; timestamp := now; validation := None;
       judge_decisions := None; tool_result := None |} in
  let policy_rules := _get_policies_for_command ct in
  if bool_decide (action policy_rules = Some "BLOCK")
  then (set_status result BLOCKED
          ("Action blocked by policy: " +:+ str_opt (reason policy_rules)), [])
  else
    match validator self with
    | Some validate =>
        let v := validate ct params in
        let result := set_validation result v in
        if negb (passed v)
        then (set_status result BLOCKED
                ("Failed validation: " +:+ short_summary v),
              [CallValidator ct params])
        else
          let '(r, evs) := judge_step self result ct params severity (Some v) in
          (r, CallValidator ct params :: evs)
    | None => judge_step self result ct params severity None
    end.

(** The dictionary [execute_action] starts from. *)
Definition initial_result (aid ct now : string) : Result :=
  {| action_id := aid; command_type := ct; status := FAILED;
     rationale := ""; timestamp := now; validation := None;
     judge_decisions := None; tool_result := None |}.

(** *** The vote *)

Lemma lacks_approval_false (jds : list JudgeDecision) :
  lacks_approval jds = false ↔ length jds ≤ 2 * approved_count jds.
Proof.
  unfold lacks_approval.
  destruct (Nat.ltb_spec (2 * approved_count jds) (length jds)); split;
    intros; try done; lia.
Qed.

(** On a panel of odd size the test of the code is a strict majority. *)
Lemma lacks_approval_odd (jds : list JudgeDecision) (n : nat) :
  length jds = 2 * n + 1 →
  lacks_approval jds = false ↔ length jds < 2 * approved_count jds.
Proof. intros Hodd. rewrite lacks_approval_false. lia. Qed.

(** What step 3 does when the judges are consulted. *)
Lemma judge_step_consulted (self : ActionOrchestrator) (result : Result)
    (ct : string) (params : gmap string string) (severity : Severity)
    (j : string → gmap string string → ValidationResult → list JudgeDecision)
    (v : ValidationResult) :
  severity ≠ LOW → judge self = Some j →
  judge_step self result ct params severity (Some v)
  = if lacks_approval (j ct params v)
    then (set_status (set_judge_decisions result (j ct params v))
            NEEDS_APPROVAL "Majority judge approval required",
          [CallJudges ct params])
    else (fst (execute_tool self (set_judge_decisions result (j ct params v))
                 ct params),
          CallJudges ct params
          :: snd (execute_tool self (set_judge_decisions result (j ct params v))
                    ct params)).
Proof.
  intros Hsev Hj. unfold judge_step. rewrite Hj.
  destruct severity; [done| |];
    destruct (lacks_approval _); try done;
    by destruct (execute_tool _ _ _ _).
Qed.

Lemma judge_step_low (self : ActionOrchestrator) (result : Result)
    (ct : string) (params : gmap string string)
    (validation : option ValidationResult) :
  judge_step self result ct params LOW validation
  = execute_tool self result ct params.
Proof. done. Qed.

Lemma judge_step_no_validation (self : ActionOrchestrator) (result : Result)
    (ct : string) (params : gmap string string) (severity : Severity) :
  judge_step self result ct params severity None
  = execute_tool self result ct params.
Proof. unfold judge_step. by destruct severity, (judge self). Qed.

Lemma execute_tool_events (self : ActionOrchestrator) (result : Result)
    (ct : string) (params : gmap string string) :
  Forall (λ e, is_tool_call e = true) (snd (execute_tool self result ct params)).
Proof.
  unfold execute_tool. destruct (tool_map self ct) as [f|]; simpl; [|done].
  destruct (f params); simpl; by repeat constructor.
Qed.

Lemma execute_tool_judge_decisions (self : ActionOrchestrator)
    (result : Result) (ct : string) (params : gmap string string) :
  judge_decisions (fst (execute_tool self result ct params))
  = judge_decisions result ∧
  validation (fst (execute_tool self result ct params)) = validation result.
Proof.
  unfold execute_tool. destruct (tool_map self ct) as [f|]; simpl; [|done].
  destruct (f params); simpl; [|done]. by case_bool_decide.
Qed.

End WithServices.

Arguments ValidationResult : clear implicits.
Arguments JudgeDecision : clear implicits.
Arguments Result : clear implicits.
Arguments ActionOrchestrator : clear implicits.

Lemma policy_connect_integration :
  action (_get_policies_for_command "CONNECT_INTEGRATION") = Some "BLOCK" ∧
  reason (_get_policies_for_command "CONNECT_INTEGRATION")
  = Some "New integrations require manual security and permissions review.".
Proof. by vm_compute. Qed.

Lemma policy_refresh_token :
  action (_get_policies_for_command "REFRESH_TOKEN") = None ∧
  require_judge_approval (_get_policies_for_command "REFRESH_TOKEN")
  = Some true.
Proof. by vm_compute. Qed.

(** C4. Whatever the orchestrator's collaborators, the parameters and the
    severity, [execute_action] on a CONNECT_INTEGRATION command returns the
    initial result with status BLOCKED and the rationale
    "Action blocked by policy: " followed by the reason of the policy
    table, and calls neither the validator, nor the judges, nor a tool. *)
Theorem connect_integration_blocked (float tool_value : Type)
    (self : ActionOrchestrator float tool_value) (aid : string)
    (params : gmap string string) (severity : Severity) (now : string) :
  ∃ why,
    reason (_get_policies_for_command "CONNECT_INTEGRATION") = Some why ∧
    execute_action self aid "CONNECT_INTEGRATION" params severity now
    = ({| action_id := aid; command_type := "CONNECT_INTEGRATION";
          status := BLOCKED;
          rationale := "Action blocked by policy: " +:+ why;
          timestamp := now; validation := None; judge_decisions := None;
          tool_result := None |}, []).
Proof.
  destruct policy_connect_integration as [Ha Hr].
  eexists. split; [exact Hr|].
  unfold execute_action. rewrite Ha, Hr.
  by rewrite bool_decide_eq_true_2.
Qed.

Lemma tool_calls_not_judge_calls (evs : list Event) :
  Forall (λ e, is_tool_call e = true) evs →
  ¬ Exists (λ e, is_judge_call e = true) evs.
Proof.
  intros Hall Hex. apply Exists_exists in Hex as (e & Hin & He).
  rewrite Forall_forall in Hall. specialize (Hall e Hin). by destruct e.
Qed.

(** The judges are called only with a validator, a judge and a severity
    above LOW. *)
Lemma judge_call_requires (float tool_value : Type)
    (self : ActionOrchestrator float tool_value) (aid ct : string)
    (params : gmap string string) (severity : Severity) (now : string) :
  Exists (λ e, is_judge_call e = true)
    (snd (execute_action self aid ct params severity now)) →
  is_Some (validator self) ∧ is_Some (judge self) ∧ severity ≠ LOW.
Proof.
  unfold execute_action. case_bool_decide as Hblock.
  { cbn [snd]. by intros ?%Exists_nil. }
  destruct (validator self) as [v|].
  - destruct (passed _); cbn [negb].
    + destruct (judge self) as [j|] eqn:Hj.
      * destruct severity; [|intros _; by eauto..].
        rewrite (judge_step_low self).
        pose proof (execute_tool_events self (set_validation
          {| action_id := aid; command_type := ct; status := FAILED;
             rationale := ""; timestamp := now; validation := None;
             judge_decisions := None; tool_result := None |}
          (v ct params)) ct params) as Hev.
        destruct (execute_tool _ _ _ _) as [res evs]. cbn [snd] in *.
        intros Hex. apply Exists_cons in Hex as [Hex|Hex]; [done|].
        by apply tool_calls_not_judge_calls in Hev.
      * assert (Hstep : ∀ r val,
          judge_step self r ct params severity val
          = execute_tool self r ct params).
        { intros r val. unfold judge_step. rewrite Hj. by destruct severity. }
        rewrite Hstep.
        pose proof (execute_tool_events self (set_validation
          {| action_id := aid; command_type := ct; status := FAILED;
             rationale := ""; timestamp := now; validation := None;
             judge_decisions := None; tool_result := None |}
          (v ct params)) ct params) as Hev.
        destruct (execute_tool _ _ _ _) as [res evs]. cbn [snd] in *.
        intros Hex. apply Exists_cons in Hex as [Hex|Hex]; [done|].
        by apply tool_calls_not_judge_calls in Hev.
    + cbn [snd]. intros Hex. apply Exists_cons in Hex as [Hex|Hex]; [done|].
      by apply Exists_nil in Hex.
  - rewrite judge_step_no_validation. intros Hex.
    by apply tool_calls_not_judge_calls in Hex;
      [|apply execute_tool_events].
Qed.

(** C9. When no risk validator is configured, [execute_action] on a
    command whose policy is not BLOCK does, for every severity, exactly what
    its tool step does on the initial result: the only collaborator calls
    are tool calls, and the result carries neither judge decisions nor a
    validation. In general a call to the judges occurs only when a
    validator and a judge are both configured (and the severity is not
    LOW). *)
Theorem no_validator_skips_judges (float tool_value : Type)
    (self : ActionOrchestrator float tool_value) (aid ct : string)
    (params : gmap string string) (severity : Severity) (now : string) :
  (validator self = None →
   action (_get_policies_for_command ct) ≠ Some "BLOCK" →
   execute_action self aid ct params severity now
   = execute_tool self (initial_result aid ct now) ct params ∧
   Forall (λ e, is_tool_call e = true)
     (snd (execute_action self aid ct params severity now)) ∧
   judge_decisions (fst (execute_action self aid ct params severity now))
   = None ∧
   validation (fst (execute_action self aid ct params severity now)) = None) ∧
  (Exists (λ e, is_judge_call e = true)
     (snd (execute_action self aid ct params severity now)) →
   is_Some (validator self) ∧ is_Some (judge self) ∧ severity ≠ LOW).
Proof.
  split; [|apply judge_call_requires].
  intros Hv Hp.
  assert (Heq : execute_action self aid ct params severity now
                = execute_tool self (initial_result aid ct now) ct params).
  { unfold execute_action. rewrite bool_decide_eq_false_2 by done.
    rewrite Hv. apply judge_step_no_validation. }
  rewrite Heq. split; [done|]. split; [apply execute_tool_events|].
  by destruct (execute_tool_judge_decisions self
                 (initial_result aid ct now) ct params) as [-> ->].
Qed.

(** *** Concrete orchestrators

    Scores are written as decimal text and tool values as JSON text. *)

Definition sample_validation : ValidationResult string :=
  {| risk_score := "0.1"; short_summary := "no risk found";
     compressed_proof := "AI analysis"; passed := true |}.

(** A panel that answers with the given approvals. *)
Definition panel (votes : list bool) : list (JudgeDecision string) :=
  map (λ b, {| judge_id := "judge"; score := "0.5";
               jd_rationale := "Analysis complete"; approved := b |}) votes.

(** The tools: SCAN_SITE is the simulated scan of the source; the other
    tools answer with a fixed value. *)
Definition sample_executor (ct : string) (params : gmap string string)
  : Outcome string :=
  if bool_decide (ct = "SCAN_SITE") then
    match params !! "domain" with
    | Some d =>
        if bool_decide (size params = 1)
        then Returned ("{domain: " +:+ d +:+ ", grade: A, status: simulated}")
        else Raised "unexpected keyword argument"
    | None => Raised "missing 1 required positional argument: 'domain'"
    end
  else Returned "{status: simulated}".

(** Both API keys set; the judges vote [votes]. *)
Definition judged_orchestrator (votes : list bool)
  : ActionOrchestrator string string :=
  {| validator := Some (λ _ _, sample_validation);
     judge := Some (λ _ _ _, panel votes);
     executor := sample_executor |}.

(** No API key set. *)
Definition bare_orchestrator : ActionOrchestrator string string :=
  {| validator := None; judge := None; executor := sample_executor |}.

Definition scan_params : gmap string string := {[ "domain" := "example.com" ]}.

Lemma no_validator_skips_judges_witness :
  execute_action bare_orchestrator "a1" "SCAN_SITE" scan_params HIGH "t0"
  = execute_tool bare_orchestrator (initial_result "a1" "SCAN_SITE" "t0")
      "SCAN_SITE" scan_params ∧
  Forall (λ e, is_tool_call e = true)
    (snd (execute_action bare_orchestrator "a1" "SCAN_SITE" scan_params HIGH
            "t0")) ∧
  judge_decisions
    (fst (execute_action bare_orchestrator "a1" "SCAN_SITE" scan_params HIGH
            "t0")) = None ∧
  validation
    (fst (execute_action bare_orchestrator "a1" "SCAN_SITE" scan_params HIGH
            "t0")) = None.
Proof.
  apply (proj1 (no_validator_skips_judges string string bare_orchestrator
                  "a1" "SCAN_SITE" scan_params HIGH "t0")).
  - reflexivity.
  - vm_compute. discriminate.
Defined.

(** The two votes of the specification, on the three-judge roster. *)
Lemma three_judges_two_approve :
  status (fst (execute_action (judged_orchestrator [true; true; false])
                 "a1" "SCAN_SITE" scan_params MEDIUM "t0")) = SUCCESS ∧
  snd (execute_action (judged_orchestrator [true; true; false])
         "a1" "SCAN_SITE" scan_params MEDIUM "t0")
  = [CallValidator "SCAN_SITE" scan_params; CallJudges "SCAN_SITE" scan_params;
     CallTool "SCAN_SITE" scan_params].
Proof. by vm_compute. Qed.

Lemma three_judges_one_approves :
  status (fst (execute_action (judged_orchestrator [true; false; false])
                 "a1" "SCAN_SITE" scan_params MEDIUM "t0")) = NEEDS_APPROVAL ∧
  snd (execute_action (judged_orchestrator [true; false; false])
         "a1" "SCAN_SITE" scan_params MEDIUM "t0")
  = [CallValidator "SCAN_SITE" scan_params; CallJudges "SCAN_SITE" scan_params].
Proof. by vm_compute. Qed.

(** C3. A panel of two judges that splits one to one is not a strict
    majority of approvals, and [execute_action] nevertheless goes on to the
    tool and answers SUCCESS: the test of the code, [approved_count <
    len / 2], lets a tie through. *)
Theorem judge_tie_proceeds :
  approved_count (panel [true; false]) = 1 ∧
  length (panel [true; false]) = 2 ∧
  status (fst (execute_action (judged_orchestrator [true; false])
                 "a1" "SCAN_SITE" scan_params MEDIUM "t0")) = SUCCESS ∧
  snd (execute_action (judged_orchestrator [true; false])
         "a1" "SCAN_SITE" scan_params MEDIUM "t0")
  = [CallValidator "SCAN_SITE" scan_params; CallJudges "SCAN_SITE" scan_params;
     CallTool "SCAN_SITE" scan_params].
Proof. by vm_compute. Qed.

(** C6. The policy entry of REFRESH_TOKEN allows the action and sets
    [require_judge_approval], and yet [execute_action] on a REFRESH_TOKEN
    command of severity LOW never calls the judges and attaches no judge
    decisions, whatever the collaborators: the flag is not read. With both
    services configured and a panel that rejects unanimously, the token is
    refreshed all the same. *)
Theorem refresh_token_low_not_judged (float tool_value : Type)
    (self : ActionOrchestrator float tool_value) (aid : string)
    (params : gmap string string) (now : string) :
  action (_get_policies_for_command "REFRESH_TOKEN") = None ∧
  require_judge_approval (_get_policies_for_command "REFRESH_TOKEN")
  = Some true ∧
  Forall (λ e, is_judge_call e = false)
    (snd (execute_action self aid "REFRESH_TOKEN" params LOW now)) ∧
  judge_decisions (fst (execute_action self aid "REFRESH_TOKEN" params LOW now))
  = None ∧
  status (fst (execute_action (judged_orchestrator [false; false; false])
                 "a1" "REFRESH_TOKEN" {[ "service" := "google" ]} LOW "t0"))
  = SUCCESS.
Proof.
  destruct policy_refresh_token as [Ha Hr].
  split; [done|]. split; [done|].
  assert (Hev : ∀ result,
    Forall (λ e, is_judge_call e = false)
      (snd (execute_tool self result "REFRESH_TOKEN" params))).
  { intros result.
    eapply Forall_impl; [apply execute_tool_events|]. by intros []. }
  unfold execute_action. rewrite Ha.
  rewrite bool_decide_eq_false_2 by done.
  split; [|split; [|by vm_compute]].
  - destruct (validator self) as [v|]; [|by rewrite judge_step_low].
    destruct (passed _); cbn [negb]; [|by repeat constructor].
    rewrite judge_step_low.
    specialize (Hev (set_validation
      (initial_result aid "REFRESH_TOKEN" now) (v "REFRESH_TOKEN" params))).
    unfold initial_result in Hev.
    destruct (execute_tool _ _ _ _) as [r evs]. simpl in *.
    by constructor.
  - destruct (validator self) as [v|].
    + destruct (passed _); cbn [negb]; [|done]. rewrite judge_step_low.
      pose proof (execute_tool_judge_decisions self (set_validation
        (initial_result aid "REFRESH_TOKEN" now) (v "REFRESH_TOKEN" params))
        "REFRESH_TOKEN" params) as [Hjd _].
      unfold initial_result in Hjd.
      by destruct (execute_tool _ _ _ _).
    + rewrite judge_step_low.
      by destruct (execute_tool_judge_decisions self
           (initial_result aid "REFRESH_TOKEN" now) "REFRESH_TOKEN" params).
Qed.

End Orchestrator.

(** ** The parser: [CommandParser.parse_line] *)

Module Parser.

(** Characters are code points below 256. *)
Definition code (c : ascii) : nat := nat_of_ascii c.

Definition between (lo hi : nat) (c : ascii) : bool :=
  (lo <=? code c) && (code c <=? hi).

(** [str.isspace], which is also what the pattern [\s] matches. *)
Definition is_space (c : ascii) : bool :=
  between 9 13 c || between 28 32 c || (code c =? 133) || (code c =? 160).

(** What the pattern [\w] matches: letters, digits, numerics and [_]. *)
Definition is_word (c : ascii) : bool :=
  between 48 57 c || between 65 90 c || between 97 122 c || (code c =? 95)
  || (code c =? 170) || (code c =? 178) || (code c =? 179) || (code c =? 181)
  || (code c =? 185) || (code c =? 186) || between 188 190 c
  || between 192 214 c || between 216 246 c || between 248 255 c.

(** [str.upper] on one character. The code points 181, 223 and 255 have
    upper-case forms outside this range and are left as they are; none of
    these forms is a character of a command type. *)
Definition upper_char (c : ascii) : ascii :=
  if between 97 122 c || (between 224 254 c && negb (code c =? 247))
  then ascii_of_nat (code c - 32)
  else c.

Fixpoint upper (s : string) : string :=
  match s with
  | EmptyString => EmptyString
  | String c s' => String (upper_char c) (upper s')
  end.

Definition dquote : ascii := ascii_of_nat 34.
Definition newline : ascii := ascii_of_nat 10.
Definition hash_mark : ascii := ascii_of_nat 35.
Definition equals_sign : ascii := ascii_of_nat 61.

Fixpoint all_chars (p : ascii → bool) (s : string) : bool :=
  match s with
  | EmptyString => true
  | String c s' => p c && all_chars p s'
  end.

Definition is_empty (s : string) : bool :=
  match s with EmptyString => true | _ => false end.

(** [str.lstrip()], [str.rstrip()], [str.strip()] *)
Fixpoint lstrip (s : string) : string :=
  match s with
  | EmptyString => EmptyString
  | String c s' => if is_space c then lstrip s' else s
  end.

Fixpoint rstrip (s : string) : string :=
  match s with
  | EmptyString => EmptyString
  | String c s' =>
      let r := rstrip s' in
      if is_empty r && is_space c then EmptyString else String c r
  end.

Definition strip (s : string) : string := rstrip (lstrip s).

(** [str.strip] with the double quote as the only character to remove. *)
Fixpoint lstrip_quotes (s : string) : string :=
  match s with
  | EmptyString => EmptyString
  | String c s' => if Ascii.eqb c dquote then lstrip_quotes s' else s
  end.

Fixpoint rstrip_quotes (s : string) : string :=
  match s with
  | EmptyString => EmptyString
  | String c s' =>
      let r := rstrip_quotes s' in
      if is_empty r && Ascii.eqb c dquote then EmptyString else String c r
  end.

Definition strip_quotes (s : string) : string :=
  rstrip_quotes (lstrip_quotes s).

(** [line.startswith('#')] *)
Definition starts_with_hash (s : string) : bool :=
  match s with
  | String c _ => Ascii.eqb c hash_mark
  | EmptyString => false
  end.

(** The longest prefix whose characters satisfy [p], and the rest. *)
Fixpoint span (p : ascii → bool) (s : string) : string * string :=
  match s with
  | EmptyString => (EmptyString, EmptyString)
  | String c s' =>
      if p c then let '(a, b) := span p s' in (String c a, b)
      else (EmptyString, s)
  end.

(** [line.split(None, 1)]: the first run of non-space characters and, when
    something other than white space follows, the rest of the line from its
    first non-space character on. *)
Definition split_once (s : string) : list string :=
  match lstrip s with
  | EmptyString => []
  | s1 =>
      let '(head, tail) := span (λ c, negb (is_space c)) s1 in
      match lstrip tail with
      | EmptyString => [head]
      | rest => [head; rest]
      end
  end.

(** [CommandType] of the poller. *)
Inductive CommandType :=
| SCAN_SITE | PUBLISH_REPORT | START_CAMPAIGN | POST_VIMEO
| TRAIN_AGENT | ENFORCE_POLICY | REVERT_ACTION.

Definition CommandType_value (ct : CommandType) : string :=
  match ct with
  | SCAN_SITE => "SCAN_SITE"
  | PUBLISH_REPORT => "PUBLISH_REPORT"
  | START_CAMPAIGN => "START_CAMPAIGN"
  | POST_VIMEO => "POST_VIMEO"
  | TRAIN_AGENT => "TRAIN_AGENT"
  | ENFORCE_POLICY => "ENFORCE_POLICY"
  | REVERT_ACTION => "REVERT_ACTION"
  end.

Definition all_command_types : list CommandType :=
  [SCAN_SITE; PUBLISH_REPORT; START_CAMPAIGN; POST_VIMEO;
   TRAIN_AGENT; ENFORCE_POLICY; REVERT_ACTION].

(** [CommandType(s)]: the member whose value is [s]; [None] stands for the
    [ValueError]. *)
Definition CommandType_of_string (s : string) : option CommandType :=
  find (λ ct, String.eqb (CommandType_value ct) s) all_command_types.

Inductive Severity := LOW | MEDIUM | HIGH.

Record ParsedCommand := {
  command_type : CommandType;
  action_id : string;
  params : gmap string string;
  raw_text : string;
  line_number : Z;
  issued_at : string;
  severity : Severity
}.

(** The body of a quoted value: the text up to the first double quote,
    which [.] must be able to cross (no newline), and what follows the
    quote. *)
Fixpoint until_quote (s : string) : option (string * string) :=
  match s with
  | EmptyString => None
  | String c s' =>
      if Ascii.eqb c dquote then Some (EmptyString, s')
      else if Ascii.eqb c newline then None
      else match until_quote s' with
           | Some (body, rest) => Some (String c body, rest)
           | None => None
           end
  end.

(** The second group of the pattern at the start of [s]: a quoted text,
    or else a run of non-space characters. *)
Definition match_value (s : string) : option string :=
  let unquoted :=
    let '(v, _) := span (λ c, negb (is_space c)) s in
    if is_empty v then None else Some v in
  match s with
  | String c s' =>
      if Ascii.eqb c dquote then
        match until_quote s' with
        | Some (body, _) => Some (String dquote (body +:+ String dquote EmptyString))
        | None => unquoted
        end
      else unquoted
  | EmptyString => None
  end.

(** A match of the parameter pattern (a run of [\w], an equals sign, then
    either a lazily matched quoted text or a run of [\S]) that starts at the
    first character of [s]: the two groups and the length of the match. *)
Definition match_here (s : string) : option (string * string * nat) :=
  let '(key, rest) := span is_word s in
  if is_empty key then None
  else
    match rest with
    | String c rest' =>
        if Ascii.eqb c equals_sign then
          match match_value rest' with
          | Some v => Some (key, v, String.length key + 1 + String.length v)
          | None => None
          end
        else None
    | EmptyString => None
    end.

(** [re.finditer] over [s]; [skip] characters belong to the previous match
    and are passed over. *)
Fixpoint finditer (s : string) (skip : nat) : list (string * string) :=
  match s with
  | EmptyString => []
  | String _ s' =>
      match skip with
      | S n => finditer s' n
      | O =>
          match match_here s with
          | Some (key, v, len) => (key, v) :: finditer s' (len - 1)
          | None => finditer s' 0
          end
      end
  end.

(** The loop body: [params[key]] is assigned the second group with its
    surrounding double quotes stripped. *)
Definition collect_params (matches : list (string * string))
  : gmap string string :=
  foldl (λ m kv, <[fst kv := strip_quotes (snd kv)]> m) ∅ matches.

(** [parse_line]; [uuid] and [now] are the fresh identifier and the clock
    reading of the call. *)
Definition parse_line (line : string) (line_number : Z) (uuid now : string)
  : option ParsedCommand :=
  let line := strip line in
  if is_empty line || starts_with_hash line then None
  else
    match split_once line with
    | [] => None
    | command_word :: more =>
        match CommandType_of_string (upper command_word) with
        | None => None
        | Some ct =>
            let params :=
              match more with
              | param_str :: _ => collect_params (finditer param_str 0)
              | [] => ∅
              end in
            Some {| command_type := ct; action_id := uuid; params := params;
                    raw_text := line; line_number := line_number;
                    issued_at := now; severity := LOW |}
        end
    end.

(** The tests of the repository. *)
Example parse_simple :
  parse_line "SCAN_SITE domain=example.com" 1 "u" "t"
  = Some {| command_type := SCAN_SITE; action_id := "u";
            params := {[ "domain" := "example.com" ]};
            raw_text := "SCAN_SITE domain=example.com"; line_number := 1;
            issued_at := "t"; severity := LOW |}.
Proof. by vm_compute. Qed.

Example parse_quoted :
  params <$> parse_line
    ("POST_VIMEO title=" +:+ String dquote "My Awesome Video"
       +:+ String dquote " url=https://example.com/video.mp4") 3 "u" "t"
  = Some (<["title" := "My Awesome Video"]>
            {[ "url" := "https://example.com/video.mp4" ]}).
Proof. by vm_compute. Qed.

Example parse_invalid : parse_line "INVALID_COMMAND" 4 "u" "t" = None.
Proof. by vm_compute. Qed.

Example parse_lower_case :
  command_type <$> parse_line "  scan_Site domain=a.b  " 1 "u" "t"
  = Some SCAN_SITE.
Proof. by vm_compute. Qed.

(** *** Well-formed lines *)

(** A parameter as it is written on a line. *)
Inductive ParamText :=
| Unquoted (k v : string)
| Quoted (k v : string).

Definition key_of (p : ParamText) : string :=
  match p with Unquoted k _ | Quoted k _ => k end.

Definition value_of (p : ParamText) : string :=
  match p with Unquoted _ v | Quoted _ v => v end.

Definition quoted (v : string) : string :=
  String dquote (v +:+ String dquote EmptyString).

(** The text of the second group for a parameter. *)
Definition raw_of (p : ParamText) : string :=
  match p with
  | Unquoted _ v => v
  | Quoted _ v => quoted v
  end.

Definition render (p : ParamText) : string :=
  key_of p +:+ String equals_sign (raw_of p).

Definition plain_char (c : ascii) : bool :=
  negb (is_space c) && negb (Ascii.eqb c dquote).

Definition quotable_char (c : ascii) : bool :=
  negb (Ascii.eqb c dquote) && negb (Ascii.eqb c newline).

(** Keys are non-empty words; an unquoted value is a non-empty text without
    white space or double quotes; a quoted value is any text without double
    quotes or newlines. *)
Definition well_formed_param (p : ParamText) : bool :=
  negb (is_empty (key_of p)) && all_chars is_word (key_of p) &&
  match p with
  | Unquoted _ v => negb (is_empty v) && all_chars plain_char v
  | Quoted _ v => all_chars quotable_char v
  end.

(** The parameters of a line, each after one space. *)
Fixpoint render_params (ps : list ParamText) : string :=
  match ps with
  | [] => EmptyString
  | p :: ps' => String " " (render p +:+ render_params ps')
  end.

(** The dictionary literal built from the parameters, later keys
    overriding earlier ones. *)
Definition expected_params (ps : list ParamText) : gmap string string :=
  foldl (λ m p, <[key_of p := value_of p]> m) ∅ ps.

(** *** Character facts *)

Ltac all_ascii c := destruct c as [[] [] [] [] [] [] [] []]; by vm_compute.

Lemma upper_char_space (c : ascii) : is_space (upper_char c) = is_space c.
Proof. all_ascii c. Qed.

Lemma upper_char_hash (c : ascii) :
  Ascii.eqb (upper_char c) hash_mark = Ascii.eqb c hash_mark.
Proof. all_ascii c. Qed.

Lemma word_not_space (c : ascii) : is_word c = true → is_space c = false.
Proof. all_ascii c. Qed.

Lemma word_not_equals (c : ascii) :
  is_word c = true → Ascii.eqb c equals_sign = false.
Proof. all_ascii c. Qed.

Lemma hash_not_space (c : ascii) :
  Ascii.eqb c hash_mark = true → is_space c = false.
Proof. all_ascii c. Qed.

(** *** String facts *)

Lemma all_chars_impl (p q : ascii → bool) (s : string) :
  (∀ c, p c = true → q c = true) →
  all_chars p s = true → all_chars q s = true.
Proof.
  intros Hpq. induction s as [|c s IH]; simpl; [done|].
  intros [Hc Hs]%andb_prop. by rewrite (Hpq c Hc), IH.
Qed.

Lemma all_chars_upper_nonspace (s : string) :
  all_chars (λ c, negb (is_space c)) (upper s)
  = all_chars (λ c, negb (is_space c)) s.
Proof.
  induction s as [|c s IH]; simpl; [done|].
  by rewrite upper_char_space, IH.
Qed.

Ltac unfold_app := rewrite ?Str.app_cons, ?Str.app_nil_l.

Lemma span_app (p : ascii → bool) (a b : string) :
  all_chars p a = true →
  match b with String c _ => p c = false | EmptyString => True end →
  span p (a +:+ b) = (a, b).
Proof.
  intros Ha Hb. induction a as [|c a IH]; unfold_app.
  - destruct b as [|c b]; [done|]. simpl. by rewrite Hb.
  - simpl in Ha. apply andb_prop in Ha as [Hc Ha].
    simpl. by rewrite Hc, (IH Ha).
Qed.

Lemma lstrip_nonspace (c : ascii) (s : string) :
  is_space c = false → lstrip (String c s) = String c s.
Proof. intros Hc. simpl. by rewrite Hc. Qed.

Lemma rstrip_app (a b : string) :
  rstrip b = b → b ≠ EmptyString → rstrip (a +:+ b) = a +:+ b.
Proof.
  intros Hb Hne. induction a as [|c a IH]; unfold_app; [done|].
  simpl. rewrite IH.
  destruct (a +:+ b) eqn:Hab; [|done].
  by destruct a, b.
Qed.

Lemma rstrip_nonspace (s : string) :
  all_chars (λ c, negb (is_space c)) s = true → rstrip s = s.
Proof.
  induction s as [|c s IH]; simpl; [done|].
  intros [Hc Hs]%andb_prop. rewrite (IH Hs).
  apply negb_true_iff in Hc. rewrite Hc. by rewrite andb_false_r.
Qed.

Lemma until_quote_app (v r : string) :
  all_chars quotable_char v = true →
  until_quote (v +:+ String dquote r) = Some (v, r).
Proof.
  induction v as [|c v IH]; unfold_app; [done|]. simpl.
  intros [[Hq Hn]%andb_prop Hv]%andb_prop.
  apply negb_true_iff in Hq, Hn.
  by rewrite Hq, Hn, (IH Hv).
Qed.

Lemma lstrip_quotes_plain (v : string) :
  all_chars (λ c, negb (Ascii.eqb c dquote)) v = true → lstrip_quotes v = v.
Proof.
  destruct v as [|c v]; simpl; [done|].
  intros [Hc _]%andb_prop. apply negb_true_iff in Hc. by rewrite Hc.
Qed.

Lemma rstrip_quotes_plain (v : string) :
  all_chars (λ c, negb (Ascii.eqb c dquote)) v = true → rstrip_quotes v = v.
Proof.
  induction v as [|c v IH]; simpl; [done|].
  intros [Hc Hv]%andb_prop. rewrite (IH Hv).
  apply negb_true_iff in Hc. rewrite Hc. by rewrite andb_false_r.
Qed.

Lemma rstrip_quotes_closing (v : string) :
  all_chars (λ c, negb (Ascii.eqb c dquote)) v = true →
  rstrip_quotes (v +:+ String dquote EmptyString) = v.
Proof.
  induction v as [|c v IH]; unfold_app; [done|]. simpl.
  intros [Hc Hv]%andb_prop. rewrite (IH Hv).
  apply negb_true_iff in Hc. rewrite Hc. by rewrite andb_false_r.
Qed.

Lemma strip_quotes_plain (v : string) :
  all_chars (λ c, negb (Ascii.eqb c dquote)) v = true → strip_quotes v = v.
Proof.
  intros Hv. unfold strip_quotes.
  by rewrite lstrip_quotes_plain, rstrip_quotes_plain.
Qed.

Lemma strip_quotes_quoted (v : string) :
  all_chars (λ c, negb (Ascii.eqb c dquote)) v = true →
  strip_quotes (quoted v) = v.
Proof.
  intros Hv. unfold strip_quotes, quoted.
  destruct v as [|c v]; [done|].
  pose proof Hv as Hv'. simpl in Hv'. apply andb_prop in Hv' as [Hc _].
  apply negb_true_iff in Hc.
  change (lstrip_quotes (String dquote (String c v +:+ String dquote "")))
    with (lstrip_quotes (String c v +:+ String dquote "")).
  rewrite Str.app_cons. simpl lstrip_quotes. rewrite Hc.
  rewrite <- Str.app_cons.
  by rewrite (rstrip_quotes_closing (String c v) Hv).
Qed.

(** *** The pattern on rendered parameters *)

Definition starts_with_space_or_empty (r : string) : Prop :=
  match r with
  | String c _ => is_space c = true
  | EmptyString => True
  end.

Lemma well_formed_param_key (p : ParamText) :
  well_formed_param p = true →
  is_empty (key_of p) = false ∧ all_chars is_word (key_of p) = true.
Proof.
  unfold well_formed_param.
  intros [[Hk Hw]%andb_prop _]%andb_prop.
  by apply negb_true_iff in Hk.
Qed.

Lemma match_value_raw (p : ParamText) (r : string) :
  well_formed_param p = true → starts_with_space_or_empty r →
  match_value (raw_of p +:+ r) = Some (raw_of p).
Proof.
  unfold well_formed_param. intros [_ Hv]%andb_prop Hr.
  destruct p as [k v|k v]; simpl raw_of.
  - apply andb_prop in Hv as [Hne Hv]. apply negb_true_iff in Hne.
    assert (Hspan : span (λ c, negb (is_space c)) (v +:+ r) = (v, r)).
    { apply span_app.
      - eapply all_chars_impl; [|exact Hv].
        by intros c [? _]%andb_prop.
      - destruct r; [done|]. simpl in Hr. by rewrite Hr. }
    destruct v as [|c v]; [done|].
    unfold match_value. rewrite Hspan. rewrite Str.app_cons.
    simpl in Hv. apply andb_prop in Hv as [[_ Hq]%andb_prop _].
    apply negb_true_iff in Hq. by rewrite Hq.
  - unfold quoted. rewrite Str.app_cons, Str.app_assoc, Str.app_cons.
    rewrite Str.app_nil_l. unfold match_value.
    rewrite (until_quote_app v r Hv).
    by replace (Ascii.eqb dquote dquote) with true by done.
Qed.

Lemma match_here_render (p : ParamText) (r : string) :
  well_formed_param p = true → starts_with_space_or_empty r →
  match_here (render p +:+ r)
  = Some (key_of p, raw_of p, String.length (render p)).
Proof.
  intros Hp Hr. destruct (well_formed_param_key p Hp) as [Hne Hw].
  unfold match_here, render.
  rewrite Str.app_assoc, Str.app_cons.
  rewrite span_app; [|done|done]. rewrite Hne.
  replace (Ascii.eqb equals_sign equals_sign) with true by done.
  rewrite (match_value_raw p r Hp Hr).
  rewrite Str.length_app. simpl. do 2 f_equal. lia.
Qed.

Lemma finditer_skip (a b : string) :
  finditer (a +:+ b) (String.length a) = finditer b 0.
Proof.
  induction a as [|c a IH]; [done|]. by rewrite Str.app_cons.
Qed.

Lemma finditer_space (c : ascii) (s : string) :
  is_space c = true → finditer (String c s) 0 = finditer s 0.
Proof.
  intros Hc. simpl. unfold match_here. simpl.
  destruct (is_word c) eqn:Hw; [|done].
  apply word_not_space in Hw. congruence.
Qed.

Lemma finditer_render (p : ParamText) (r : string) :
  well_formed_param p = true → starts_with_space_or_empty r →
  finditer (render p +:+ r) 0 = (key_of p, raw_of p) :: finditer r 0.
Proof.
  intros Hp Hr. pose proof (match_here_render p r Hp Hr) as Hm.
  destruct (render p) as [|c s] eqn:Hren.
  - destruct (well_formed_param_key p Hp) as [Hne _].
    unfold render in Hren. by destruct (key_of p).
  - rewrite Str.app_cons in Hm |- *.
    cbn [finditer]. rewrite Hm. f_equal.
    replace (String.length (String c s) - 1) with (String.length s)
      by (simpl; lia).
    apply finditer_skip.
Qed.

Lemma render_params_starts (ps : list ParamText) :
  starts_with_space_or_empty (render_params ps).
Proof. by destruct ps. Qed.

Lemma finditer_render_params (ps : list ParamText) :
  forallb well_formed_param ps = true →
  finditer (render_params ps) 0 = map (λ p, (key_of p, raw_of p)) ps.
Proof.
  induction ps as [|p ps IH]; [done|]. simpl.
  intros [Hp Hps]%andb_prop.
  change (finditer (String " " (render p +:+ render_params ps)) 0
          = (key_of p, raw_of p) :: map (λ p, (key_of p, raw_of p)) ps).
  rewrite finditer_space by done.
  rewrite finditer_render; [|done|apply render_params_starts].
  by rewrite IH.
Qed.

Lemma strip_quotes_raw (p : ParamText) :
  well_formed_param p = true → strip_quotes (raw_of p) = value_of p.
Proof.
  unfold well_formed_param. intros [_ Hv]%andb_prop.
  destruct p as [k v|k v]; simpl.
  - apply andb_prop in Hv as [_ Hv]. apply strip_quotes_plain.
    eapply all_chars_impl; [|exact Hv]. by intros c [_ ?]%andb_prop.
  - apply strip_quotes_quoted.
    eapply all_chars_impl; [|exact Hv]. by intros c [? _]%andb_prop.
Qed.

Lemma collect_params_expected (ps : list ParamText) :
  forallb well_formed_param ps = true →
  collect_params (map (λ p, (key_of p, raw_of p)) ps) = expected_params ps.
Proof.
  unfold collect_params, expected_params.
  generalize (∅ : gmap string string).
  induction ps as [|p ps IH]; intros m; [done|]. simpl.
  intros [Hp Hps]%andb_prop.
  rewrite (strip_quotes_raw p Hp). by apply IH.
Qed.

(** *** The command word *)

Lemma CommandType_of_string_value (s : string) (ct : CommandType) :
  CommandType_of_string s = Some ct → s = CommandType_value ct.
Proof.
  unfold CommandType_of_string. intros [_ Heq]%List.find_some.
  symmetry. by apply String.eqb_eq.
Qed.

Lemma starts_with_hash_upper (s : string) :
  starts_with_hash (upper s) = starts_with_hash s.
Proof. destruct s as [|c s]; [done|]. simpl. apply upper_char_hash. Qed.

Lemma command_word_shape (ty : string) (ct : CommandType) :
  CommandType_of_string (upper ty) = Some ct →
  all_chars (λ c, negb (is_space c)) ty = true ∧
  is_empty ty = false ∧ starts_with_hash ty = false.
Proof.
  intros Hct%CommandType_of_string_value. repeat split.
  - rewrite <- all_chars_upper_nonspace, Hct. by destruct ct.
  - destruct ty; [by destruct ct|done].
  - rewrite <- starts_with_hash_upper, Hct. by destruct ct.
Qed.

(** *** Stripping and splitting a well-formed line *)

Lemma render_first (p : ParamText) :
  well_formed_param p = true →
  ∃ c s, render p = String c s ∧ is_space c = false.
Proof.
  intros Hp. destruct (well_formed_param_key p Hp) as [Hne Hw].
  unfold render. destruct (key_of p) as [|c k]; [done|].
  exists c, (k +:+ String equals_sign (raw_of p)). split; [done|].
  simpl in Hw. apply andb_prop in Hw as [Hc _]. by apply word_not_space.
Qed.

Lemma rstrip_render (p : ParamText) :
  well_formed_param p = true → rstrip (render p) = render p.
Proof.
  intros Hp. unfold render.
  replace (key_of p +:+ String equals_sign (raw_of p))
    with ((key_of p +:+ String equals_sign "") +:+ raw_of p)
    by (by rewrite Str.app_assoc).
  unfold well_formed_param in Hp. apply andb_prop in Hp as [_ Hv].
  destruct p as [k v|k v]; simpl raw_of.
  - apply andb_prop in Hv as [Hne Hv]. apply rstrip_app.
    + apply rstrip_nonspace. eapply all_chars_impl; [|exact Hv].
      by intros c [? _]%andb_prop.
    + by destruct v.
  - apply rstrip_app; [|done]. unfold quoted.
    rewrite <- Str.app_cons. by apply rstrip_app.
Qed.

Lemma rstrip_render_params (ps : list ParamText) :
  forallb well_formed_param ps = true → ps ≠ [] →
  rstrip (render_params ps) = render_params ps.
Proof.
  induction ps as [|p ps IH]; [done|].
  intros Hall _. simpl in Hall. apply andb_prop in Hall as [Hp Hps].
  destruct (render_first p Hp) as (c & s & Hren & _).
  cbn [render_params]. destruct ps as [|q ps].
  - cbn [render_params]. rewrite Str.app_nil_r.
    change (String " " (render p)) with (" " +:+ render p).
    apply rstrip_app; [by apply rstrip_render | by rewrite Hren].
  - rewrite <- Str.app_cons. apply rstrip_app; [by apply IH | done].
Qed.

Lemma strip_well_formed (ty : string) (ct : CommandType)
    (ps : list ParamText) :
  CommandType_of_string (upper ty) = Some ct →
  forallb well_formed_param ps = true →
  strip (ty +:+ render_params ps) = ty +:+ render_params ps.
Proof.
  intros Hty Hps. destruct (command_word_shape ty ct Hty) as (Hns & Hne & _).
  unfold strip. destruct ty as [|c ty]; [done|].
  pose proof Hns as Hns'. simpl in Hns'.
  apply andb_prop in Hns' as [Hc _]. apply negb_true_iff in Hc.
  rewrite Str.app_cons, (lstrip_nonspace _ _ Hc), <- Str.app_cons.
  destruct ps as [|p ps].
  - simpl render_params. rewrite Str.app_nil_r. by apply rstrip_nonspace.
  - apply rstrip_app; [by apply rstrip_render_params | done].
Qed.

Lemma split_once_well_formed (ty : string) (ct : CommandType)
    (ps : list ParamText) :
  CommandType_of_string (upper ty) = Some ct →
  forallb well_formed_param ps = true →
  split_once (ty +:+ render_params ps)
  = ty :: match ps with
          | [] => []
          | p :: ps' => [render p +:+ render_params ps']
          end.
Proof.
  intros Hty Hps. destruct (command_word_shape ty ct Hty) as (Hns & Hne & _).
  unfold split_once. destruct ty as [|c ty]; [done|].
  pose proof Hns as Hns'. simpl in Hns'.
  apply andb_prop in Hns' as [Hc _]. apply negb_true_iff in Hc.
  rewrite Str.app_cons, (lstrip_nonspace _ _ Hc), <- Str.app_cons.
  rewrite span_app; [|done|by destruct ps].
  destruct ps as [|p ps]; [done|].
  simpl in Hps. apply andb_prop in Hps as [Hp _].
  destruct (render_first p Hp) as (d & s & Hren & Hd).
  simpl render_params.
  change (lstrip (String " " (render p +:+ render_params ps)))
    with (lstrip (render p +:+ render_params ps)).
  rewrite Hren, Str.app_cons, (lstrip_nonspace _ _ Hd). done.
Qed.

Lemma parse_line_well_formed (ty : string) (ct : CommandType)
    (ps : list ParamText) (n : Z) (uuid now : string) :
  CommandType_of_string (upper ty) = Some ct →
  forallb well_formed_param ps = true →
  parse_line (ty +:+ render_params ps) n uuid now
  = Some {| command_type := ct; action_id := uuid;
            params := expected_params ps;
            raw_text := ty +:+ render_params ps; line_number := n;
            issued_at := now; severity := LOW |}.
Proof.
  intros Hty Hps. destruct (command_word_shape ty ct Hty) as (_ & Hne & Hh).
  unfold parse_line.
  rewrite (strip_well_formed ty ct ps Hty Hps).
  rewrite (split_once_well_formed ty ct ps Hty Hps), Hty.
  assert (Hhead : is_empty (ty +:+ render_params ps)
                  || starts_with_hash (ty +:+ render_params ps) = false).
  { destruct ty as [|c ty]; [done|]. by rewrite Str.app_cons. }
  rewrite Hhead. do 2 f_equal.
  destruct ps as [|p ps]; [done|].
  simpl in Hps. pose proof Hps as Hps'.
  apply andb_prop in Hps' as [Hp Hps'].
  rewrite finditer_render; [|done|apply render_params_starts].
  rewrite (finditer_render_params ps Hps').
  by rewrite <- (collect_params_expected (p :: ps)).
Qed.

(** *** Lines that give no command *)

Lemma parse_line_blank (line : string) (n : Z) (uuid now : string) :
  all_chars is_space line = true → parse_line line n uuid now = None.
Proof.
  intros Hsp. unfold parse_line.
  assert (Hl : lstrip line = EmptyString).
  { induction line as [|c line IH]; [done|]. simpl in *.
    apply andb_prop in Hsp as [Hc Hsp]. rewrite Hc. by apply IH. }
  unfold strip. by rewrite Hl.
Qed.

Lemma parse_line_comment (rest : string) (n : Z) (uuid now : string) :
  parse_line (String hash_mark rest) n uuid now = None.
Proof.
  unfold parse_line, strip.
  rewrite lstrip_nonspace by done. cbn [rstrip].
  replace (is_space hash_mark) with false by done.
  rewrite andb_false_r. cbn [is_empty starts_with_hash orb].
  by replace (Ascii.eqb hash_mark hash_mark) with true by done.
Qed.

Lemma parse_line_unknown (line : string) (n : Z) (uuid now : string)
    (word : string) (more : list string) :
  split_once (strip line) = word :: more →
  CommandType_of_string (upper word) = None →
  parse_line line n uuid now = None.
Proof.
  intros Hsplit Hct. unfold parse_line. rewrite Hsplit, Hct.
  by destruct (_ || _).
Qed.

(** C8. A line made of a command word that, upper-cased, is the value of
    a command type, followed by a parameter [k1=v1] and a parameter [k2]
    with a quoted value (each after one space; keys are words, [v1] has no
    white space or double quote, the quoted text has no double quote or
    newline), parses to a command of that type whose parameters are exactly
    [k1 ↦ v1] and [k2 ↦] the text between the quotes, white space included;
    the same holds for any number of such parameters. A line of white space
    only (the empty line among them), a line that starts with [#], and a
    line whose first word is not a command type in any letter case parse to
    no command. *)
Theorem parse_line_spec (n : Z) (uuid now : string) :
  (∀ ty ct k1 v1 k2 v2,
     CommandType_of_string (upper ty) = Some ct →
     well_formed_param (Unquoted k1 v1) = true →
     well_formed_param (Quoted k2 v2) = true →
     CommandType_value ct = upper ty ∧
     parse_line
       (ty +:+ " " +:+ k1 +:+ "=" +:+ v1 +:+ " " +:+ k2 +:+ "=" +:+ quoted v2)
       n uuid now
     = Some {| command_type := ct; action_id := uuid;
               params := <[k2 := v2]> (<[k1 := v1]> ∅);
               raw_text :=
                 ty +:+ " " +:+ k1 +:+ "=" +:+ v1 +:+ " " +:+ k2 +:+ "="
                    +:+ quoted v2;
               line_number := n; issued_at := now; severity := LOW |}) ∧
  (∀ ty ct ps,
     CommandType_of_string (upper ty) = Some ct →
     forallb well_formed_param ps = true →
     parse_line (ty +:+ render_params ps) n uuid now
     = Some {| command_type := ct; action_id := uuid;
               params := expected_params ps;
               raw_text := ty +:+ render_params ps; line_number := n;
               issued_at := now; severity := LOW |}) ∧
  (∀ line, all_chars is_space line = true →
     parse_line line n uuid now = None) ∧
  (∀ rest, parse_line (String hash_mark rest) n uuid now = None) ∧
  (∀ line word more,
     split_once (strip line) = word :: more →
     CommandType_of_string (upper word) = None →
     parse_line line n uuid now = None).
Proof.
  split; [|split; [|split; [|split]]].
  - intros ty ct k1 v1 k2 v2 Hty H1 H2.
    split; [symmetry; by apply CommandType_of_string_value|].
    assert (Hline :
      ty +:+ " " +:+ k1 +:+ "=" +:+ v1 +:+ " " +:+ k2 +:+ "=" +:+ quoted v2
      = ty +:+ render_params [Unquoted k1 v1; Quoted k2 v2]).
    { unfold render_params, render, key_of, raw_of, equals_sign.
      rewrite ?Str.app_assoc, ?Str.app_cons, ?Str.app_nil_l, ?Str.app_nil_r.
      done. }
    rewrite Hline.
    apply (parse_line_well_formed ty ct [Unquoted k1 v1; Quoted k2 v2]);
      [done|]. simpl. by rewrite H1, H2.
  - intros ty ct ps. apply parse_line_well_formed.
  - intros line. apply parse_line_blank.
  - intros rest. apply parse_line_comment.
  - intros line word more. apply parse_line_unknown.
Qed.

(** The line [Post_Vimeo url=https://example.com/v.mp4 title="My Awesome
    Video"]. *)
Lemma parse_line_spec_witness :
  CommandType_value POST_VIMEO = upper "Post_Vimeo" ∧
  parse_line
    ("Post_Vimeo" +:+ " " +:+ "url" +:+ "=" +:+ "https://example.com/v.mp4"
       +:+ " " +:+ "title" +:+ "=" +:+ quoted "My Awesome Video")
    3 "uuid-1" "2024-01-01T00:00:00"
  = Some {| command_type := POST_VIMEO; action_id := "uuid-1";
            params := <["title" := "My Awesome Video"]>
                        (<["url" := "https://example.com/v.mp4"]> ∅);
            raw_text :=
              "Post_Vimeo" +:+ " " +:+ "url" +:+ "="
                +:+ "https://example.com/v.mp4" +:+ " " +:+ "title" +:+ "="
                +:+ quoted "My Awesome Video";
            line_number := 3; issued_at := "2024-01-01T00:00:00";
            severity := LOW |}.
Proof.
  apply (proj1 (parse_line_spec 3 "uuid-1" "2024-01-01T00:00:00")
           "Post_Vimeo" POST_VIMEO "url" "https://example.com/v.mp4"
           "title" "My Awesome Video").
  - reflexivity.
  - reflexivity.
  - reflexivity.
Defined.

End Parser.

(** ** The poller: [CommandValidator], [IdempotencyStore] and
    [CommandPoller.process_command] *)

Module Poller.

Import Parser.
Import Breaker (Outcome, Returned, Raised, CircuitBreaker).

(** *** [CommandValidator] *)

Record Schema := {
  required : list string;
  optional : list string;
  schema_severity : Severity
}.

(** [COMMAND_SCHEMAS]; every command type has an entry. *)
Definition COMMAND_SCHEMAS (ct : CommandType) : Schema :=
  match ct with
  | SCAN_SITE =>
      {| required := ["domain"]; optional := []; schema_severity := LOW |}
  | PUBLISH_REPORT =>
      {| required := ["client"; "dataset"; "format"];
         optional := ["template"]; schema_severity := MEDIUM |}
  | START_CAMPAIGN =>
      {| required := ["channel"; "campaign_id"];
         optional := ["schedule_at"]; schema_severity := HIGH |}
  | POST_VIMEO =>
      {| required := ["title"; "url"]; optional := ["visibility"];
         schema_severity := LOW |}
  | TRAIN_AGENT =>
      {| required := ["dataset"; "run"]; optional := ["hyperparams"];
         schema_severity := LOW |}
  | ENFORCE_POLICY =>
      {| required := ["policy_id"; "reason"]; optional := [];
         schema_severity := HIGH |}
  | REVERT_ACTION =>
      {| required := ["action_id"]; optional := ["reason"];
         schema_severity := HIGH |}
  end.

(** Case folding of [re.IGNORECASE] towards ASCII letters. *)
Definition lower_char (c : ascii) : ascii :=
  if between 65 90 c then ascii_of_nat (code c + 32) else c.

(** [str.lower] on ASCII text. *)
Fixpoint lower (s : string) : string :=
  match s with
  | EmptyString => EmptyString
  | String c s' => String (lower_char c) (lower s')
  end.

(** [pat], written in lower case, is a prefix of [s] up to letter case;
    the result is what follows it. *)
Fixpoint strip_prefix_ci (pat s : string) : option string :=
  match pat, s with
  | EmptyString, _ => Some s
  | String p pat', String c s' =>
      if Ascii.eqb p (lower_char c) then strip_prefix_ci pat' s' else None
  | String _ _, EmptyString => None
  end.

(** [re.search] of a pattern that is tried at every position. *)
Fixpoint search (at_start : string → bool) (s : string) : bool :=
  at_start s ||
  match s with
  | EmptyString => false
  | String _ s' => search at_start s'
  end.

(** The character class of shell metacharacters: semicolon, bar,
    ampersand, dollar and back quote. *)
Definition shell_meta (s : string) : bool :=
  match s with
  | String c _ =>
      (code c =? 59) || (code c =? 124) || (code c =? 38) || (code c =? 36)
      || (code c =? 96)
  | EmptyString => false
  end.

Definition has_prefix_ci (pat s : string) : bool :=
  match strip_prefix_ci pat s with
  | Some _ => true
  | None => false
  end.

Definition script_tag (s : string) : bool := has_prefix_ci "<script" s.

(** [union\s+select]: at least one white space, then all of it, then
    [select]. *)
Definition union_select (s : string) : bool :=
  match strip_prefix_ci "union" s with
  | Some (String c rest) =>
      is_space c && has_prefix_ci "select" (lstrip rest)
  | _ => false
  end.

Definition dot_dot_slash (s : string) : bool := has_prefix_ci "../" s.

(** [_is_safe_value] *)
Definition _is_safe_value (value : string) : bool :=
  if search shell_meta value then false
  else if search script_tag value then false
  else if search union_select value then false
  else if search dot_dot_slash value then false
  else String.length value <=? 1000.

Definition set_severity (parsed : ParsedCommand) (s : Severity)
  : ParsedCommand :=
  {| command_type := command_type parsed; action_id := action_id parsed;
     params := params parsed; raw_text := raw_text parsed;
     line_number := line_number parsed; issued_at := issued_at parsed;
     severity := s |}.

(** [validate]: the error message, if any, and the command, whose severity
    is assigned on success. The dictionary is visited in key order here and
    in insertion order in Python; this only decides which of several unsafe
    parameters the message names. *)
Definition validate (parsed : ParsedCommand) : option string * ParsedCommand :=
  let schema := COMMAND_SCHEMAS (command_type parsed) in
  match find (λ req, bool_decide (params parsed !! req = None))
             (required schema) with
  | Some req => (Some ("Missing required parameter: " +:+ req), parsed)
  | None =>
      match find (λ kv, negb (_is_safe_value (snd kv)))
                 (map_to_list (params parsed)) with
      | Some (key, value) =>
          (Some ("Unsafe value in parameter " +:+ key +:+ ": " +:+ value),
           parsed)
      | None => (None, set_severity parsed (schema_severity schema))
      end
  end.

Example safe_plain : _is_safe_value "example.com" = true.
Proof. by vm_compute. Qed.

Example unsafe_shell : _is_safe_value "a.com; rm -rf /" = false.
Proof. by vm_compute. Qed.

Example unsafe_sql : _is_safe_value "x UNION   Select y" = false.
Proof. by vm_compute. Qed.

Example unsafe_path : _is_safe_value "a/../b" = false.
Proof. by vm_compute. Qed.

(** *** [IdempotencyStore] over Redis *)

(** The dictionary of an MCP response, as far as the poller reads it. *)
Record Response := {
  resp_status : option string;
  resp_rationale : option string;
  resp_tool_result : option string
}.

(** What the poller stores: the marker of a claimed fingerprint, or the
    JSON text of a cached result, kept here in decoded form. *)
Inductive RedisValue :=
| Marker
| CachedResult (receipt_hash : option string) (result : Response).

(** Keys with their value and the time, in seconds, at which they
    expire. *)
Abbreviation Redis := (gmap string (RedisValue * Z)).

Definition redis_get (r : Redis) (key : string) (now : Z)
  : option RedisValue :=
  match r !! key with
  | Some (v, expires) => if (now <? expires)%Z then Some v else None
  | None => None
  end.

(** [SET key value NX EX ttl] *)
Definition redis_set_nx_ex (r : Redis) (key : string) (v : RedisValue)
    (ttl now : Z) : bool * Redis :=
  match redis_get r key now with
  | Some _ => (false, r)
  | None => (true, <[key := (v, (now + ttl)%Z)]> r)
  end.

(** [SETEX key ttl value] *)
Definition redis_setex (r : Redis) (key : string) (ttl : Z) (v : RedisValue)
    (now : Z) : Redis :=
  <[key := (v, (now + ttl)%Z)]> r.

Inductive RedisCall := SetNx | Get | SetEx.

(** What surrounds one [process_command]: the clock of the Redis server,
    whether each Redis call answers (otherwise it raises), what the POST to
    the MCP server does once it is sent, the two clock readings of the
    breaker, and the measured latency. *)
Record Env := {
  redis_now : Z;
  redis_up : RedisCall → bool;
  request : Outcome Response;
  now_entry : Z;
  now_fail : Z;
  latency : Z
}.

Record Metrics := {
  commands_processed : Z;
  commands_success : Z;
  commands_failed : Z;
  commands_duplicate : Z;
  latency_sum_ms : Z;
  latency_count : Z
}.

(** [record_command] *)
Definition record_command (m : Metrics) (success : bool) (latency_ms : Z)
    (duplicate : bool) : Metrics :=
  {| commands_processed := commands_processed m + 1;
     commands_success :=
       if duplicate then commands_success m
       else if success then commands_success m + 1 else commands_success m;
     commands_failed :=
       if duplicate then commands_failed m
       else if success then commands_failed m else commands_failed m + 1;
     commands_duplicate :=
       if duplicate then commands_duplicate m + 1 else commands_duplicate m;
     latency_sum_ms := latency_sum_ms m + latency_ms;
     latency_count := latency_count m + 1 |}%Z.

(** The objects a [CommandPoller] holds. [idempotency] is [None] when Redis
    could not be reached at start-up. [ledger] lists the [append_ledger]
    calls made so far with the hash each returned, and [requests_sent]
    counts the POSTs sent to the MCP server. *)
Record State := {
  idempotency : option Redis;
  notion : Ledger.NotionClient;
  ledger : list (Ledger.LedgerEntry * string);
  breaker : CircuitBreaker;
  requests_sent : nat;
  metrics : Metrics
}.

Definition set_idempotency (st : State) (r : option Redis) : State :=
  {| idempotency := r; notion := notion st; ledger := ledger st;
     breaker := breaker st; requests_sent := requests_sent st;
     metrics := metrics st |}.

Definition set_metrics (st : State) (m : Metrics) : State :=
  {| idempotency := idempotency st; notion := notion st; ledger := ledger st;
     breaker := breaker st; requests_sent := requests_sent st;
     metrics := m |}.

Definition redis_error : string := "Error connecting to Redis".

(** [check_and_record] *)
Definition check_and_record (st : State) (aid : string) (ttl_seconds : Z)
    (env : Env) : Outcome (bool * State) :=
  match idempotency st with
  | None => Returned (true, st)
  | Some r =>
      if redis_up env SetNx then
        let '(fresh, r') :=
          redis_set_nx_ex r ("idempotent:" +:+ aid) Marker ttl_seconds
            (redis_now env) in
        Returned (fresh, set_idempotency st (Some r'))
      else Raised redis_error
  end.

(** [cache_result] *)
Definition cache_result (st : State) (aid : string) (receipt : string)
    (result : Response) (ttl_seconds : Z) (env : Env) : Outcome State :=
  match idempotency st with
  | None => Returned st
  | Some r =>
      if redis_up env SetEx then
        Returned (set_idempotency st
          (Some (redis_setex r ("result:" +:+ aid) ttl_seconds
                   (CachedResult (Some receipt) result) (redis_now env))))
      else Raised redis_error
  end.

(** [get_cached_result] *)
Definition get_cached_result (st : State) (aid : string) (env : Env)
  : Outcome (option RedisValue) :=
  match idempotency st with
  | None => Returned None
  | Some r =>
      if redis_up env Get
      then Returned (redis_get r ("result:" +:+ aid) (redis_now env))
      else Raised redis_error
  end.

(** [check_kill_switch]: [get_feature_flag('kill_switch')] answers with
    the value ['false']. *)
Definition check_kill_switch : bool :=
  String.eqb (lower "false") "true".

(** [MCPClient.execute_action]: the signed request goes through the
    breaker; the wrapped function sends one POST. *)
Definition mcp_execute_action (st : State) (env : Env)
  : Outcome Response * State :=
  let '(r, b, n) :=
    Breaker.call (breaker st) (λ sent, (request env, S sent))
      (now_entry env) (now_fail env) (requests_sent st) in
  (r, {| idempotency := idempotency st; notion := notion st;
         ledger := ledger st; breaker := b; requests_sent := n;
         metrics := metrics st |}).

(** [result.get('status') in ['SUCCESS', 'OK']] *)
Definition status_ok (result : Response) : bool :=
  match resp_status result with
  | Some s => String.eqb s "SUCCESS" || String.eqb s "OK"
  | None => false
  end.

(** How [process_command] ends: it returns a pair, or [SystemExit] leaves
    it. *)
Inductive Exit :=
| Return (ok : bool) (receipt : string)
| SystemExit (msg : string).

(** How the [try] block ends: with the function left, or with an
    [Exception] on its way to the handler. *)
Inductive TryResult :=
| Finished (e : Exit) (st : State)
| Caught (msg : string) (st : State).

Section WithHash.

Variable sha256_hex : string → string.

(** One [append_ledger] call by the poller. *)
Definition append (st : State) (parsed : ParsedCommand) (result : string)
    (latency_ms : Z) (rationale : string) : string * State :=
  let e := {| Ledger.action_id := action_id parsed;
              Ledger.command_text := raw_text parsed;
              Ledger.result := result;
              Ledger.latency_ms := latency_ms;
              Ledger.rationale := rationale;
              Ledger.signer := "command_poller" |} in
  let '(h, notion') := Ledger.append_entry sha256_hex (notion st) e in
  (h, {| idempotency := idempotency st; notion := notion';
         ledger := ledger st ++ [(e, h)]; breaker := breaker st;
         requests_sent := requests_sent st; metrics := metrics st |}).

(** The [try] block of [process_command]. *)
Definition try_block (st : State) (parsed : ParsedCommand) (env : Env)
  : TryResult :=
  let '(error, parsed) := validate parsed in
  match error with
  | Some e => Caught ("Validation failed: " +:+ e) st
  | None =>
      let action_hash := sha256_hex (raw_text parsed) in
      match check_and_record st action_hash 3600 env with
      | Raised e => Caught e st
      | Returned (false, st) =>
          match get_cached_result st action_hash env with
          | Raised e => Caught e st
          | Returned cached =>
              Finished
                (Return true
                   match cached with
                   | Some (CachedResult receipt _) => default "CACHED" receipt
                   | Some Marker => "CACHED"
                   | None => "DUPLICATE"
                   end)
                (set_metrics st (record_command (metrics st) true 0 true))
          end
      | Returned (true, st) =>
          if check_kill_switch
          then Finished
                 (SystemExit "Kill switch is active, aborting command execution.")
                 st
          else
            let '(r, st) := mcp_execute_action st env in
            match r with
            | Raised e => Caught e st
            | Returned result =>
                if status_ok result then
                  let '(receipt_hash, st) :=
                    append st parsed "SUCCESS" (latency env)
                      (default "Completed successfully"
                         (resp_rationale result)) in
                  match cache_result st action_hash receipt_hash result 3600
                          env with
                  | Raised e => Caught e st
                  | Returned st =>
                      Finished (Return true receipt_hash)
                        (set_metrics st
                           (record_command (metrics st) true (latency env)
                              false))
                  end
                else
                  Caught ("MCP execution failed: "
                          +:+ default "No rationale" (resp_rationale result))
                    st
            end
      end
  end.

(** [process_command]: the [try] block and its [except Exception]
    handler. *)
Definition process_command (st : State) (parsed : ParsedCommand) (env : Env)
  : Exit * State :=
  match try_block st parsed env with
  | Finished e st => (e, st)
  | Caught msg st =>
      let '(receipt_hash, st) :=
        append st parsed "FAILED" (latency env) msg in
      (Return false ("ERROR: " +:+ receipt_hash),
       set_metrics st (record_command (metrics st) false (latency env) false))
  end.

End WithHash.

(** [CommandPoller.__init__] with Redis reached or not. *)
Definition new_state (redis_reached : bool) : State :=
  {| idempotency := if redis_reached then Some ∅ else None;
     notion := Ledger.new_client; ledger := [];
     breaker := Breaker.new "mcp_api" 5 60; requests_sent := 0;
     metrics := {| commands_processed := 0; commands_success := 0;
                   commands_failed := 0; commands_duplicate := 0;
                   latency_sum_ms := 0; latency_count := 0 |} |}.

(** *** What becomes of a command *)

Inductive Fate := Duplicate | Succeeds | Fails | CacheWriteFails.

Section Fates.

Variable sha256_hex : string → string.

(** What the signed request does on state [st]: the breaker may reject
    it. *)
Definition dispatch (st : State) (env : Env) : Outcome Response :=
  fst (mcp_execute_action st env).

(** The fingerprint of the command is claimed and has not expired. *)
Definition claimed (r : Redis) (parsed : ParsedCommand) (env : Env) : bool :=
  bool_decide
    (is_Some (redis_get r ("idempotent:" +:+ sha256_hex (raw_text parsed))
                (redis_now env))).

Definition dispatch_fate (st : State) (env : Env) (cache_up : bool) : Fate :=
  match dispatch st env with
  | Raised _ => Fails
  | Returned result =>
      if status_ok result
      then if cache_up then Succeeds else CacheWriteFails
      else Fails
  end.

(** The cases of [process_command], read off its inputs: the command is a
    duplicate, it succeeds, a per-command error occurs, or the command
    succeeds and only the write of the cached result raises. *)
Definition fate (st : State) (parsed : ParsedCommand) (env : Env) : Fate :=
  match fst (validate parsed) with
  | Some _ => Fails
  | None =>
      match idempotency st with
      | None => dispatch_fate st env true
      | Some r =>
          if negb (redis_up env SetNx) then Fails
          else if claimed r parsed env
          then if redis_up env Get then Duplicate else Fails
          else dispatch_fate st env (redis_up env SetEx)
      end
  end.

(** The entries appended by a call. *)
Definition appended (st st' : State)
    (es : list (Ledger.LedgerEntry * string)) : Prop :=
  ledger st' = (ledger st ++ es)%list.

Definition entry_of (parsed : ParsedCommand) (result : string)
    (x : Ledger.LedgerEntry * string) : Prop :=
  Ledger.action_id (fst x) = action_id parsed ∧
  Ledger.command_text (fst x) = raw_text parsed ∧
  Ledger.result (fst x) = result ∧
  Ledger.signer (fst x) = "command_poller".

Lemma validate_fields (parsed : ParsedCommand) :
  action_id (snd (validate parsed)) = action_id parsed ∧
  raw_text (snd (validate parsed)) = raw_text parsed.
Proof.
  unfold validate. destruct (find _ (required _)); [done|].
  by destruct (find _ (map_to_list _)) as [[? ?]|].
Qed.

Lemma append_spec (st : State) (parsed : ParsedCommand) (result : string)
    (lat : Z) (rat : string) :
  ∃ x, appended st (snd (append sha256_hex st parsed result lat rat)) [x] ∧
       entry_of parsed result x ∧
       snd x = fst (append sha256_hex st parsed result lat rat) ∧
       idempotency (snd (append sha256_hex st parsed result lat rat))
       = idempotency st ∧
       requests_sent (snd (append sha256_hex st parsed result lat rat))
       = requests_sent st.
Proof.
  unfold append, Ledger.append_entry, Ledger.append_ledger. simpl.
  eexists. by repeat split.
Qed.

Lemma mcp_execute_action_other_store (st : State) (env : Env)
    (r : option Redis) :
  mcp_execute_action (set_idempotency st r) env
  = (fst (mcp_execute_action st env),
     set_idempotency (snd (mcp_execute_action st env)) r).
Proof.
  unfold mcp_execute_action, set_idempotency. simpl.
  by destruct (Breaker.call _ _ _ _ _) as [[? ?] ?].
Qed.

Lemma mcp_execute_action_ledger (st : State) (env : Env) :
  ledger (snd (mcp_execute_action st env)) = ledger st ∧
  idempotency (snd (mcp_execute_action st env)) = idempotency st.
Proof.
  unfold mcp_execute_action.
  by destruct (Breaker.call _ _ _ _ _) as [[? ?] ?].
Qed.

(** The [except] handler appends one FAILED entry to whatever the [try]
    block left. *)
Lemma caught_spec (st st1 : State) (parsed : ParsedCommand) (env : Env)
    (msg : string) :
  try_block sha256_hex st parsed env = Caught msg st1 →
  ledger st1 = ledger st →
  ∃ x, appended st (snd (process_command sha256_hex st parsed env)) [x] ∧
       entry_of parsed "FAILED" x ∧
       fst (process_command sha256_hex st parsed env)
       = Return false ("ERROR: " +:+ snd x).
Proof.
  intros Htry Hled. unfold process_command. rewrite Htry.
  destruct (append_spec st1 parsed "FAILED" (latency env) msg)
    as (x & Happ & Hent & Hx & _).
  destruct (append sha256_hex st1 parsed "FAILED" (latency env) msg)
    as [h st2]. simpl in *.
  exists x. unfold appended in *. simpl. rewrite Happ, Hled, Hx.
  split; [done|]. by split.
Qed.

Lemma dispatch_fate_spec (st st1 : State) (parsed parsed' : ParsedCommand)
    (env : Env) (cache_up : bool) (r : option Redis) :
  fst (validate parsed) = None → parsed' = snd (validate parsed) →
  check_and_record st (sha256_hex (raw_text parsed')) 3600 env
  = Returned (true, st1) →
  st1 = set_idempotency st r →
  cache_up = match r with Some _ => redis_up env SetEx | None => true end →
  match dispatch_fate st env cache_up with
  | Duplicate => False
  | Succeeds =>
      ∃ x, appended st (snd (process_command sha256_hex st parsed env)) [x] ∧
           entry_of parsed "SUCCESS" x ∧
           fst (process_command sha256_hex st parsed env)
           = Return true (snd x)
  | Fails =>
      ∃ x, appended st (snd (process_command sha256_hex st parsed env)) [x] ∧
           entry_of parsed "FAILED" x ∧
           fst (process_command sha256_hex st parsed env)
           = Return false ("ERROR: " +:+ snd x)
  | CacheWriteFails => True
  end.
Proof.
  intros Hvalid Hp' Hcheck Hst1 Hcache.
  pose proof (validate_fields parsed) as [Hid Hraw].
  pose proof (mcp_execute_action_ledger st env) as [Hml Hmi].
  assert (Htry : try_block sha256_hex st parsed env
    = let '(rr, st2) := mcp_execute_action st1 env in
      match rr with
      | Raised e => Caught e st2
      | Returned result =>
          if status_ok result then
            let '(receipt_hash, st3) :=
              append sha256_hex st2 parsed' "SUCCESS" (latency env)
                (default "Completed successfully" (resp_rationale result)) in
            match cache_result st3 (sha256_hex (raw_text parsed'))
                    receipt_hash result 3600 env with
            | Raised e => Caught e st3
            | Returned st4 =>
                Finished (Return true receipt_hash)
                  (set_metrics st4
                     (record_command (metrics st4) true (latency env) false))
            end
          else
            Caught ("MCP execution failed: "
                    +:+ default "No rationale" (resp_rationale result)) st2
      end).
  { unfold try_block. destruct (validate parsed) as [err p2]. simpl in *.
    subst err p2. by rewrite Hcheck. }
  unfold dispatch_fate, dispatch.
  rewrite Hst1, mcp_execute_action_other_store in Htry.
  destruct (mcp_execute_action st env) as [[result|e] st2];
    cbn [fst snd] in *.
  - destruct (status_ok result).
    + destruct (append_spec (set_idempotency st2 r) parsed' "SUCCESS"
        (latency env) (default "Completed successfully" (resp_rationale result)))
        as (x & Happ & Hent & Hx & Hidem & _).
      destruct (append sha256_hex (set_idempotency st2 r) parsed' "SUCCESS" _ _)
        as [h st3]. cbn [fst snd] in *.
      assert (Hentry : entry_of parsed "SUCCESS" x).
      { destruct Hent as (Ha & Hc & Hr & Hs). subst parsed'.
        unfold entry_of. by rewrite Ha, Hc, Hr, Hs, Hid, Hraw. }
      assert (Hled : ledger st3 = (ledger st ++ [x])%list).
      { unfold appended in Happ. by rewrite Happ, <- Hml. }
      unfold cache_result in Htry. rewrite Hidem in Htry.
      cbn [set_idempotency idempotency] in Htry.
      subst cache_up. destruct r as [r|].
      * destruct (redis_up env SetEx); [|done].
        exists x. unfold process_command. rewrite Htry.
        unfold appended. cbn [fst snd set_metrics set_idempotency ledger].
        by rewrite Hled, Hx.
      * exists x. unfold process_command. rewrite Htry.
        unfold appended. cbn [fst snd set_metrics ledger].
        by rewrite Hled, Hx.
    + by apply (caught_spec st _ parsed env _ Htry).
  - by apply (caught_spec st _ parsed env _ Htry).
Qed.

End Fates.

(** *** A concrete run *)

(** The response of the MCP server to a successful scan. *)
Definition scan_response : Response :=
  {| resp_status := Some "SUCCESS";
     resp_rationale := Some "Action completed successfully";
     resp_tool_result := Some "{domain: example.com, grade: A}" |}.

(** Redis and the MCP server both answer; [t] is the time in seconds. *)
Definition env_at (t : Z) : Env :=
  {| redis_now := t; redis_up := λ _, true; request := Returned scan_response;
     now_entry := (t * 1000000)%Z; now_fail := (t * 1000000)%Z;
     latency := 12 |}.

(** As [env_at], but the write of the cached result raises. *)
Definition env_cache_down (t : Z) : Env :=
  {| redis_now := t;
     redis_up := λ c, match c with SetEx => false | _ => true end;
     request := Returned scan_response;
     now_entry := (t * 1000000)%Z; now_fail := (t * 1000000)%Z;
     latency := 12 |}.

(** The line [SCAN_SITE domain=example.com] as parsed with identifier
    [uuid]. *)
Definition scan_command (uuid : string) : ParsedCommand :=
  {| command_type := SCAN_SITE; action_id := uuid;
     params := {[ "domain" := "example.com" ]};
     raw_text := "SCAN_SITE domain=example.com"; line_number := 1;
     issued_at := "2024-01-01T00:00:00"; severity := LOW |}.

(** The poller after the first submission of the line, at time 100, with
    the identity in place of SHA-256. *)
Definition after_first : State :=
  snd (process_command (λ s, s) (new_state true) (scan_command "uuid-1")
         (env_at 100)).

(** The claim that every call appends exactly one entry. *)
Definition one_entry_per_command (sha256_hex : string → string) : Prop :=
  ∀ st parsed env,
    ∃ x, appended st (snd (process_command sha256_hex st parsed env)) [x].

(** C7 (as amended). Every command that is not short-circuited as a
    duplicate leaves [process_command] with exactly one more ledger entry,
    for that command: with result SUCCESS when validation passes, the
    fingerprint is claimed, the dispatch returns a response whose status is
    SUCCESS or OK, and the result is cached; with result FAILED when
    validation fails, a Redis call of the idempotency check raises, the
    dispatch raises (the open breaker included) or the response has another
    status. A duplicate returns success with no entry appended and no
    request sent. The case in which only the write of the cached result
    raises is left open. *)
Theorem process_command_entries (sha256_hex : string → string)
    (st : State) (parsed : ParsedCommand) (env : Env) :
  match fate sha256_hex st parsed env with
  | Duplicate =>
      appended st (snd (process_command sha256_hex st parsed env)) [] ∧
      requests_sent (snd (process_command sha256_hex st parsed env))
      = requests_sent st ∧
      ∃ receipt,
        fst (process_command sha256_hex st parsed env) = Return true receipt
  | Succeeds =>
      ∃ x, appended st (snd (process_command sha256_hex st parsed env)) [x] ∧
           entry_of parsed "SUCCESS" x ∧
           fst (process_command sha256_hex st parsed env)
           = Return true (snd x)
  | Fails =>
      ∃ x, appended st (snd (process_command sha256_hex st parsed env)) [x] ∧
           entry_of parsed "FAILED" x ∧
           fst (process_command sha256_hex st parsed env)
           = Return false ("ERROR: " +:+ snd x)
  | CacheWriteFails => True
  end.
Proof.
  unfold fate.
  destruct (validate parsed) as [[err|] parsed'] eqn:Hv; cbn [fst].
  { apply (caught_spec sha256_hex st st parsed env
             ("Validation failed: " +:+ err)); [|done].
    unfold try_block. by rewrite Hv. }
  assert (Hvalid : fst (validate parsed) = None) by (by rewrite Hv).
  assert (Hp' : parsed' = snd (validate parsed)) by (by rewrite Hv).
  assert (Hraw : raw_text parsed' = raw_text parsed).
  { rewrite Hp'. apply validate_fields. }
  destruct (idempotency st) as [r|] eqn:Hidem.
  - destruct (redis_up env SetNx) eqn:Hset; cbn [negb].
    + unfold claimed. rewrite <- Hraw.
      destruct (redis_get r _ (redis_now env)) as [v|] eqn:Hget.
      * rewrite bool_decide_eq_true_2 by eauto.
        assert (Hcheck :
          check_and_record st (sha256_hex (raw_text parsed')) 3600 env
          = Returned (false, set_idempotency st (Some r))).
        { unfold check_and_record, redis_set_nx_ex.
          by rewrite Hidem, Hset, Hget. }
        destruct (redis_up env Get) eqn:Hgetup.
        -- unfold process_command, try_block.
           rewrite Hv, Hcheck. unfold get_cached_result.
           cbn [set_idempotency idempotency]. rewrite Hgetup.
           cbn [fst snd]. unfold appended.
           cbn [set_metrics set_idempotency ledger requests_sent].
           rewrite app_nil_r. eauto.
        -- apply (caught_spec sha256_hex st (set_idempotency st (Some r))
                    parsed env redis_error); [|done].
           unfold try_block. rewrite Hv, Hcheck. unfold get_cached_result.
           cbn [set_idempotency idempotency]. by rewrite Hgetup.
      * rewrite bool_decide_eq_false_2 by (by intros [? ?]).
        assert (Hcheck :
          check_and_record st (sha256_hex (raw_text parsed')) 3600 env
          = Returned (true, set_idempotency st
              (Some (<["idempotent:" +:+ sha256_hex (raw_text parsed') :=
                         (Marker, (redis_now env + 3600)%Z)]> r)))).
        { unfold check_and_record, redis_set_nx_ex.
          by rewrite Hidem, Hset, Hget. }
        pose proof (dispatch_fate_spec sha256_hex st _ parsed parsed' env
                      (redis_up env SetEx) (Some _) Hvalid Hp' Hcheck
                      eq_refl eq_refl) as Hd.
        by destruct (dispatch_fate st env (redis_up env SetEx)).
    + apply (caught_spec sha256_hex st st parsed env redis_error); [|done].
      unfold try_block. rewrite Hv. unfold check_and_record.
      by rewrite Hidem, Hset.
  - assert (Hcheck :
      check_and_record st (sha256_hex (raw_text parsed')) 3600 env
      = Returned (true, st)).
    { unfold check_and_record. by rewrite Hidem. }
    assert (Hst : st = set_idempotency st None).
    { destruct st. simpl in Hidem. by subst. }
    pose proof (dispatch_fate_spec sha256_hex st st parsed parsed' env
                  true None Hvalid Hp' Hcheck Hst eq_refl) as Hd.
    by destruct (dispatch_fate st env true).
Qed.

(** *** Resubmission within the TTL *)

Section Resubmission.

Variable sha256_hex : string → string.

Lemma caught_state (st st1 : State) (parsed : ParsedCommand) (env : Env)
    (msg : string) :
  try_block sha256_hex st parsed env = Caught msg st1 →
  requests_sent (snd (process_command sha256_hex st parsed env))
  = requests_sent st1 ∧
  idempotency (snd (process_command sha256_hex st parsed env))
  = idempotency st1.
Proof.
  intros Htry. unfold process_command. rewrite Htry.
  destruct (append_spec sha256_hex st1 parsed "FAILED" (latency env) msg)
    as (x & _ & _ & _ & Hidem & Hsent).
  destruct (append sha256_hex st1 parsed "FAILED" (latency env) msg)
    as [h st2]. cbn [fst snd] in *. by rewrite <- Hidem, <- Hsent.
Qed.

Lemma mcp_execute_action_sent (st : State) (env : Env) :
  requests_sent (snd (mcp_execute_action st env)) ≤ S (requests_sent st).
Proof.
  unfold mcp_execute_action, Breaker.call.
  destruct (Breaker.gate _ _); cbn [snd requests_sent]; lia.
Qed.

(** A command whose fingerprint is claimed is never dispatched. *)
Lemma claimed_not_dispatched (st : State) (parsed : ParsedCommand)
    (env : Env) (r : Redis) :
  idempotency st = Some r → claimed sha256_hex r parsed env = true →
  requests_sent (snd (process_command sha256_hex st parsed env))
  = requests_sent st.
Proof.
  intros Hidem Hclaimed.
  apply bool_decide_eq_true in Hclaimed as [v Hget].
  pose proof (validate_fields parsed) as [_ Hraw].
  destruct (validate parsed) as [[err|] parsed'] eqn:Hv; cbn [snd] in Hraw.
  { apply (caught_state st st parsed env ("Validation failed: " +:+ err)).
    unfold try_block. by rewrite Hv. }
  rewrite <- Hraw in Hget.
  destruct (redis_up env SetNx) eqn:Hset.
  - assert (Hcheck :
      check_and_record st (sha256_hex (raw_text parsed')) 3600 env
      = Returned (false, set_idempotency st (Some r))).
    { unfold check_and_record, redis_set_nx_ex.
      by rewrite Hidem, Hset, Hget. }
    destruct (redis_up env Get) eqn:Hgetup.
    + unfold process_command, try_block. rewrite Hv, Hcheck.
      unfold get_cached_result. cbn [set_idempotency idempotency].
      by rewrite Hgetup.
    + apply (caught_state st (set_idempotency st (Some r)) parsed env
               redis_error).
      unfold try_block. rewrite Hv, Hcheck. unfold get_cached_result.
      cbn [set_idempotency idempotency]. by rewrite Hgetup.
  - apply (caught_state st st parsed env redis_error).
    unfold try_block. rewrite Hv. unfold check_and_record.
    by rewrite Hidem, Hset.
Qed.

(** A valid command that claims its fingerprint at time [redis_now env]
    leaves the claim in the store with a life of 3600 seconds, and sends at
    most one request. *)
Lemma fresh_claim_recorded (st : State) (parsed : ParsedCommand)
    (env : Env) (r : Redis) :
  idempotency st = Some r → fst (validate parsed) = None →
  redis_up env SetNx = true → claimed sha256_hex r parsed env = false →
  ∃ r',
    idempotency (snd (process_command sha256_hex st parsed env)) = Some r' ∧
    r' !! ("idempotent:" +:+ sha256_hex (raw_text parsed))
    = Some (Marker, (redis_now env + 3600)%Z) ∧
    requests_sent (snd (process_command sha256_hex st parsed env))
    ≤ S (requests_sent st).
Proof.
  intros Hidem Hvalid Hset Hfresh.
  apply bool_decide_eq_false in Hfresh.
  pose proof (validate_fields parsed) as [_ Hraw].
  destruct (validate parsed) as [err parsed'] eqn:Hv.
  cbn [fst snd] in *. subst err. rewrite <- Hraw in *.
  set (key := "idempotent:" +:+ sha256_hex (raw_text parsed')) in *.
  set (r1 := <[key := (Marker, (redis_now env + 3600)%Z)]> r).
  assert (Hget : redis_get r key (redis_now env) = None).
  { destruct (redis_get r key (redis_now env)) eqn:E; [|done].
    exfalso. apply Hfresh. by eexists. }
  assert (Hcheck :
    check_and_record st (sha256_hex (raw_text parsed')) 3600 env
    = Returned (true, set_idempotency st (Some r1))).
  { unfold check_and_record, redis_set_nx_ex. fold key.
    by rewrite Hidem, Hset, Hget. }
  assert (Hr1 : r1 !! key = Some (Marker, (redis_now env + 3600)%Z))
    by apply lookup_insert_eq.
  pose proof (mcp_execute_action_sent st env) as Hsent.
  pose proof (mcp_execute_action_ledger st env) as [_ Hmi].
  assert (Htry : try_block sha256_hex st parsed env
    = let '(rr, st2) :=
        mcp_execute_action (set_idempotency st (Some r1)) env in
      match rr with
      | Raised e => Caught e st2
      | Returned result =>
          if status_ok result then
            let '(receipt_hash, st3) :=
              append sha256_hex st2 parsed' "SUCCESS" (latency env)
                (default "Completed successfully" (resp_rationale result)) in
            match cache_result st3 (sha256_hex (raw_text parsed'))
                    receipt_hash result 3600 env with
            | Raised e => Caught e st3
            | Returned st4 =>
                Finished (Return true receipt_hash)
                  (set_metrics st4
                     (record_command (metrics st4) true (latency env) false))
            end
          else
            Caught ("MCP execution failed: "
                    +:+ default "No rationale" (resp_rationale result)) st2
      end).
  { unfold try_block. by rewrite Hv, Hcheck. }
  rewrite mcp_execute_action_other_store in Htry.
  destruct (mcp_execute_action st env) as [[result|e] st2];
    cbn [fst snd] in *.
  - destruct (status_ok result).
    + destruct (append_spec sha256_hex (set_idempotency st2 (Some r1)) parsed'
        "SUCCESS" (latency env)
        (default "Completed successfully" (resp_rationale result)))
        as (x & _ & _ & _ & Hidem3 & Hsent3).
      destruct (append sha256_hex (set_idempotency st2 (Some r1)) parsed'
                  "SUCCESS" _ _) as [h st3]. cbn [fst snd] in *.
      cbn [set_idempotency idempotency requests_sent] in Hidem3, Hsent3.
      unfold cache_result in Htry. rewrite Hidem3 in Htry.
      destruct (redis_up env SetEx).
      * unfold process_command. rewrite Htry.
        cbn [snd set_metrics set_idempotency idempotency requests_sent].
        eexists. split; [done|]. split; [|lia].
        unfold redis_setex. rewrite lookup_insert_ne; [done|].
        unfold key. by intros [=].
      * destruct (caught_state st st3 parsed env redis_error Htry)
          as [-> ->].
        exists r1. split; [done|]. split; [done|lia].
    + destruct (caught_state st _ parsed env _ Htry) as [-> ->].
      exists r1. cbn [set_idempotency idempotency requests_sent].
      split; [done|]. split; [done|lia].
  - destruct (caught_state st _ parsed env _ Htry) as [-> ->].
    exists r1. cbn [set_idempotency idempotency requests_sent].
    split; [done|]. split; [done|lia].
Qed.

(** At most once: when a valid command has claimed its fingerprint, a
    command with the same raw text processed next, less than 3600 seconds
    later on the Redis clock, sends no request; the two submissions
    together send at most one. *)
Lemma resubmission_not_dispatched (st : State)
    (parsed parsed2 : ParsedCommand) (env env2 : Env) (r : Redis) :
  idempotency st = Some r → fst (validate parsed) = None →
  redis_up env SetNx = true → claimed sha256_hex r parsed env = false →
  raw_text parsed2 = raw_text parsed →
  (redis_now env2 < redis_now env + 3600)%Z →
  requests_sent
    (snd (process_command sha256_hex
            (snd (process_command sha256_hex st parsed env)) parsed2 env2))
  = requests_sent (snd (process_command sha256_hex st parsed env)) ∧
  requests_sent (snd (process_command sha256_hex st parsed env))
  ≤ S (requests_sent st).
Proof.
  intros Hidem Hvalid Hset Hfresh Hraw Hlt.
  destruct (fresh_claim_recorded st parsed env r Hidem Hvalid Hset Hfresh)
    as (r' & Hidem' & Hkey & Hsent).
  split; [|done].
  apply (claimed_not_dispatched _ parsed2 env2 r' Hidem').
  apply bool_decide_eq_true. unfold redis_get. rewrite Hraw, Hkey.
  destruct (Z.ltb_spec (redis_now env2) (redis_now env + 3600)); [|lia].
  by eexists.
Qed.

End Resubmission.

(** C7 (as stated) fails: the second submission of a line, 100 seconds
    after the first, is a duplicate and returns with the ledger as it
    was. *)
Lemma duplicate_appends_no_entry : ¬ one_entry_per_command (λ s, s).
Proof.
  intros Hone.
  destruct (Hone after_first (scan_command "uuid-2") (env_at 200)) as [x Hx].
  unfold appended in Hx. apply (f_equal length) in Hx.
  rewrite length_app in Hx. vm_compute in Hx. discriminate.
Qed.

(** When only the write of the cached result raises, the SUCCESS entry is
    already appended and the handler appends a FAILED entry after it. *)
Lemma cache_failure_two_entries :
  map (λ x, Ledger.result (fst x))
    (ledger (snd (process_command (λ s, s) (new_state true)
                    (scan_command "uuid-1") (env_cache_down 100))))
  = ["SUCCESS"; "FAILED"].
Proof. by vm_compute. Qed.

End Poller.

(** ** Duplicate submissions *)

Module Duplicates.

Import Breaker (Outcome, Returned, Raised).

(** The payload of the duplicate-action test of the repository. *)
Definition dup_params : gmap string string :=
  {[ "domain" := "duplicate-test.com" ]}.

(** In the poller, a line submitted again while its fingerprint is claimed
    is not dispatched: the call returns success with the receipt hash cached
    by the first submission, a pair and not an action result. *)
Lemma poller_duplicate_returns_receipt :
  Poller.requests_sent Poller.after_first = 1 ∧
  ∃ receipt,
    map snd (Poller.ledger Poller.after_first) = [receipt] ∧
    fst (Poller.process_command (λ s, s) Poller.after_first
           (Poller.scan_command "uuid-2") (Poller.env_at 200))
    = Poller.Return true receipt ∧
    Poller.requests_sent
      (snd (Poller.process_command (λ s, s) Poller.after_first
              (Poller.scan_command "uuid-2") (Poller.env_at 200))) = 1.
Proof. split; [by vm_compute|]. eexists. by vm_compute. Qed.

(** C1. No member of the orchestrator's [ActionResult] has the value
    SUCCESS_CACHED, and the orchestrator keeps nothing between calls: the
    payload of the repository's duplicate-action test, sent twice under one
    action id, runs the tool both times and is answered SUCCESS both
    times. *)
Theorem duplicate_action_executes_again :
  (∀ a, Orchestrator.ActionResult_value a ≠ "SUCCESS_CACHED") ∧
  Orchestrator.status
    (fst (Orchestrator.execute_action Orchestrator.bare_orchestrator
            "dup-1" "SCAN_SITE" dup_params Orchestrator.LOW "t1"))
  = Orchestrator.SUCCESS ∧
  Orchestrator.status
    (fst (Orchestrator.execute_action Orchestrator.bare_orchestrator
            "dup-1" "SCAN_SITE" dup_params Orchestrator.LOW "t2"))
  = Orchestrator.SUCCESS ∧
  (snd (Orchestrator.execute_action Orchestrator.bare_orchestrator
          "dup-1" "SCAN_SITE" dup_params Orchestrator.LOW "t1")
   ++ snd (Orchestrator.execute_action Orchestrator.bare_orchestrator
             "dup-1" "SCAN_SITE" dup_params Orchestrator.LOW "t2"))%list
  = [Orchestrator.CallTool "SCAN_SITE" dup_params;
     Orchestrator.CallTool "SCAN_SITE" dup_params].
Proof.
  split; [by intros []|]. by vm_compute.
Qed.

End Duplicates.

(** ** Further facts about the ledger *)

Module LedgerFacts.

Import Ledger.

Lemma append_all_app (sha256_hex : string → string) (self : NotionClient)
    (es es' : list LedgerEntry) :
  append_all sha256_hex self (es ++ es')
  = ((fst (append_all sha256_hex self es)
      ++ fst (append_all sha256_hex
                (snd (append_all sha256_hex self es)) es'))%list,
     snd (append_all sha256_hex (snd (append_all sha256_hex self es)) es')).
Proof.
  revert self. induction es as [|e es IH]; intros self.
  - simpl. by destruct (append_all sha256_hex self es').
  - cbn [append_all app]. destruct (append_entry sha256_hex self e) as [h s1].
    rewrite IH. destruct (append_all sha256_hex s1 es) as [hs s2].
    cbn [fst snd]. by destruct (append_all sha256_hex s2 es').
Qed.

Lemma append_all_last (sha256_hex : string → string) (self : NotionClient)
    (es : list LedgerEntry) :
  last_hash (snd (append_all sha256_hex self es))
  = match last (fst (append_all sha256_hex self es)) with
    | Some h => Some h
    | None => last_hash self
    end.
Proof.
  revert self. induction es as [|e es IH]; intros self; [done|].
  cbn [append_all]. destruct (append_entry sha256_hex self e) as [h s1] eqn:He.
  specialize (IH s1). destruct (append_all sha256_hex s1 es) as [hs s2].
  cbn [fst snd] in *. rewrite IH.
  destruct hs as [|h' hs].
  - cbn. unfold append_entry, append_ledger in He. by injection He as <- <-.
  - change (last (h :: h' :: hs)) with (last (h' :: hs)).
    destruct (last (h' :: hs)) eqn:E; [done|].
    by apply last_None in E.
Qed.

Lemma last_hash_of_run (sha256_hex : string → string)
    (es : list LedgerEntry) :
  last_hash (snd (append_all sha256_hex new_client es))
  = last (stored_hashes sha256_hex es).
Proof.
  unfold stored_hashes. rewrite append_all_last. by destruct (last _).
Qed.

(** X1. The ledger is append-only: the hashes of a run of appends on a
    fresh client followed by further appends start with exactly the hashes
    of the first run, the further hashes are those of appending to the
    client the first run left, and that client remembers the last hash it
    returned. *)
Theorem appends_extend_chain (sha256_hex : string → string)
    (es es' : list LedgerEntry) :
  stored_hashes sha256_hex (es ++ es')
  = (stored_hashes sha256_hex es
     ++ fst (append_all sha256_hex
               (snd (append_all sha256_hex new_client es)) es'))%list ∧
  take (length es) (stored_hashes sha256_hex (es ++ es'))
  = stored_hashes sha256_hex es ∧
  last_hash (snd (append_all sha256_hex new_client es))
  = last (stored_hashes sha256_hex es).
Proof.
  unfold stored_hashes. rewrite append_all_app. cbn [fst].
  split; [done|]. split.
  - rewrite take_app_length'; [done|].
    rewrite append_all_from. by rewrite recompute_length.
  - apply last_hash_of_run.
Qed.

End LedgerFacts.

(** ** Further facts about the circuit breaker *)

Module BreakerFacts.

Import Breaker.

(** A wrapped function that returns whatever the world. *)
Definition succeeds {W A} (func : W → Outcome A * W) : Prop :=
  ∀ w, ∃ a w', func w = (Returned a, w').

(** Calls tagged with whether the wrapped function fails. *)
Definition tagged_ok {W A} (c : bool * (W → Outcome A * W) * Z * Z) : Prop :=
  match c with
  | (true, func, _, _) => fails func
  | (false, func, _, _) => succeeds func
  end.

Definition untag {W A} (c : bool * (W → Outcome A * W) * Z * Z)
  : (W → Outcome A * W) * Z * Z :=
  match c with (_, func, t1, t2) => (func, t1, t2) end.

Definition failures {W A} (cs : list (bool * (W → Outcome A * W) * Z * Z))
  : nat :=
  length (filter (λ c, fst (fst (fst c)) = true) cs).

Lemma run_closed_counts {W A}
    (cs : list (bool * (W → Outcome A * W) * Z * Z)) :
  ∀ (self : CircuitBreaker) (w : W),
    state self = CLOSED → Forall tagged_ok cs →
    (failure_count self + Z.of_nat (failures cs) < threshold self)%Z →
    state (fst (run self (map untag cs) w)) = CLOSED ∧
    failure_count (fst (run self (map untag cs) w))
    = (failure_count self + Z.of_nat (failures cs))%Z ∧
    threshold (fst (run self (map untag cs) w)) = threshold self.
Proof.
  induction cs as [|[[[b func] t1] t2] cs IH]; intros self w Hs HF Hlt.
  - simpl. unfold failures. simpl. repeat split; [done|lia].
  - inversion HF as [|? ? Hc HF']; subst. cbn [map untag run].
    unfold call, gate. rewrite Hs.
    unfold failures in *. rewrite filter_cons in Hlt |- *.
    destruct b; simpl in Hc.
    + destruct (Hc w) as (msg & w' & ->).
      rewrite decide_True in Hlt |- * by done.
      cbn [length] in Hlt |- *. cbn [settle failure_count threshold].
      destruct (Z.leb_spec (threshold self) (failure_count self + 1));
        [lia|].
      match goal with
      | |- context [run ?s _ w'] =>
          destruct (IH s w') as (H1 & H2 & H3); [done|done|simpl; lia|]
      end.
      rewrite H1, H2, H3. simpl. repeat split; lia.
    + destruct (Hc w) as (a & w' & ->).
      rewrite decide_False in Hlt |- * by done.
      cbn [settle]. rewrite Hs. by apply IH.
Qed.

(** X2. Failures need not be consecutive: a success on a CLOSED breaker
    leaves the failure counter as it is. From a fresh breaker with a
    positive threshold, after calls that each return or raise and of which
    fewer than [threshold] raise, the breaker is CLOSED with a counter equal
    to the number of failures so far; one more failure that brings the
    number to [threshold] opens it, however many successes came between. *)
Theorem failures_accumulate_across_successes (nm : string) (th tmo : Z)
    (W A : Type) (cs : list (bool * (W → Outcome A * W) * Z * Z))
    (func : W → Outcome A * W) (t1 t2 : Z) (w : W) :
  Forall tagged_ok cs →
  (Z.of_nat (failures cs) < th)%Z →
  (state (fst (run (new nm th tmo) (map untag cs) w)) = CLOSED ∧
   failure_count (fst (run (new nm th tmo) (map untag cs) w))
   = Z.of_nat (failures cs)) ∧
  (fails func → (Z.of_nat (failures cs) + 1 = th)%Z →
   state (fst (run (new nm th tmo) (map untag (cs ++ [(true, func, t1, t2)]))
                 w)) = OPEN).
Proof.
  intros HF Hlt.
  destruct (run_closed_counts cs (new nm th tmo) w) as (Hs & Hc & Ht);
    [done|done|simpl; lia|].
  simpl in Hc, Ht. split; [split; [done|lia]|].
  intros Hfail Hlast. rewrite map_app. cbn [map untag].
  assert (Hrun : ∀ (l1 l2 : list ((W → Outcome A * W) * Z * Z)) s w0,
    run s (l1 ++ l2) w0 = run (fst (run s l1 w0)) l2 (snd (run s l1 w0))).
  { induction l1 as [|[[f a] b] l1 IH]; intros l2 s w0; [done|].
    cbn [app run]. destruct (call s f a b w0) as [[? s1] w1]. apply IH. }
  rewrite Hrun.
  destruct (run (new nm th tmo) (map untag cs) w) as [b1 w1].
  cbn [fst snd] in *. cbn [run]. unfold call, gate. rewrite Hs.
  destruct (Hfail w1) as (msg & w' & ->). cbn [settle failure_count threshold].
  rewrite Ht, Hc.
  destruct (Z.leb_spec th (0 + Z.of_nat (failures cs) + 1)); [done|lia].
Qed.

Definition flaky_calls : list (bool * (nat → Outcome unit * nat) * Z * Z) :=
  [(true, down, 0%Z, 1%Z); (false, up, 2%Z, 3%Z); (false, up, 4%Z, 5%Z)].

Lemma failures_accumulate_across_successes_witness :
  (state (fst (run (new "mcp_api" 2 60) (map untag flaky_calls) 0)) = CLOSED ∧
   failure_count (fst (run (new "mcp_api" 2 60) (map untag flaky_calls) 0))
   = 1%Z) ∧
  (fails down → (Z.of_nat (failures flaky_calls) + 1 = 2)%Z →
   state (fst (run (new "mcp_api" 2 60)
                 (map untag (flaky_calls ++ [(true, down, 6%Z, 7%Z)])) 0))
   = OPEN).
Proof.
  apply (failures_accumulate_across_successes "mcp_api" 2 60 nat unit
           flaky_calls down 6 7 0).
  - repeat constructor; simpl; try apply down_fails;
      intros w; by exists (), (S w).
  - vm_compute. reflexivity.
Defined.

(** X3. A breaker with a positive threshold, whatever calls it has been
    through, is never left HALF_OPEN; when CLOSED its counter is below the
    threshold and not negative; when OPEN its counter has reached the
    threshold and a failure time is recorded. *)
Theorem breaker_state_invariant (nm : string) (th tmo : Z)
    (self : CircuitBreaker) :
  (0 < th)%Z → reachable nm th tmo self →
  state self ≠ HALF_OPEN ∧
  (state self = CLOSED → (0 ≤ failure_count self < th)%Z) ∧
  (state self = OPEN →
   (th ≤ failure_count self)%Z ∧ is_Some (last_failure self)) ∧
  threshold self = th ∧ timeout self = tmo ∧ name self = nm.
Proof.
  intros Hth Hreach.
  induction Hreach as [|W A self func t1 t2 w Hreach IH].
  - simpl. repeat split; try done; lia.
  - destruct IH as (Hh & Hc & Ho & Ht & Hto & Hn).
    unfold call, gate, breaker_after.
    destruct self as [n c t tout lf s]; simpl in *; subst.
    destruct s; [| |done].
    + specialize (Hc eq_refl).
      destruct (func w) as [[a|e] w']; simpl; [repeat split; try done; lia|].
      destruct (Z.leb_spec th (c + 1)); simpl;
        repeat split; try done; try lia; eauto.
    + destruct (Ho eq_refl) as [Hge [lf' ->]].
      destruct (_ <? _)%Z; simpl; [|repeat split; try done; eauto].
      destruct (func w) as [[a|e] w']; simpl; [repeat split; try done; lia|].
      destruct (Z.leb_spec th (c + 1)); [|lia].
      simpl. repeat split; try done; try lia; eauto.
Qed.

Lemma breaker_state_invariant_witness :
  state opened ≠ HALF_OPEN ∧
  (state opened = CLOSED → (0 ≤ failure_count opened < 2)%Z) ∧
  (state opened = OPEN →
   (2 ≤ failure_count opened)%Z ∧ is_Some (last_failure opened)) ∧
  threshold opened = 2%Z ∧ timeout opened = 60%Z ∧ name opened = "mcp_api".
Proof.
  apply (breaker_state_invariant "mcp_api" 2 60 opened).
  - lia.
  - exact (reach_call "mcp_api" 2 60 nat unit _ down 2000000 3000000 1
             (reach_call "mcp_api" 2 60 nat unit _ down 0 1000000 0
                (reach_new "mcp_api" 2 60))).
Defined.

End BreakerFacts.

(** ** Further facts about [CommandValidator] *)

Module ValidatorFacts.

Import Parser Poller.

Lemma find_None_iff {A} (f : A → bool) (l : list A) :
  find f l = None ↔ ∀ x, x ∈ l → f x = false.
Proof.
  induction l as [|a l IH]; simpl.
  - split; [by intros _ x ?%elem_of_nil|done].
  - destruct (f a) eqn:Hfa.
    + split; [done|]. intros H. specialize (H a (list_elem_of_here _ _)).
      congruence.
    + rewrite IH. split.
      * intros H x [->|Hx]%elem_of_cons; [done|by apply H].
      * intros H x Hx. apply H. by apply list_elem_of_further.
Qed.

(** X4. [validate] accepts a command exactly when every required
    parameter of its type is present and every parameter value passes
    [_is_safe_value]. On acceptance the command comes back with the severity
    of its type's schema, whatever severity it carried, and is otherwise
    unchanged; on rejection it comes back unchanged. *)
Theorem validate_accepts_iff (parsed : ParsedCommand) :
  (fst (validate parsed) = None ↔
   (∀ req, req ∈ required (COMMAND_SCHEMAS (command_type parsed)) →
      is_Some (params parsed !! req)) ∧
   (∀ k v, params parsed !! k = Some v → _is_safe_value v = true)) ∧
  (fst (validate parsed) = None →
   snd (validate parsed)
   = set_severity parsed
       (schema_severity (COMMAND_SCHEMAS (command_type parsed)))) ∧
  (fst (validate parsed) ≠ None → snd (validate parsed) = parsed).
Proof.
  unfold validate.
  destruct (find _ (required _)) as [req|] eqn:Hreq.
  - cbn [fst snd]. split; [|done].
    split; [done|]. intros [Hall _].
    apply find_some in Hreq as [Hin Hmiss].
    apply bool_decide_eq_true in Hmiss.
    apply list_elem_of_In in Hin. destruct (Hall req Hin) as [v Hv].
    congruence.
  - rewrite find_None_iff in Hreq.
    destruct (find _ (map_to_list _)) as [[k v]|] eqn:Hval.
    + cbn [fst snd]. split; [|done].
      split; [done|]. intros [_ Hsafe].
      apply find_some in Hval as [Hin Hbad]. simpl in Hbad.
      apply list_elem_of_In, elem_of_map_to_list in Hin.
      rewrite (Hsafe k v Hin) in Hbad. done.
    + cbn [fst snd]. split; [|done]. split; [|done]. intros _.
      rewrite find_None_iff in Hval. split.
      * intros req Hin. specialize (Hreq req Hin).
        apply bool_decide_eq_false in Hreq.
        by destruct (params parsed !! req); [eexists|].
      * intros k v Hkv. apply elem_of_map_to_list in Hkv.
        specialize (Hval (k, v) Hkv). simpl in Hval.
        by apply negb_false_iff in Hval.
Qed.

(** *** The denylist *)

Lemma search_app (p : string → bool) (a b : string) :
  p b = true → search p (a +:+ b) = true.
Proof.
  intros Hb. induction a as [|c a IH].
  - rewrite Str.app_nil_l. destruct b; simpl; by rewrite Hb.
  - rewrite Str.app_cons. simpl. rewrite IH. apply orb_true_r.
Qed.

Lemma strip_prefix_ci_app (pat t b : string) :
  lower t = pat → strip_prefix_ci pat (t +:+ b) = Some b.
Proof.
  revert pat. induction t as [|c t IH]; intros pat <-.
  - rewrite Str.app_nil_l. by destruct b.
  - rewrite Str.app_cons. simpl.
    rewrite Ascii.eqb_refl. by apply IH.
Qed.

Lemma is_safe_value_true (v : string) :
  _is_safe_value v = true ↔
  search shell_meta v = false ∧ search script_tag v = false ∧
  search union_select v = false ∧ search dot_dot_slash v = false ∧
  String.length v ≤ 1000.
Proof.
  unfold _is_safe_value.
  destruct (search shell_meta v), (search script_tag v),
    (search union_select v), (search dot_dot_slash v);
    rewrite ?Nat.leb_le;
    (split; [intros Hs|intros (H1 & H2 & H3 & H4 & H5)]);
    try discriminate; try done.
Qed.

Definition is_shell_meta (c : ascii) : bool :=
  (code c =? 59) || (code c =? 124) || (code c =? 38) || (code c =? 36)
  || (code c =? 96).

(** X5. [_is_safe_value] rejects a value that, anywhere in it, has a
    semicolon, bar, ampersand, dollar or back quote; the text [../]; the
    text [<script] in any letter case; the word [union], white space and the
    word [select] in any letter case; and any value longer than 1000
    characters. *)
Theorem unsafe_values_rejected (a b : string) :
  (∀ c, is_shell_meta c = true → _is_safe_value (a +:+ String c b) = false) ∧
  _is_safe_value (a +:+ "../" +:+ b) = false ∧
  (∀ tag, lower tag = "<script" → _is_safe_value (a +:+ tag +:+ b) = false) ∧
  (∀ u sp s, lower u = "union" → lower s = "select" →
     is_empty sp = false → all_chars is_space sp = true →
     _is_safe_value (a +:+ u +:+ sp +:+ s +:+ b) = false) ∧
  (∀ v, 1000 < String.length v → _is_safe_value v = false).
Proof.
  assert (Hfalse : ∀ v,
    search shell_meta v = true ∨ search script_tag v = true ∨
    search union_select v = true ∨ search dot_dot_slash v = true ∨
    1000 < String.length v → _is_safe_value v = false).
  { intros v H. destruct (_is_safe_value v) eqn:E; [|done].
    apply is_safe_value_true in E as (? & ? & ? & ? & ?).
    destruct H as [?|[?|[?|[?|?]]]]; try congruence. lia. }
  repeat split.
  - intros c Hc. apply Hfalse. left. by apply search_app.
  - apply Hfalse. do 3 right. left. apply search_app.
    unfold dot_dot_slash, has_prefix_ci.
    by rewrite (strip_prefix_ci_app "../" "../" b).
  - intros tag Htag. apply Hfalse. right. left. apply search_app.
    unfold script_tag, has_prefix_ci.
    by rewrite (strip_prefix_ci_app "<script" tag b).
  - intros u sp s Hu Hs Hne Hsp. apply Hfalse. do 2 right. left.
    apply search_app. unfold union_select.
    rewrite (strip_prefix_ci_app "union" u _ Hu).
    destruct sp as [|c sp]; [done|]. rewrite Str.app_cons.
    simpl in Hsp. apply andb_prop in Hsp as [Hc Hsp]. rewrite Hc. simpl.
    assert (Hl : lstrip (sp +:+ s +:+ b) = s +:+ b).
    { clear Hne Hc. induction sp as [|d sp IH].
      - rewrite Str.app_nil_l. destruct s as [|d s]; [done|].
        rewrite Str.app_cons. apply lstrip_nonspace.
        simpl in Hs. injection Hs as Hd _.
        destruct d as [[] [] [] [] [] [] [] []]; by vm_compute in Hd |- *.
      - rewrite Str.app_cons. simpl in *.
        apply andb_prop in Hsp as [-> Hsp]. by apply IH. }
    rewrite Hl. unfold has_prefix_ci.
    by rewrite (strip_prefix_ci_app "select" s b).
  - intros v Hv. apply Hfalse. by do 4 right.
Qed.

Lemma unsafe_values_rejected_witness :
  _is_safe_value ("x" +:+ "<ScRiPt" +:+ ">alert(1)") = false.
Proof.
  apply (proj1 (proj2 (proj2 (unsafe_values_rejected "x" ">alert(1)")))
           "<ScRiPt").
  reflexivity.
Defined.

(** Letters and digits of ASCII, and the characters of a host name or
    identifier. *)
Definition tame (c : ascii) : bool :=
  between 48 57 c || between 65 90 c || between 97 122 c
  || (code c =? 45) || (code c =? 46) || (code c =? 95) || (code c =? 58)
  || (code c =? 64).

Lemma tame_facts (c : ascii) :
  tame c = true →
  is_shell_meta c = false ∧ is_space c = false ∧
  Ascii.eqb "<" (lower_char c) = false ∧
  Ascii.eqb "/" (lower_char c) = false.
Proof. destruct c as [[] [] [] [] [] [] [] []]; by vm_compute. Qed.

Lemma search_false (p : string → bool) (v : string) :
  (∀ s, all_chars tame s = true → p s = false) →
  all_chars tame v = true → search p v = false.
Proof.
  intros Hp. induction v as [|c v IH]; intros Hv.
  - simpl. rewrite (Hp "" Hv). done.
  - simpl. rewrite (Hp _ Hv). simpl in Hv.
    apply andb_prop in Hv as [_ Hv]. by apply IH.
Qed.

Lemma strip_prefix_ci_tame (pat s r : string) :
  strip_prefix_ci pat s = Some r → all_chars tame s = true →
  all_chars tame r = true.
Proof.
  revert s. induction pat as [|p pat IH]; intros s.
  - destruct s; simpl; by intros [= <-].
  - destruct s as [|c s]; simpl; [done|].
    destruct (Ascii.eqb p (lower_char c)); [|done].
    intros Hr [_ Hs]%andb_prop. by apply (IH s).
Qed.

(** X6. A value of at most 1000 characters made of ASCII letters, digits
    and the characters [- . _ : @] passes [_is_safe_value]. *)
Theorem tame_values_accepted (v : string) :
  all_chars tame v = true → String.length v ≤ 1000 →
  _is_safe_value v = true.
Proof.
  intros Hv Hlen. apply is_safe_value_true.
  repeat split; [| | | |done]; apply search_false; try done; intros s Hs.
  - destruct s as [|c s]; [done|]. simpl in Hs.
    apply andb_prop in Hs as [Hc _]. by apply tame_facts in Hc as (? & _).
  - destruct s as [|c s]; [done|]. simpl in Hs.
    apply andb_prop in Hs as [Hc _].
    apply tame_facts in Hc as (_ & _ & Hc & _).
    unfold script_tag, has_prefix_ci. cbn [strip_prefix_ci]. by rewrite Hc.
  - unfold union_select.
    destruct (strip_prefix_ci "union" s) as [[|c r]|] eqn:E; try done.
    apply (strip_prefix_ci_tame _ _ _ E) in Hs. simpl in Hs.
    apply andb_prop in Hs as [Hc _].
    apply tame_facts in Hc as (_ & -> & _). done.
  - unfold dot_dot_slash, has_prefix_ci.
    destruct (strip_prefix_ci "../" s) eqn:E; [|done]. exfalso.
    destruct s as [|c1 [|c2 [|c3 s]]]; cbn [strip_prefix_ci] in E;
      repeat match type of E with
             | (if ?b then _ else _) = _ => destruct b eqn:?; [|done]
             end; try done.
    simpl in Hs. apply andb_prop in Hs as [_ [_ [Hc _]%andb_prop]%andb_prop].
    apply tame_facts in Hc as (_ & _ & _ & Hc). congruence.
Qed.

Lemma tame_values_accepted_witness :
  _is_safe_value "sub-domain.example.com" = true.
Proof.
  apply (tame_values_accepted "sub-domain.example.com").
  - reflexivity.
  - vm_compute. lia.
Defined.

End ValidatorFacts.

(** ** Further facts about [IdempotencyStore] *)

Module StoreFacts.

Import Breaker (Outcome, Returned, Raised).
Import Poller.

(** An environment in which Redis answers every call. *)
Definition redis_answers (env : Env) : Prop := ∀ c, redis_up env c = true.

Lemma result_key_not_marker_key (a b : string) :
  "result:" +:+ a ≠ "idempotent:" +:+ b.
Proof. by intros [=]. Qed.





End StoreFacts.

(** ** Further facts about [process_command] *)

Module PollerFacts.

Import Parser.
Import Breaker (Outcome, Returned, Raised).
Import Poller StoreFacts.

Section WithHash.

Variable sha256_hex : string → string.

(** The [try] block once the fingerprint has been claimed. *)
Lemma try_block_claimed (st st1 : State) (parsed parsed' : ParsedCommand)
    (env : Env) :
  validate parsed = (None, parsed') →
  check_and_record st (sha256_hex (raw_text parsed')) 3600 env
  = Returned (true, st1) →
  try_block sha256_hex st parsed env
  = let '(rr, st2) := mcp_execute_action st1 env in
    match rr with
    | Raised e => Caught e st2
    | Returned result =>
        if status_ok result then
          let '(receipt_hash, st3) :=
            append sha256_hex st2 parsed' "SUCCESS" (latency env)
              (default "Completed successfully" (resp_rationale result)) in
          match cache_result st3 (sha256_hex (raw_text parsed'))
                  receipt_hash result 3600 env with
          | Raised e => Caught e st3
          | Returned st4 =>
              Finished (Return true receipt_hash)
                (set_metrics st4
                   (record_command (metrics st4) true (latency env) false))
          end
        else
          Caught ("MCP execution failed: "
                  +:+ default "No rationale" (resp_rationale result)) st2
    end.
Proof. intros Hv Hcheck. unfold try_block. by rewrite Hv, Hcheck. Qed.

(** What the handler leaves, in full. *)
Lemma caught_result (st st1 : State) (parsed : ParsedCommand) (env : Env)
    (msg : string) :
  try_block sha256_hex st parsed env = Caught msg st1 →
  process_command sha256_hex st parsed env
  = (Return false
       ("ERROR: " +:+ fst (append sha256_hex st1 parsed "FAILED" (latency env)
                             msg)),
     set_metrics
       (snd (append sha256_hex st1 parsed "FAILED" (latency env) msg))
       (record_command (metrics st1) false (latency env) false)).
Proof.
  intros Htry. unfold process_command. rewrite Htry.
  unfold append. by destruct (Ledger.append_entry _ _ _).
Qed.

End WithHash.

(** X9. A command that fails validation is not dispatched and does not
    claim its fingerprint: [process_command] answers False with an ERROR
    receipt, sends no request, leaves the idempotency store and the breaker
    as they were, and appends one FAILED entry whose rationale is
    "Validation failed: " followed by the validator's message. *)
Theorem invalid_command_isolated (sha256_hex : string → string)
    (st : State) (parsed : ParsedCommand) (env : Env) (msg : string) :
  fst (validate parsed) = Some msg →
  ∃ x,
    fst (process_command sha256_hex st parsed env)
    = Return false ("ERROR: " +:+ snd x) ∧
    ledger (snd (process_command sha256_hex st parsed env))
    = (ledger st ++ [x])%list ∧
    Ledger.result (fst x) = "FAILED" ∧
    Ledger.rationale (fst x) = "Validation failed: " +:+ msg ∧
    requests_sent (snd (process_command sha256_hex st parsed env))
    = requests_sent st ∧
    idempotency (snd (process_command sha256_hex st parsed env))
    = idempotency st ∧
    breaker (snd (process_command sha256_hex st parsed env)) = breaker st.
Proof.
  intros Hv.
  assert (Htry : try_block sha256_hex st parsed env
                 = Caught ("Validation failed: " +:+ msg) st).
  { unfold try_block. destruct (validate parsed) as [e p]. simpl in Hv.
    by subst e. }
  rewrite (caught_result sha256_hex st st parsed env _ Htry).
  unfold append, Ledger.append_entry, Ledger.append_ledger. cbn.
  eexists (_, _). by repeat split.
Qed.

Definition unsafe_scan : ParsedCommand :=
  {| command_type := SCAN_SITE; action_id := "uuid-9";
     params := {[ "domain" := "a.com; rm -rf /" ]};
     raw_text := "SCAN_SITE domain=a.com; rm -rf /"; line_number := 1;
     issued_at := "2024-01-01T00:00:00"; severity := LOW |}.

Lemma invalid_command_isolated_witness :
  ∃ x,
    fst (process_command (λ s, s) (new_state true) unsafe_scan (env_at 100))
    = Return false ("ERROR: " +:+ snd x) ∧
    ledger (snd (process_command (λ s, s) (new_state true) unsafe_scan
                   (env_at 100)))
    = (ledger (new_state true) ++ [x])%list ∧
    Ledger.result (fst x) = "FAILED" ∧
    Ledger.rationale (fst x)
    = "Validation failed: "
        +:+ "Unsafe value in parameter domain: a.com; rm -rf /" ∧
    requests_sent (snd (process_command (λ s, s) (new_state true) unsafe_scan
                          (env_at 100)))
    = requests_sent (new_state true) ∧
    idempotency (snd (process_command (λ s, s) (new_state true) unsafe_scan
                        (env_at 100)))
    = idempotency (new_state true) ∧
    breaker (snd (process_command (λ s, s) (new_state true) unsafe_scan
                    (env_at 100)))
    = breaker (new_state true).
Proof.
  apply (invalid_command_isolated (λ s, s) (new_state true) unsafe_scan
           (env_at 100)).
  vm_compute. reflexivity.
Defined.

(** X10. Every call of [process_command] is counted once: it returns a
    pair (the kill-switch exit cannot happen, the flag being fixed to
    false), raises the processed counter and the latency counter by one,
    and keeps the processed counter equal to the sum of the success,
    failure and duplicate counters when it was so before. *)
Theorem every_call_counted (sha256_hex : string → string)
    (st : State) (parsed : ParsedCommand) (env : Env) :
  (∃ ok receipt,
     fst (process_command sha256_hex st parsed env) = Return ok receipt) ∧
  commands_processed (metrics (snd (process_command sha256_hex st parsed env)))
  = (commands_processed (metrics st) + 1)%Z ∧
  latency_count (metrics (snd (process_command sha256_hex st parsed env)))
  = (latency_count (metrics st) + 1)%Z ∧
  (commands_processed (metrics st)
   = (commands_success (metrics st) + commands_failed (metrics st)
      + commands_duplicate (metrics st))%Z →
   commands_processed
     (metrics (snd (process_command sha256_hex st parsed env)))
   = (commands_success
        (metrics (snd (process_command sha256_hex st parsed env)))
      + commands_failed
          (metrics (snd (process_command sha256_hex st parsed env)))
      + commands_duplicate
          (metrics (snd (process_command sha256_hex st parsed env))))%Z).
Proof.
  unfold process_command, try_block, check_and_record, get_cached_result,
    cache_result, mcp_execute_action, append, Ledger.append_entry,
    Ledger.append_ledger, redis_set_nx_ex.
  replace check_kill_switch with false by done.
  repeat (case_match; simplify_eq/=);
    (split; [by eauto|]); repeat split; intros; lia.
Qed.

(** *** The receipts form the chain *)

(** The states a poller can be in: as constructed, or after a call of
    [process_command]. *)
Inductive poller_reachable (sha256_hex : string → string) : State → Prop :=
| reach_start (redis_reached : bool) :
    poller_reachable sha256_hex (new_state redis_reached)
| reach_process (st : State) (parsed : ParsedCommand) (env : Env) :
    poller_reachable sha256_hex st →
    poller_reachable sha256_hex
      (snd (process_command sha256_hex st parsed env)).

Definition chain_ok (sha256_hex : string → string)
    (n : Ledger.NotionClient) (l : list (Ledger.LedgerEntry * string))
  : Prop :=
  map snd l = Ledger.stored_hashes sha256_hex (map fst l) ∧
  Ledger.last_hash n = last (map snd l).

Lemma chain_ok_append (sha256_hex : string → string)
    (n n' : Ledger.NotionClient) (l : list (Ledger.LedgerEntry * string))
    (e : Ledger.LedgerEntry) (h : string) :
  Ledger.append_entry sha256_hex n e = (h, n') →
  chain_ok sha256_hex n l → chain_ok sha256_hex n' (l ++ [(e, h)]).
Proof.
  intros Happ [Hhs Hlast]. unfold chain_ok.
  rewrite !map_app. cbn [map fst snd].
  pose proof (LedgerFacts.last_hash_of_run sha256_hex (map fst l)) as Hl.
  unfold Ledger.stored_hashes at 1.
  rewrite LedgerFacts.append_all_app. cbn [fst].
  fold (Ledger.stored_hashes sha256_hex (map fst l)). rewrite <- Hhs.
  assert (Hn : snd (Ledger.append_all sha256_hex Ledger.new_client (map fst l))
               = n).
  { destruct n as [lh]. simpl in Hlast.
    destruct (snd (Ledger.append_all _ _ _)) as [lh'].
    simpl in Hl. rewrite <- Hhs in Hl. congruence. }
  rewrite Hn. cbn [Ledger.append_all]. rewrite Happ. cbn [fst].
  split; [done|]. rewrite last_snoc.
  unfold Ledger.append_entry, Ledger.append_ledger in Happ.
  by injection Happ as <- <-.
Qed.

Lemma chain_ok_append_explicit (sha256_hex : string → string)
    (n : Ledger.NotionClient) (l : list (Ledger.LedgerEntry * string))
    (e : Ledger.LedgerEntry) (prev : string) :
  chain_ok sha256_hex n l →
  prev = default Ledger.genesis (Ledger.last_hash n) →
  chain_ok sha256_hex
    {| Ledger.last_hash :=
         Some (sha256_hex
                 (Ledger.entry_data (Ledger.action_id e)
                    (Ledger.command_text e) (Ledger.result e) prev)) |}
    (l ++ [(e, sha256_hex
                 (Ledger.entry_data (Ledger.action_id e)
                    (Ledger.command_text e) (Ledger.result e) prev))]).
Proof.
  intros Hok ->. eapply chain_ok_append; [|done].
  unfold Ledger.append_entry, Ledger.append_ledger.
  by destruct (Ledger.last_hash n).
Qed.

Ltac chain_step :=
  match goal with
  | |- chain_ok _ _ (_ ++ [(?e, _)]) =>
      eapply (chain_ok_append_explicit _ _ _ e);
      [first [eassumption | chain_step]
      |cbn [Ledger.last_hash default];
       first [reflexivity
             |match goal with
              | H : Ledger.last_hash _ = _ |- _ => by rewrite H
              end]]
  | |- chain_ok _ _ _ => eassumption
  end.

(** X11. The receipt hashes handed out by a poller form the hash chain of
    its appends: in every state reached from construction by calls of
    [process_command], the hashes recorded with the appended entries are
    the hashes recomputed from genesis over those entries in order, and
    the client's [last_hash] is the last of them. *)
Theorem receipts_form_chain (sha256_hex : string → string) (st : State) :
  poller_reachable sha256_hex st →
  map snd (ledger st)
  = Ledger.recompute sha256_hex Ledger.genesis (map fst (ledger st)) ∧
  Ledger.last_hash (notion st) = last (map snd (ledger st)).
Proof.
  intros Hreach. rewrite <- Ledger.stored_hashes_recompute.
  change (chain_ok sha256_hex (notion st) (ledger st)).
  induction Hreach as [b|st parsed env _ IH]; [by destruct b|].
  unfold process_command, try_block, check_and_record, get_cached_result,
    cache_result, mcp_execute_action, append.
  replace check_kill_switch with false by done.
  repeat (case_match; simplify_eq/=); chain_step.
Qed.

Lemma receipts_form_chain_witness :
  map snd (ledger after_first)
  = Ledger.recompute (λ s, s) Ledger.genesis (map fst (ledger after_first)) ∧
  Ledger.last_hash (notion after_first) = last (map snd (ledger after_first)).
Proof.
  apply (receipts_form_chain (λ s, s) after_first).
  exact (reach_process (λ s, s) (new_state true) (scan_command "uuid-1")
           (env_at 100) (reach_start (λ s, s) true)).
Defined.

(** *** After a failure *)

(** The dispatch of the command fails: the request raises, the breaker
    rejects it, or the response has a status other than SUCCESS and OK. *)
Definition dispatch_fails (st : State) (env : Env) : Prop :=
  match dispatch st env with
  | Raised _ => True
  | Returned result => status_ok result = false
  end.

Lemma failed_dispatch_state (sha256_hex : string → string) (st : State)
    (parsed : ParsedCommand) (env : Env) (r : Redis) :
  idempotency st = Some r → fst (validate parsed) = None →
  redis_up env SetNx = true →
  redis_get r ("idempotent:" +:+ sha256_hex (raw_text parsed)) (redis_now env)
  = None →
  dispatch_fails st env →
  (∃ receipt,
     fst (process_command sha256_hex st parsed env) = Return false receipt) ∧
  idempotency (snd (process_command sha256_hex st parsed env))
  = Some (<["idempotent:" +:+ sha256_hex (raw_text parsed) :=
             (Marker, (redis_now env + 3600)%Z)]> r).
Proof.
  intros Hidem Hvalid Hset Hget Hfail.
  pose proof (validate_fields parsed) as [_ Hraw].
  destruct (validate parsed) as [err parsed'] eqn:Hv.
  cbn [fst snd] in *. subst err. rewrite <- Hraw in *.
  assert (Hcheck :
    check_and_record st (sha256_hex (raw_text parsed')) 3600 env
    = Returned (true, set_idempotency st
        (Some (<["idempotent:" +:+ sha256_hex (raw_text parsed') :=
                   (Marker, (redis_now env + 3600)%Z)]> r)))).
  { unfold check_and_record, redis_set_nx_ex. by rewrite Hidem, Hset, Hget. }
  pose proof (try_block_claimed sha256_hex st _ parsed parsed' env Hv Hcheck)
    as Htry.
  rewrite mcp_execute_action_other_store in Htry.
  unfold dispatch_fails, dispatch in Hfail.
  destruct (mcp_execute_action st env) as [[result|e] st2];
    cbn [fst snd] in *; [rewrite Hfail in Htry|];
    rewrite (caught_result sha256_hex st _ parsed env _ Htry);
    cbn [fst snd]; (split; [by eexists|]);
    unfold append, Ledger.append_entry, Ledger.append_ledger; done.
Qed.

(** X12. A command whose dispatch failed is not retried by resubmitting
    it: the failed call has claimed the fingerprint and cached nothing, so
    the same line processed again within 3600 seconds is answered True with
    the receipt "DUPLICATE", sends no request and appends no ledger
    entry. *)
Theorem failed_command_not_retried (sha256_hex : string → string)
    (st : State) (parsed parsed2 : ParsedCommand) (env env2 : Env)
    (r : Redis) :
  idempotency st = Some r → fst (validate parsed) = None →
  redis_answers env → redis_answers env2 →
  redis_get r ("idempotent:" +:+ sha256_hex (raw_text parsed)) (redis_now env)
  = None →
  redis_get r ("result:" +:+ sha256_hex (raw_text parsed)) (redis_now env2)
  = None →
  dispatch_fails st env →
  raw_text parsed2 = raw_text parsed → fst (validate parsed2) = None →
  (redis_now env2 < redis_now env + 3600)%Z →
  (∃ receipt,
     fst (process_command sha256_hex st parsed env) = Return false receipt) ∧
  fst (process_command sha256_hex
         (snd (process_command sha256_hex st parsed env)) parsed2 env2)
  = Return true "DUPLICATE" ∧
  requests_sent
    (snd (process_command sha256_hex
            (snd (process_command sha256_hex st parsed env)) parsed2 env2))
  = requests_sent (snd (process_command sha256_hex st parsed env)) ∧
  ledger
    (snd (process_command sha256_hex
            (snd (process_command sha256_hex st parsed env)) parsed2 env2))
  = ledger (snd (process_command sha256_hex st parsed env)).
Proof.
  intros Hidem Hvalid Hup Hup2 Hget Hres Hfail Hraw Hvalid2 Hlt.
  destruct (failed_dispatch_state sha256_hex st parsed env r Hidem Hvalid
              (Hup SetNx) Hget Hfail) as [Hfirst Hstore].
  split; [done|].
  set (st1 := snd (process_command sha256_hex st parsed env)) in *.
  pose proof (validate_fields parsed2) as [_ Hraw2].
  destruct (validate parsed2) as [err p2] eqn:Hv2.
  cbn [fst snd] in *. subst err.
  unfold process_command, try_block. rewrite Hv2.
  unfold check_and_record, redis_set_nx_ex, redis_get.
  rewrite Hstore, (Hup2 SetNx), Hraw2, Hraw, lookup_insert_eq.
  destruct (Z.ltb_spec (redis_now env2) (redis_now env + 3600)); [|lia].
  unfold get_cached_result. cbn [set_idempotency idempotency].
  rewrite (Hup2 Get). unfold redis_get in *.
  rewrite lookup_insert_ne
    by (symmetry; apply StoreFacts.result_key_not_marker_key).
  rewrite Hres. done.
Qed.

(** The MCP server is down when the line is first processed. *)
Definition env_mcp_down (t : Z) : Env :=
  {| redis_now := t; redis_up := λ _, true;
     request := Raised "503 Server Error";
     now_entry := (t * 1000000)%Z; now_fail := (t * 1000000)%Z;
     latency := 12 |}.

Lemma failed_command_not_retried_witness :
  (∃ receipt,
     fst (process_command (λ s, s) (new_state true) (scan_command "uuid-1")
            (env_mcp_down 100)) = Return false receipt) ∧
  fst (process_command (λ s, s)
         (snd (process_command (λ s, s) (new_state true)
                 (scan_command "uuid-1") (env_mcp_down 100)))
         (scan_command "uuid-2") (env_at 200))
  = Return true "DUPLICATE" ∧
  requests_sent
    (snd (process_command (λ s, s)
            (snd (process_command (λ s, s) (new_state true)
                    (scan_command "uuid-1") (env_mcp_down 100)))
            (scan_command "uuid-2") (env_at 200)))
  = requests_sent
      (snd (process_command (λ s, s) (new_state true)
              (scan_command "uuid-1") (env_mcp_down 100))) ∧
  ledger
    (snd (process_command (λ s, s)
            (snd (process_command (λ s, s) (new_state true)
                    (scan_command "uuid-1") (env_mcp_down 100)))
            (scan_command "uuid-2") (env_at 200)))
  = ledger
      (snd (process_command (λ s, s) (new_state true)
              (scan_command "uuid-1") (env_mcp_down 100))).
Proof.
  apply (failed_command_not_retried (λ s, s) (new_state true)
           (scan_command "uuid-1") (scan_command "uuid-2")
           (env_mcp_down 100) (env_at 200) ∅).
  - reflexivity.
  - vm_compute. reflexivity.
  - intros c. reflexivity.
  - intros c. reflexivity.
  - reflexivity.
  - reflexivity.
  - vm_compute. exact I.
  - reflexivity.
  - vm_compute. reflexivity.
  - vm_compute. reflexivity.
Defined.

(** X13. A request rejected by the open breaker: when the command is valid
    and claims its fingerprint (or the store is disabled) while the breaker
    is OPEN and its timeout has not elapsed, no request is sent, the breaker
    stays as it is, and the one entry appended is FAILED with the rationale
    "Circuit breaker <name> is OPEN". *)
Theorem open_breaker_fails_command (sha256_hex : string → string)
    (st st1 : State) (parsed : ParsedCommand) (env : Env) (lf : Z) :
  fst (validate parsed) = None →
  check_and_record st (sha256_hex (raw_text parsed)) 3600 env
  = Returned (true, st1) →
  Breaker.state (breaker st) = Breaker.OPEN →
  Breaker.last_failure (breaker st) = Some lf →
  (now_entry env - lf
   ≤ Breaker.timedelta_seconds (Breaker.timeout (breaker st)))%Z →
  ∃ x,
    fst (process_command sha256_hex st parsed env)
    = Return false ("ERROR: " +:+ snd x) ∧
    ledger (snd (process_command sha256_hex st parsed env))
    = (ledger st ++ [x])%list ∧
    Ledger.result (fst x) = "FAILED" ∧
    Ledger.rationale (fst x)
    = "Circuit breaker " +:+ Breaker.name (breaker st) +:+ " is OPEN" ∧
    requests_sent (snd (process_command sha256_hex st parsed env))
    = requests_sent st ∧
    breaker (snd (process_command sha256_hex st parsed env)) = breaker st.
Proof.
  intros Hvalid Hcheck Hopen Hlf Hearly.
  pose proof (validate_fields parsed) as [_ Hraw].
  destruct (validate parsed) as [err parsed'] eqn:Hv.
  cbn [fst snd] in *. subst err. rewrite <- Hraw in Hcheck.
  assert (Hst1 : ledger st1 = ledger st ∧ notion st1 = notion st ∧
                 breaker st1 = breaker st ∧
                 requests_sent st1 = requests_sent st).
  { unfold check_and_record in Hcheck.
    destruct (idempotency st); [|by injection Hcheck as <-].
    destruct (redis_up env SetNx); [|done].
    destruct (redis_set_nx_ex _ _ _ _ _). by injection Hcheck as _ <-. }
  destruct Hst1 as (Hl & Hn & Hb & Hr).
  pose proof (try_block_claimed sha256_hex st st1 parsed parsed' env Hv Hcheck)
    as Htry.
  unfold mcp_execute_action, Breaker.call, Breaker.gate in Htry.
  rewrite Hb, Hopen, Hlf in Htry.
  assert (Hnot : (Breaker.timedelta_seconds (Breaker.timeout (breaker st))
                  <? now_entry env - lf)%Z = false)
    by (apply Z.ltb_ge; lia).
  rewrite Hnot in Htry.
  rewrite (caught_result sha256_hex st _ parsed env _ Htry).
  unfold append, Ledger.append_entry, Ledger.append_ledger. cbn.
  eexists (_, _). rewrite Hl, Hr. by repeat split.
Qed.

(** The poller after five failed dispatches in a row, one second apart. *)
Definition after_five_failures : State :=
  foldl (λ st i,
           snd (process_command (λ s, s) st
                  {| command_type := SCAN_SITE; action_id := "uuid";
                     params := {[ "domain" := "example.com" ]};
                     raw_text := "SCAN_SITE domain=example.com"
                                 +:+ String (Ascii.ascii_of_nat (48 + i)) "";
                     line_number := 1; issued_at := "t"; severity := LOW |}
                  (env_mcp_down (Z.of_nat i))))
    (new_state false) [1; 2; 3; 4; 5].

Lemma open_breaker_fails_command_witness :
  ∃ x,
    fst (process_command (λ s, s) after_five_failures (scan_command "uuid-6")
           (env_at 10))
    = Return false ("ERROR: " +:+ snd x) ∧
    ledger (snd (process_command (λ s, s) after_five_failures
                   (scan_command "uuid-6") (env_at 10)))
    = (ledger after_five_failures ++ [x])%list ∧
    Ledger.result (fst x) = "FAILED" ∧
    Ledger.rationale (fst x)
    = "Circuit breaker " +:+ Breaker.name (breaker after_five_failures)
        +:+ " is OPEN" ∧
    requests_sent (snd (process_command (λ s, s) after_five_failures
                          (scan_command "uuid-6") (env_at 10)))
    = requests_sent after_five_failures ∧
    breaker (snd (process_command (λ s, s) after_five_failures
                    (scan_command "uuid-6") (env_at 10)))
    = breaker after_five_failures.
Proof.
  apply (open_breaker_fails_command (λ s, s) after_five_failures
           after_five_failures (scan_command "uuid-6") (env_at 10) 5000000).
  - vm_compute. reflexivity.
  - vm_compute. reflexivity.
  - vm_compute. reflexivity.
  - vm_compute. reflexivity.
  - vm_compute. discriminate.
Defined.

(** *** Without Redis *)

Lemma disabled_store_step (sha256_hex : string → string) (st : State)
    (parsed : ParsedCommand) (env : Env) (result : Response) :
  idempotency st = None → fst (validate parsed) = None →
  Breaker.state (breaker st) = Breaker.CLOSED →
  request env = Returned result → status_ok result = true →
  ∃ x,
    fst (process_command sha256_hex st parsed env) = Return true (snd x) ∧
    ledger (snd (process_command sha256_hex st parsed env))
    = (ledger st ++ [x])%list ∧
    Ledger.result (fst x) = "SUCCESS" ∧
    requests_sent (snd (process_command sha256_hex st parsed env))
    = S (requests_sent st) ∧
    idempotency (snd (process_command sha256_hex st parsed env)) = None ∧
    breaker (snd (process_command sha256_hex st parsed env)) = breaker st.
Proof.
  intros Hidem Hvalid Hclosed Hreq Hok.
  destruct (validate parsed) as [err parsed'] eqn:Hv.
  cbn [fst] in Hvalid. subst err.
  assert (Hcheck :
    check_and_record st (sha256_hex (raw_text parsed')) 3600 env
    = Returned (true, st)).
  { unfold check_and_record. by rewrite Hidem. }
  pose proof (try_block_claimed sha256_hex st st parsed parsed' env Hv Hcheck)
    as Htry.
  unfold mcp_execute_action, Breaker.call, Breaker.gate in Htry.
  rewrite Hclosed, Hreq in Htry. cbn [Breaker.settle] in Htry.
  rewrite Hclosed, Hok in Htry.
  unfold append, Ledger.append_entry, Ledger.append_ledger, cache_result
    in Htry.
  cbn in Htry. rewrite Hidem in Htry.
  unfold process_command. rewrite Htry. cbn.
  eexists (_, _). by repeat split.
Qed.

(** X14. Without Redis nothing is deduplicated: when the store is disabled
    (Redis was unreachable at start-up), the breaker is CLOSED and the MCP
    server answers SUCCESS or OK, a valid line submitted twice is sent to
    the server twice and gets two SUCCESS entries. *)
Theorem disabled_store_dispatches_again (sha256_hex : string → string)
    (st : State) (parsed parsed2 : ParsedCommand) (env env2 : Env)
    (result result2 : Response) :
  idempotency st = None →
  Breaker.state (breaker st) = Breaker.CLOSED →
  fst (validate parsed) = None → fst (validate parsed2) = None →
  raw_text parsed2 = raw_text parsed →
  request env = Returned result → status_ok result = true →
  request env2 = Returned result2 → status_ok result2 = true →
  requests_sent
    (snd (process_command sha256_hex
            (snd (process_command sha256_hex st parsed env)) parsed2 env2))
  = S (S (requests_sent st)) ∧
  map (λ x, Ledger.result (fst x))
    (ledger
       (snd (process_command sha256_hex
               (snd (process_command sha256_hex st parsed env)) parsed2 env2)))
  = (map (λ x, Ledger.result (fst x)) (ledger st)
     ++ ["SUCCESS"; "SUCCESS"])%list.
Proof.
  intros Hidem Hclosed Hv Hv2 _ Hreq Hok Hreq2 Hok2.
  destruct (disabled_store_step sha256_hex st parsed env result Hidem Hv
              Hclosed Hreq Hok) as (x & _ & Hl & Hx & Hs & Hi & Hb).
  rewrite <- Hb in Hclosed.
  destruct (disabled_store_step sha256_hex _ parsed2 env2 result2 Hi Hv2
              Hclosed Hreq2 Hok2) as (y & _ & Hl2 & Hy & Hs2 & _).
  rewrite Hs2, Hs, Hl2, Hl. split; [done|].
  rewrite !map_app. cbn [map]. rewrite Hx, Hy, <- app_assoc. done.
Qed.

Lemma disabled_store_dispatches_again_witness :
  requests_sent
    (snd (process_command (λ s, s)
            (snd (process_command (λ s, s) (new_state false)
                    (scan_command "uuid-1") (env_at 100)))
            (scan_command "uuid-2") (env_at 200)))
  = S (S (requests_sent (new_state false))) ∧
  map (λ x, Ledger.result (fst x))
    (ledger
       (snd (process_command (λ s, s)
               (snd (process_command (λ s, s) (new_state false)
                       (scan_command "uuid-1") (env_at 100)))
               (scan_command "uuid-2") (env_at 200))))
  = (map (λ x, Ledger.result (fst x)) (ledger (new_state false))
     ++ ["SUCCESS"; "SUCCESS"])%list.
Proof.
  apply (disabled_store_dispatches_again (λ s, s) (new_state false)
           (scan_command "uuid-1") (scan_command "uuid-2")
           (env_at 100) (env_at 200) scan_response scan_response).
  - reflexivity.
  - reflexivity.
  - vm_compute. reflexivity.
  - vm_compute. reflexivity.
  - reflexivity.
  - reflexivity.
  - reflexivity.
  - reflexivity.
  - reflexivity.
Defined.

End PollerFacts.

(** ** The polling cycle: [CommandPoller.poll_once] *)

Module PollCycle.

Import Parser.
Import Breaker (Outcome, Returned, Raised).
Import Poller.

(** [s.startswith(prefix)] *)
Fixpoint starts_with (prefix s : string) : bool :=
  match prefix, s with
  | EmptyString, _ => true
  | String p prefix', String c s' => Ascii.eqb p c && starts_with prefix' s'
  | String _ _, EmptyString => false
  end.

(** The first test of the loop body: empty, comment and receipt lines are
    passed over. *)
Definition skipped (line_content : string) : bool :=
  is_empty line_content || starts_with "#" line_content
  || starts_with "RECEIPT:" line_content.

(** [receipt_hash[:12]] *)
Fixpoint take_chars (n : nat) (s : string) : string :=
  match n, s with
  | S n', String c s' => String c (take_chars n' s')
  | _, _ => EmptyString
  end.

(** The text [append_status] appends to the document: a newline and the
    status line. *)
Definition status_line (line_number : nat) (aid status receipt_hash : string)
  : string :=
  String newline
    ("# Line " +:+ pretty line_number +:+ " -> " +:+ aid +:+ ": " +:+ status
     +:+ " (receipt: " +:+ take_chars 12 receipt_hash +:+ "...)").

(** What each line of a cycle meets: the fresh identifier and clock reading
    of [parse_line], and the surroundings of [process_command]. *)
Record World := {
  uuid_of : nat → string;
  now_of : nat → string;
  env_of : nat → Env
}.

(** The poller across cycles: the objects of [process_command], the set of
    processed line ids, and the texts appended to the document. *)
Record Cycle := {
  core : State;
  processed_lines_cache : gset string;
  appended_status : list string
}.

Section WithHash.

Variable sha256_hex : string → string.

(** [f"{line_num}:{sha256(line_content)}"] *)
Definition line_id (line_num : nat) (line_content : string) : string :=
  pretty line_num +:+ ":" +:+ sha256_hex line_content.

(** The loop of [poll_once] from line number [line_num] on. The result is
    the poller, the count of [new_commands], and the message of a
    [SystemExit] that ended the loop, if any. *)
Fixpoint poll_lines (world : World) (st : Cycle) (new_commands : nat)
    (line_num : nat) (lines : list string) : Cycle * nat * option string :=
  match lines with
  | [] => (st, new_commands, None)
  | line :: rest =>
      let line_content := strip line in
      if skipped line_content
      then poll_lines world st new_commands (S line_num) rest
      else if bool_decide
                (line_id line_num line_content ∈ processed_lines_cache st)
      then poll_lines world st new_commands (S line_num) rest
      else
        let new_commands := S new_commands in
        match parse_line line_content (Z.of_nat line_num)
                (uuid_of world line_num) (now_of world line_num) with
        | None => poll_lines world st new_commands (S line_num) rest
        | Some parsed =>
            match process_command sha256_hex (core st) parsed
                    (env_of world line_num) with
            | (Return success receipt, core') =>
                let status := if success then "SUCCESS" else "FAILED" in
                let st' :=
                  {| core := core';
                     processed_lines_cache :=
                       {[ line_id line_num line_content ]}
                       ∪ processed_lines_cache st;
                     appended_status :=
                       appended_status st
                       ++ [status_line line_num (action_id parsed) status
                             receipt] |} in
                poll_lines world st' new_commands (S line_num) rest
            | (SystemExit msg, core') =>
                ({| core := core';
                    processed_lines_cache := processed_lines_cache st;
                    appended_status := appended_status st |},
                 new_commands, Some msg)
            end
        end
  end.

(** [poll_once] on the lines [read_commands] returned. *)
Definition poll_once (world : World) (st : Cycle) (lines : list string)
  : Cycle * nat * option string :=
  poll_lines world st 0 1 lines.

End WithHash.

(** [CommandPoller.__init__] *)
Definition new_poller (redis_reached : bool) : Cycle :=
  {| core := new_state redis_reached; processed_lines_cache := ∅;
     appended_status := [] |}.

(** Whether a line gives a command does not depend on its number, the
    identifier or the clock. *)
Lemma parse_line_None_indep (content : string) (n n' : Z)
    (u u' t t' : string) :
  parse_line content n u t = None → parse_line content n' u' t' = None.
Proof.
  unfold parse_line. destruct (_ || _); [done|].
  destruct (split_once _) as [|w more]; [done|].
  by destruct (CommandType_of_string _).
Qed.

Lemma process_command_returns (sha256_hex : string → string) (st : State)
    (parsed : ParsedCommand) (env : Env) (msg : string) :
  fst (process_command sha256_hex st parsed env) ≠ SystemExit msg.
Proof.
  unfold process_command, try_block.
  replace check_kill_switch with false by done.
  by repeat (case_match; simplify_eq/=).
Qed.

Section Cycles.

Variable sha256_hex : string → string.

(** Every line of [lines], numbered from [n], that is neither passed over
    nor unparsable has its id in the cache. *)
Definition covered (st : Cycle) (n : nat) (lines : list string) : Prop :=
  ∀ k line,
    lines !! k = Some line → skipped (strip line) = false →
    parse_line (strip line) 0 "" "" ≠ None →
    line_id sha256_hex (n + k) (strip line) ∈ processed_lines_cache st.

Lemma covered_cons (st : Cycle) (n : nat) (line : string)
    (lines : list string) :
  covered st n (line :: lines) → covered st (S n) lines.
Proof.
  intros Hc k l Hk Hs Hp. specialize (Hc (S k) l Hk Hs Hp).
  by replace (S n + k) with (n + S k) by lia.
Qed.

Lemma poll_lines_covered (world : World) (lines : list string) :
  ∀ (st : Cycle) (c n : nat),
    covered st n lines →
    ∃ c', poll_lines sha256_hex world st c n lines = (st, c', None).
Proof.
  induction lines as [|line lines IH]; intros st c n Hc; [by eexists|].
  cbn [poll_lines]. pose proof (covered_cons _ _ _ _ Hc) as Hc'.
  destruct (skipped (strip line)) eqn:Hskip; [by apply IH|].
  case_bool_decide as Hin; [by apply IH|].
  destruct (parse_line (strip line) _ _ _) as [parsed|] eqn:Hp;
    [|by apply IH].
  exfalso. apply Hin.
  specialize (Hc 0 line eq_refl Hskip). rewrite Nat.add_0_r in Hc.
  apply Hc. intros Hnone.
  by rewrite (parse_line_None_indep _ _ (Z.of_nat n) _
                (uuid_of world n) _ (now_of world n) Hnone) in Hp.
Qed.

Lemma poll_lines_covers (world : World) (lines : list string) :
  ∀ (st : Cycle) (c n : nat),
    processed_lines_cache st
    ⊆ processed_lines_cache
        (fst (fst (poll_lines sha256_hex world st c n lines))) ∧
    snd (poll_lines sha256_hex world st c n lines) = None ∧
    covered (fst (fst (poll_lines sha256_hex world st c n lines))) n lines.
Proof.
  induction lines as [|line lines IH]; intros st c n.
  { cbn. split; [done|]. split; [done|]. by intros k l ?. }
  assert (Hstep : ∀ st' c',
    processed_lines_cache st ⊆ processed_lines_cache st' →
    (skipped (strip line) = false →
     parse_line (strip line) 0 "" "" ≠ None →
     line_id sha256_hex n (strip line) ∈ processed_lines_cache st') →
    processed_lines_cache st
    ⊆ processed_lines_cache
        (fst (fst (poll_lines sha256_hex world st' c' (S n) lines))) ∧
    snd (poll_lines sha256_hex world st' c' (S n) lines) = None ∧
    covered (fst (fst (poll_lines sha256_hex world st' c' (S n) lines)))
      n (line :: lines)).
  { intros st' c' Hsub Hhead. destruct (IH st' c' (S n)) as (Hs & Hn & Hc).
    split; [by etrans|]. split; [done|].
    intros [|k] l Hk Hskip Hp.
    - injection Hk as <-. rewrite Nat.add_0_r. apply Hs. by apply Hhead.
    - replace (n + S k) with (S n + k) by lia. by apply (Hc k l). }
  cbn [poll_lines].
  destruct (skipped (strip line)) eqn:Hskip; [by apply Hstep|].
  case_bool_decide as Hin; [by apply Hstep|].
  destruct (parse_line (strip line) (Z.of_nat n) (uuid_of world n)
              (now_of world n)) as [parsed|] eqn:Hp.
  - destruct (process_command sha256_hex (core st) parsed (env_of world n))
      as [[ok receipt|msg] core'] eqn:Hpc.
    + apply Hstep; cbn [processed_lines_cache].
      * apply union_subseteq_r.
      * intros _ _. by apply elem_of_union_l, elem_of_singleton.
    + exfalso.
      apply (process_command_returns sha256_hex (core st) parsed
               (env_of world n) msg).
      by rewrite Hpc.
  - apply Hstep; [done|]. intros _ Hsome. exfalso. apply Hsome.
    by apply (parse_line_None_indep _ _ _ _ _ _ _ Hp).
Qed.

End Cycles.

(** X15. A cycle never handles a line twice: after [poll_once] over the
    lines of the document, a further [poll_once] over the same lines
    followed by any lines that are empty, comments or receipts (such as the
    status lines the first cycle appended) leaves the poller exactly as it
    was: nothing is dispatched, appended to the ledger, or written to the
    document, whatever the identifiers, clock and services of the second
    cycle. *)
Theorem second_cycle_does_nothing (sha256_hex : string → string)
    (world world2 : World) (st : Cycle) (lines extra : list string) :
  Forall (λ line, skipped (strip line) = true) extra →
  ∃ new_commands,
    poll_once sha256_hex world2
      (fst (fst (poll_once sha256_hex world st lines))) (lines ++ extra)
    = (fst (fst (poll_once sha256_hex world st lines)), new_commands, None).
Proof.
  intros Hextra. unfold poll_once. apply poll_lines_covered.
  destruct (poll_lines_covers sha256_hex world lines st 0 1) as (_ & _ & Hc).
  intros k line Hk Hskip Hp.
  destruct (decide (k < length lines)) as [Hlt|Hge].
  - rewrite lookup_app_l in Hk by done. by apply (Hc k line).
  - rewrite lookup_app_r in Hk by lia.
    rewrite Forall_forall in Hextra.
    apply list_elem_of_lookup_2 in Hk. specialize (Hextra line Hk).
    congruence.
Qed.

Definition sample_world : World :=
  {| uuid_of := λ n, "uuid-" +:+ pretty n; now_of := λ _, "t";
     env_of := λ n, env_at (Z.of_nat n) |}.

Definition sample_lines : list string :=
  ["# Command Queue"; "SCAN_SITE domain=example.com"; "";
   "POST_VIMEO title=t url=u"; "NOT_A_COMMAND x=1"].

Lemma second_cycle_does_nothing_witness :
  ∃ new_commands,
    poll_once (λ s, s) sample_world
      (fst (fst (poll_once (λ s, s) sample_world (new_poller true)
                   sample_lines)))
      (sample_lines ++ ["# Line 2 -> uuid-2: SUCCESS (receipt: a...)"])
    = (fst (fst (poll_once (λ s, s) sample_world (new_poller true)
                   sample_lines)),
       new_commands, None).
Proof.
  apply (second_cycle_does_nothing (λ s, s) sample_world sample_world
           (new_poller true) sample_lines).
  repeat constructor.
Defined.

(** X16. What [append_status] writes is a newline followed by a line that
    begins with [#]: read back, with or without the newline that ends it,
    that line is passed over by [poll_once] and gives no command in
    [parse_line]. *)
Theorem status_line_is_comment (line_number : nat)
    (aid status receipt : string) (n : Z) (u t : string) :
  ∃ text,
    status_line line_number aid status receipt = String newline text ∧
    skipped (strip text) = true ∧
    skipped (strip (text +:+ String newline "")) = true ∧
    parse_line text n u t = None.
Proof.
  unfold status_line. eexists. split; [done|].
  assert (Hstart : ∀ rest,
    starts_with "#" (strip (String hash_mark rest)) = true).
  { intros rest. unfold strip. rewrite lstrip_nonspace by done.
    cbn [rstrip]. replace (is_space hash_mark) with false by done.
    by rewrite andb_false_r. }
  assert (Hskip : ∀ rest, skipped (strip (String hash_mark rest)) = true).
  { intros rest. unfold skipped. rewrite Hstart.
    by destruct (is_empty _). }
  rewrite !Str.app_cons. split; [apply Hskip|]. split; [apply Hskip|].
  apply parse_line_comment.
Qed.

End PollCycle.

(** ** Further facts about [execute_action] *)

Module OrchestratorFacts.

Import Breaker (Outcome, Returned, Raised).
Import Orchestrator.

Lemma unblocked_action (ct : string) :
  ct ≠ "CONNECT_INTEGRATION" → action (_get_policies_for_command ct) = None.
Proof.
  intros Hne. unfold _get_policies_for_command, default_policies.
  repeat (rewrite lookup_insert; case_decide; [by subst|]).
  by rewrite lookup_empty.
Qed.

(** X17. CONNECT_INTEGRATION is the only command type the policy table
    blocks: for every other type string, known or not,
    [_get_policies_for_command] gives no BLOCK action, and unknown types get
    the empty policy. *)
Theorem only_connect_integration_blocked (ct : string) :
  (ct ≠ "CONNECT_INTEGRATION" →
   action (_get_policies_for_command ct) = None) ∧
  (ct ∉ ["START_CAMPAIGN"; "CHECK_INTEGRATION_STATUS"; "REFRESH_TOKEN";
         "CONNECT_INTEGRATION"] →
   _get_policies_for_command ct = empty_policy).
Proof.
  split; [apply unblocked_action|].
  unfold _get_policies_for_command, default_policies. intros Hnot.
  repeat (rewrite lookup_insert; case_decide;
          [exfalso; apply Hnot; subst ct; set_solver|]).
  by rewrite lookup_empty.
Qed.

Lemma only_connect_integration_blocked_witness :
  action (_get_policies_for_command "REFRESH_TOKEN") = None.
Proof.
  apply (proj1 (only_connect_integration_blocked "REFRESH_TOKEN")).
  discriminate.
Defined.

Section Facts.

Context {float tool_value : Type}.

Implicit Types (self : ActionOrchestrator float tool_value).

Ltac run_paths :=
  unfold execute_action, judge_step, execute_tool;
  repeat (case_match; simplify_eq/=).

(** X18. The collaborators are called at most once each and in the order
    validator, judges, tool, always with the command's own type and
    parameters. *)
Theorem calls_in_pipeline_order self (aid ct : string)
    (params : gmap string string) (severity : Severity) (now : string) :
  sublist (snd (execute_action self aid ct params severity now))
    [CallValidator ct params; CallJudges ct params; CallTool ct params].
Proof.
  run_paths;
    eauto 6 using sublist_nil, sublist_skip, sublist_cons.
Qed.

(** X19. The result keeps the action id, command type and timestamp it
    was called with. Its status is SUCCESS exactly when a tool result is
    attached, which is exactly when the tool was called and returned; the
    rationale is then "Action completed successfully". *)
Theorem success_means_tool_returned self (aid ct : string)
    (params : gmap string string) (severity : Severity) (now : string) :
  action_id (fst (execute_action self aid ct params severity now)) = aid ∧
  command_type (fst (execute_action self aid ct params severity now)) = ct ∧
  timestamp (fst (execute_action self aid ct params severity now)) = now ∧
  (status (fst (execute_action self aid ct params severity now)) = SUCCESS ↔
   is_Some (tool_result (fst (execute_action self aid ct params severity now))))
  ∧
  (status (fst (execute_action self aid ct params severity now)) = SUCCESS ↔
   ct ∈ tool_names ∧
   CallTool ct params ∈ snd (execute_action self aid ct params severity now) ∧
   ∃ v, executor self ct params = Returned v ∧
        tool_result (fst (execute_action self aid ct params severity now))
        = Some v) ∧
  (status (fst (execute_action self aid ct params severity now)) = SUCCESS →
   rationale (fst (execute_action self aid ct params severity now))
   = "Action completed successfully").
Proof.
  unfold execute_action, judge_step, execute_tool, tool_map.
  repeat (case_match; simplify_eq/=);
    repeat split; try done; try (by intros [? ?]);
    try (by intros (? & ? & ? & ? & ?));
    try (by eexists);
    try (match goal with
         | Hin : bool_decide (_ ∈ tool_names) = true |- _ =>
             by apply bool_decide_eq_true in Hin
         end);
    try (by repeat first [apply list_elem_of_here | apply list_elem_of_further]);
    try (by intros (Hin & _); apply bool_decide_eq_false in Hin).
Qed.

(** X20. A command type without an entry in the tool map is never
    executed: no tool is called and the status is never SUCCESS; when the
    policy, the validator and the judges let it through, the status is
    FAILED with the rationale "Execution error: Unknown command type: "
    followed by the type. PUBLISH_REPORT, a member of [CommandType], is such
    a type. *)
Theorem unmapped_type_never_executes self (aid ct : string)
    (params : gmap string string) (severity : Severity) (now : string) :
  ct ∉ tool_names →
  Forall (λ e, is_tool_call e = false)
    (snd (execute_action self aid ct params severity now)) ∧
  status (fst (execute_action self aid ct params severity now)) ≠ SUCCESS ∧
  (status (fst (execute_action self aid ct params severity now)) = FAILED →
   rationale (fst (execute_action self aid ct params severity now))
   = "Execution error: " +:+ "Unknown command type: " +:+ ct) ∧
  "PUBLISH_REPORT" ∉ tool_names.
Proof.
  intros Hct. unfold execute_action, judge_step, execute_tool, tool_map.
  rewrite (bool_decide_eq_false_2 (ct ∈ tool_names) Hct).
  repeat (case_match; simplify_eq/=);
    repeat split; try done;
    try (by rewrite ?Forall_cons, ?Forall_nil; repeat split);
    try (by apply (bool_decide_unpack _)).
Qed.

End Facts.

Lemma unmapped_type_never_executes_witness :
  Forall (λ e, is_tool_call e = false)
    (snd (execute_action (judged_orchestrator [true; true; true]) "a1"
            "PUBLISH_REPORT" ∅ MEDIUM "t0")) ∧
  status (fst (execute_action (judged_orchestrator [true; true; true]) "a1"
                 "PUBLISH_REPORT" ∅ MEDIUM "t0")) ≠ SUCCESS ∧
  (status (fst (execute_action (judged_orchestrator [true; true; true]) "a1"
                  "PUBLISH_REPORT" ∅ MEDIUM "t0")) = FAILED →
   rationale (fst (execute_action (judged_orchestrator [true; true; true])
                     "a1" "PUBLISH_REPORT" ∅ MEDIUM "t0"))
   = "Execution error: " +:+ "Unknown command type: " +:+ "PUBLISH_REPORT") ∧
  "PUBLISH_REPORT" ∉ tool_names.
Proof.
  apply (unmapped_type_never_executes (judged_orchestrator [true; true; true])).
  apply (bool_decide_unpack _). vm_compute. exact I.
Defined.

(** X21. A validator that does not pass the command stops the pipeline:
    for a command the policy lets through, the status is BLOCKED with the
    rationale "Failed validation: " followed by the validator's summary, the
    validation is attached, and neither the judges nor a tool are called. *)
Theorem failed_validation_blocks (float tool_value : Type)
    (self : ActionOrchestrator float tool_value)
    (validate : string → gmap string string → ValidationResult float)
    (aid ct : string) (params : gmap string string) (severity : Severity)
    (now : string) :
  ct ≠ "CONNECT_INTEGRATION" →
  validator self = Some validate →
  passed (validate ct params) = false →
  execute_action self aid ct params severity now
  = ({| action_id := aid; command_type := ct; status := BLOCKED;
        rationale :=
          "Failed validation: " +:+ short_summary (validate ct params);
        timestamp := now;
        validation := Some (risk_score (validate ct params),
                            short_summary (validate ct params), false);
        judge_decisions := None; tool_result := None |},
     [CallValidator ct params]).
Proof.
  intros Hct Hv Hfail. unfold execute_action.
  rewrite (unblocked_action ct Hct).
  rewrite bool_decide_eq_false_2 by done.
  rewrite Hv, Hfail. cbn. unfold set_status, set_validation. cbn.
  by rewrite Hfail.
Qed.

Definition rejecting_orchestrator : ActionOrchestrator string string :=
  {| validator :=
       Some (λ _ _, {| risk_score := "0.9"; short_summary := "looks risky";
                       compressed_proof := "p"; passed := false |});
     judge := Some (λ _ _ _, panel [true; true; true]);
     executor := sample_executor |}.

Lemma failed_validation_blocks_witness :
  execute_action rejecting_orchestrator "a1" "SCAN_SITE" scan_params HIGH "t0"
  = ({| action_id := "a1"; command_type := "SCAN_SITE"; status := BLOCKED;
        rationale := "Failed validation: " +:+ "looks risky";
        timestamp := "t0";
        validation := Some ("0.9", "looks risky", false);
        judge_decisions := None; tool_result := None |},
     [CallValidator "SCAN_SITE" scan_params]).
Proof.
  apply (failed_validation_blocks string string rejecting_orchestrator
           (λ _ _, {| risk_score := "0.9"; short_summary := "looks risky";
                      compressed_proof := "p"; passed := false |})).
  - discriminate.
  - reflexivity.
  - reflexivity.
Defined.

End OrchestratorFacts.

(** ** The services behind the orchestrator: [GroqValidator],
    [MistralJudge], [ToolExecutor] and [ActionOrchestrator.__init__] *)

Module Services.

Import Breaker (Outcome, Returned, Raised).
Import Orchestrator.

(** What [requests.post] and the reading of the reply give: the call
    raises; or there is a response with a status code, from whose body the
    text at [choices[0].message.content] is read, [None] standing for a
    body from which this reading raises. *)
Inductive HttpReply :=
| PostRaises (msg : string)
| Response (status_code : Z) (content : option string).

(** [json.loads(content)]: a decoding error, a JSON value that is not an
    object (on which [.get] raises), or an object. *)
Inductive Decoded (A : Type) :=
| DecodeError
| NotAnObject
| Object (a : A).
Arguments DecodeError {A}.
Arguments NotAnObject {A}.
Arguments Object {A} a.

(** [not s] for an API key or URL: absent or empty. *)
Definition is_unset (s : string) : bool :=
  match s with EmptyString => true | _ => false end.

Section WithFloat.

Context {float : Type}.

(** The float literals 0.3, 0.5 and 0.7. *)
Variables (f0_3 f0_5 f0_7 : float).

(** The keys [validate_command] reads from the decoded object, with values
    of the types of the [ValidationResult] fields. *)
Record GroqData := {
  g_risk_score : option float;
  g_summary : option string;
  g_proof : option string;
  g_safe : option bool
}.

Record GroqValidator := {
  groq_api_key : string;
  groq_post : string → gmap string string → HttpReply;
  groq_loads : string → Decoded GroqData
}.

Definition validation_error : ValidationResult float :=
  {| risk_score := f0_3; short_summary := "Validation error";
     compressed_proof := "Failed to validate"; passed := true |}.

(** [GroqValidator.validate_command] *)
Definition validate_command (self : GroqValidator) (ct : string)
    (params : gmap string string) : ValidationResult float :=
  if is_unset (groq_api_key self)
  then {| risk_score := f0_5; short_summary := "No API key";
          compressed_proof := "Skipped validation"; passed := true |}
  else
    match groq_post self ct params with
    | PostRaises _ => validation_error
    | Response status_code content =>
        if (status_code =? 200)%Z then
          match content with
          | Some content =>
              match groq_loads self content with
              | Object data =>
                  {| risk_score := default f0_5 (g_risk_score data);
                     short_summary :=
                       default "Groq validation complete" (g_summary data);
                     compressed_proof :=
                       default "AI analysis" (g_proof data);
                     passed := default true (g_safe data) |}
              | _ => validation_error
              end
          | None => validation_error
          end
        else validation_error
    end.

(** The keys [judge_action] reads from the decoded object. *)
Record JudgeData := {
  j_score : option float;
  j_rationale : option string;
  j_approved : option bool
}.

Record MistralJudge := {
  mistral_api_key : string;
  mistral_post : string → string → gmap string string →
                 ValidationResult float → HttpReply;
  mistral_loads : string → Decoded JudgeData
}.

(** The body of the loop of [judge_action] for one judge. *)
Definition judge_one (self : MistralJudge) (ct : string)
    (params : gmap string string) (validation : ValidationResult float)
    (jid : string) : JudgeDecision float :=
  let unavailable :=
    {| judge_id := jid; score := f0_5; jd_rationale := "Judge unavailable";
       approved := true |} in
  match mistral_post self jid ct params validation with
  | PostRaises _ => unavailable
  | Response status_code content =>
      if (status_code =? 200)%Z then
        match content with
        | Some content =>
            match mistral_loads self content with
            | Object data =>
                {| judge_id := jid; score := default f0_5 (j_score data);
                   jd_rationale :=
                     default "Analysis complete" (j_rationale data);
                   approved := default true (j_approved data) |}
            | _ => unavailable
            end
        | None => unavailable
        end
      else unavailable
  end.

Definition judges : list string := ["security"; "compliance"; "business"].

(** [MistralJudge.judge_action] *)
Definition judge_action (self : MistralJudge) (ct : string)
    (params : gmap string string) (validation : ValidationResult float)
  : list (JudgeDecision float) :=
  if is_unset (mistral_api_key self)
  then [{| judge_id := "fallback"; score := f0_7;
           jd_rationale := "No API key available"; approved := true |}]
  else map (judge_one self ct params validation) judges.



End WithFloat.

Section WithJson.

(** The JSON value an Apps Script call answers with. *)
Context {json : Type}.

(** What a tool returns: a dictionary built by the tool, or the decoded
    reply of the Apps Script. *)
Inductive ToolValue :=
| Dict (d : gmap string string)
| Remote (j : json).

(** [APPS_SCRIPT_URL], what the POST to it does (raising covers the
    request, [raise_for_status] and the decoding), and the message of the
    [TypeError] that calling a tool with unfitting keyword arguments
    raises. *)
Record ToolExecutor := {
  apps_script_url : string;
  apps_script_post : string → gmap string string → Outcome json;
  type_error : string → gmap string string → string
}.

(** [_call_apps_script] *)
Definition _call_apps_script (self : ToolExecutor) (action : string)
    (params : gmap string string) : ToolValue :=
  if is_unset (apps_script_url self)
  then Dict (<["status" := "simulated"]>
               {[ "message" := "Apps Script URL not configured" ]})
  else
    match apps_script_post self (apps_script_url self)
            (params ∪ {[ "action" := action ]}) with
    | Returned j => Remote j
    | Raised e => Dict (<["status" := "error"]> {[ "message" := e ]})
    end.

Definition execute_scan_site (domain : string) : ToolValue :=
  Dict (<["domain" := domain]>
          (<["grade" := "A"]> {[ "status" := "simulated" ]})).

Definition execute_start_campaign (self : ToolExecutor)
    (channel campaign_id : string) : ToolValue :=
  _call_apps_script self "meta_campaign" {[ "campaign_name" := campaign_id ]}.

Definition execute_check_integration_status (self : ToolExecutor)
    (service : string) : ToolValue :=
  _call_apps_script self "get_integration_status" {[ "service" := service ]}.

Definition execute_refresh_token (self : ToolExecutor) (service : string)
  : ToolValue :=
  _call_apps_script self "refresh_token" {[ "service" := service ]}.

Definition execute_connect_integration (service : string) : ToolValue :=
  Dict (<["service" := service]>
       (<["status" := "PENDING_HUMAN_ACTION"]>
       (<["message" :=
            "Connection prepared. A human operator must complete the OAuth flow."]>
          {[ "next_steps_url" :=
               "https://admin.mailchimp.com/integrations/add/" +:+ service ]}))).

(** The keyword arguments fit a signature: every required name is given
    and no other name than a required or optional one. *)
Definition fits (required optional : list string)
    (params : gmap string string) : bool :=
  forallb (λ k, bool_decide (is_Some (params !! k))) required &&
  bool_decide (dom params ⊆ list_to_set (required ++ optional)).

Definition arg (params : gmap string string) (k : string) : string :=
  default "" (params !! k).

(** The call of a function of [tool_map] with the parameters as keyword
    arguments. *)
Definition call_tool (self : ToolExecutor) (ct : string)
    (params : gmap string string) : Outcome ToolValue :=
  let bind required optional (v : ToolValue) :=
    if fits required optional params then Returned v
    else Raised (type_error self ct params) in
  if String.eqb ct "SCAN_SITE" then
    bind ["domain"] [] (execute_scan_site (arg params "domain"))
  else if String.eqb ct "START_CAMPAIGN" then
    bind ["channel"; "campaign_id"] []
      (execute_start_campaign self (arg params "channel")
         (arg params "campaign_id"))
  else if String.eqb ct "CHECK_INTEGRATION_STATUS" then
    bind ["service"] []
      (execute_check_integration_status self (arg params "service"))
  else if String.eqb ct "REFRESH_TOKEN" then
    bind ["service"] [] (execute_refresh_token self (arg params "service"))
  else
    bind ["service"] ["requires_human"]
      (execute_connect_integration (arg params "service")).

End WithJson.

Arguments ToolValue : clear implicits.
Arguments ToolExecutor : clear implicits.
Arguments GroqValidator : clear implicits.
Arguments MistralJudge : clear implicits.
Arguments GroqData : clear implicits.
Arguments JudgeData : clear implicits.

(** [ActionOrchestrator.__init__]: a validator and a judge exist when
    their API key is set. *)
Definition make_orchestrator {float json : Type} (f0_3 f0_5 f0_7 : float)
    (groq : GroqValidator float) (mistral : MistralJudge float)
    (tools : ToolExecutor json)
  : ActionOrchestrator float (ToolValue json) :=
  {| validator :=
       if is_unset (groq_api_key groq) then None
       else Some (validate_command f0_3 f0_5 groq);
     judge :=
       if is_unset (mistral_api_key mistral) then None
       else Some (judge_action f0_5 f0_7 mistral);
     executor := call_tool tools |}.

End Services.

(** ** Facts about the services *)

Module ServicesFacts.

Import Breaker (Outcome, Returned, Raised).
Import Orchestrator Services.

Section Validator.

Context {float : Type} (f0_3 f0_5 f0_7 : float).



End Validator.

(** A validator whose service is unreachable, and an orchestrator on
    it. *)
Definition groq_down : GroqValidator string :=
  {| groq_api_key := "gsk-key";
     groq_post := λ _ _, PostRaises "connection refused";
     groq_loads := λ _, DecodeError |}.

Definition mistral_down : MistralJudge string :=
  {| mistral_api_key := "mistral-key";
     mistral_post := λ _ _ _ _, PostRaises "connection refused";
     mistral_loads := λ _, DecodeError |}.

Definition tools_offline : ToolExecutor string :=
  {| apps_script_url := "https://script.example/exec";
     apps_script_post := λ _ _, Raised "503 Server Error";
     type_error := λ ct _, ct +:+ "() got unexpected keyword arguments" |}.


Section Judge.

Context {float : Type} (f0_5 f0_7 : float).





End Judge.



Section Tools.

Context {float json : Type} (f0_3 f0_5 f0_7 : float).

Implicit Types (groq : GroqValidator float) (mistral : MistralJudge float)
  (tools : ToolExecutor json).

(** Without a Groq key the orchestrator goes from the policy gate to the
    tool. *)
Lemma keyless_execute_action groq mistral tools (aid ct : string)
    (params : gmap string string) (severity : Severity) (now : string) :
  is_unset (groq_api_key groq) = true → ct ≠ "CONNECT_INTEGRATION" →
  execute_action (make_orchestrator f0_3 f0_5 f0_7 groq mistral tools)
    aid ct params severity now
  = execute_tool (make_orchestrator f0_3 f0_5 f0_7 groq mistral tools)
      (initial_result aid ct now) ct params.
Proof.
  intros Hkey Hct. unfold execute_action, make_orchestrator.
  rewrite (OrchestratorFacts.unblocked_action ct Hct).
  rewrite bool_decide_eq_false_2 by done.
  cbn [validator]. rewrite Hkey. apply judge_step_no_validation.
Qed.

Lemma fits_iff (required optional : list string)
    (params : gmap string string) :
  fits required optional params = true ↔
  (∀ k, k ∈ required → k ∈ dom params) ∧
  (∀ k, k ∈ dom params → k ∈ required ∨ k ∈ optional).
Proof.
  unfold fits. rewrite andb_true_iff, forallb_forall, bool_decide_eq_true.
  split.
  - intros [Hreq Hdom]. split.
    + intros k Hk. apply elem_of_dom.
      apply (bool_decide_eq_true_1 (is_Some (params !! k))), Hreq.
      by apply list_elem_of_In.
    + intros k Hk. specialize (Hdom k Hk).
      apply elem_of_list_to_set in Hdom. by apply elem_of_app in Hdom.
  - intros [Hreq Hdom]. split.
    + intros k Hk. apply bool_decide_eq_true_2, elem_of_dom, Hreq.
      by apply list_elem_of_In.
    + intros k Hk. apply elem_of_list_to_set. apply elem_of_app.
      by apply Hdom.
Qed.

Lemma fits_service (optional : list string) (service : string) :
  fits ["service"] optional {[ "service" := service ]} = true.
Proof.
  apply fits_iff. split.
  - intros k ->%list_elem_of_singleton.
    apply elem_of_dom. rewrite lookup_singleton_eq. by eexists.
  - intros k Hk. left. apply elem_of_dom in Hk as [v Hv].
    apply lookup_singleton_Some in Hv as [<- _].
    by apply list_elem_of_singleton.
Qed.

(** X25. A failed Apps Script call is reported as a success: when the
    script URL is set and the POST raises, CHECK_INTEGRATION_STATUS and
    REFRESH_TOKEN called with a service return the dictionary
    [{status: error, message: <the exception>}] instead of raising, and an
    orchestrator without validator answers SUCCESS with that dictionary as
    tool result. *)
Theorem apps_script_failure_reported_as_success groq mistral tools
    (aid ct service : string) (severity : Severity) (now e : string) :
  ct ∈ ["CHECK_INTEGRATION_STATUS"; "REFRESH_TOKEN"] →
  is_unset (groq_api_key groq) = true →
  is_unset (apps_script_url tools) = false →
  (∀ payload,
     apps_script_post tools (apps_script_url tools) payload = Raised e) →
  call_tool tools ct {[ "service" := service ]}
  = Returned (Dict (<["status" := "error"]> {[ "message" := e ]})) ∧
  status (fst (execute_action
                 (make_orchestrator f0_3 f0_5 f0_7 groq mistral tools)
                 aid ct {[ "service" := service ]} severity now)) = SUCCESS ∧
  tool_result (fst (execute_action
                      (make_orchestrator f0_3 f0_5 f0_7 groq mistral tools)
                      aid ct {[ "service" := service ]} severity now))
  = Some (Dict (<["status" := "error"]> {[ "message" := e ]})).
Proof.
  intros Hct Hkey Hurl Hpost.
  assert (Hcall : call_tool tools ct {[ "service" := service ]}
            = Returned (Dict (<["status" := "error"]> {[ "message" := e ]}))).
  { apply elem_of_cons in Hct as [->|Hct];
      [|apply list_elem_of_singleton in Hct as ->];
      unfold call_tool; cbn [String.eqb Ascii.eqb Bool.eqb];
      rewrite fits_service;
      unfold execute_check_integration_status, execute_refresh_token,
        _call_apps_script; by rewrite Hurl, Hpost. }
  split; [done|].
  assert (Hne : ct ≠ "CONNECT_INTEGRATION").
  { intros ->. apply elem_of_cons in Hct as [?|Hct]; [done|].
    by apply list_elem_of_singleton in Hct. }
  rewrite (keyless_execute_action groq mistral tools aid ct _ severity now
             Hkey Hne).
  unfold execute_tool, tool_map.
  rewrite bool_decide_eq_true_2.
  - cbn [executor make_orchestrator]. by rewrite Hcall.
  - unfold tool_names.
    apply elem_of_cons in Hct as [->|Hct];
      [|apply list_elem_of_singleton in Hct as ->];
      repeat first [apply list_elem_of_here | apply list_elem_of_further].
Qed.

(** X26. SCAN_SITE runs exactly when its parameters are the single key
    [domain]: on an orchestrator without validator the answer is then
    SUCCESS with the simulated scan of that domain; with the key missing or
    any other key present the call of the tool raises and the answer is
    FAILED with rationale "Execution error: " followed by the message of
    the error, and no tool result. *)
Theorem scan_site_takes_exactly_domain groq mistral tools (aid : string)
    (params : gmap string string) (severity : Severity) (now : string) :
  is_unset (groq_api_key groq) = true →
  (dom params = {[ "domain" ]} →
   status (fst (execute_action
                  (make_orchestrator f0_3 f0_5 f0_7 groq mistral tools)
                  aid "SCAN_SITE" params severity now)) = SUCCESS ∧
   tool_result (fst (execute_action
                       (make_orchestrator f0_3 f0_5 f0_7 groq mistral tools)
                       aid "SCAN_SITE" params severity now))
   = Some (Dict (<["domain" := arg params "domain"]>
                   (<["grade" := "A"]> {[ "status" := "simulated" ]})))) ∧
  (dom params ≠ {[ "domain" ]} →
   status (fst (execute_action
                  (make_orchestrator f0_3 f0_5 f0_7 groq mistral tools)
                  aid "SCAN_SITE" params severity now)) = FAILED ∧
   rationale (fst (execute_action
                     (make_orchestrator f0_3 f0_5 f0_7 groq mistral tools)
                     aid "SCAN_SITE" params severity now))
   = "Execution error: " +:+ type_error tools "SCAN_SITE" params ∧
   tool_result (fst (execute_action
                       (make_orchestrator f0_3 f0_5 f0_7 groq mistral tools)
                       aid "SCAN_SITE" params severity now)) = None).
Proof.
  intros Hkey.
  rewrite (keyless_execute_action groq mistral tools aid "SCAN_SITE" params
             severity now Hkey) by done.
  unfold execute_tool, tool_map.
  rewrite bool_decide_eq_true_2 by apply list_elem_of_here.
  cbn [executor make_orchestrator]. unfold call_tool.
  cbn [String.eqb Ascii.eqb Bool.eqb].
  assert (Hfits : fits ["domain"] [] params = true
                  ↔ dom params = {[ "domain" ]}).
  { rewrite fits_iff. split.
    - intros [Hreq Hdom]. apply set_eq. intros k. split.
      + intros Hk. destruct (Hdom k Hk) as [Hin|Hin].
        * apply list_elem_of_singleton in Hin as ->.
          by apply elem_of_singleton.
        * by apply elem_of_nil in Hin.
      + intros ->%elem_of_singleton. apply Hreq.
        by apply list_elem_of_singleton.
    - intros Heq. rewrite Heq. split.
      + intros k ->%list_elem_of_singleton. by apply elem_of_singleton.
      + intros k ->%elem_of_singleton. left.
        by apply list_elem_of_singleton. }
  split; intros Hdom.
  - rewrite (proj2 Hfits Hdom). done.
  - destruct (fits ["domain"] [] params); [|done].
    by destruct Hdom, (proj1 Hfits).
Qed.

End Tools.

Lemma apps_script_failure_reported_as_success_witness :
  call_tool tools_offline "REFRESH_TOKEN" {[ "service" := "google" ]}
  = Returned (Dict (<["status" := "error"]>
                      {[ "message" := "503 Server Error" ]})) ∧
  status (fst (execute_action
                 (make_orchestrator "0.3" "0.5" "0.7"
                    {| groq_api_key := ""; groq_post := groq_post groq_down;
                       groq_loads := groq_loads groq_down |}
                    mistral_down tools_offline)
                 "a1" "REFRESH_TOKEN" {[ "service" := "google" ]} MEDIUM
                 "t0")) = SUCCESS ∧
  tool_result (fst (execute_action
                 (make_orchestrator "0.3" "0.5" "0.7"
                    {| groq_api_key := ""; groq_post := groq_post groq_down;
                       groq_loads := groq_loads groq_down |}
                    mistral_down tools_offline)
                 "a1" "REFRESH_TOKEN" {[ "service" := "google" ]} MEDIUM
                 "t0"))
  = Some (Dict (<["status" := "error"]>
                  {[ "message" := "503 Server Error" ]})).
Proof.
  apply (apps_script_failure_reported_as_success "0.3" "0.5" "0.7"
           {| groq_api_key := ""; groq_post := groq_post groq_down;
              groq_loads := groq_loads groq_down |}
           mistral_down tools_offline "a1" "REFRESH_TOKEN" "google" MEDIUM
           "t0" "503 Server Error").
  - apply list_elem_of_further, list_elem_of_here.
  - reflexivity.
  - reflexivity.
  - intros payload. reflexivity.
Defined.

Lemma scan_site_takes_exactly_domain_witness :
  status (fst (execute_action
                 (make_orchestrator "0.3" "0.5" "0.7"
                    {| groq_api_key := ""; groq_post := groq_post groq_down;
                       groq_loads := groq_loads groq_down |}
                    mistral_down tools_offline)
                 "a1" "SCAN_SITE" scan_params LOW "t0")) = SUCCESS ∧
  tool_result (fst (execute_action
                 (make_orchestrator "0.3" "0.5" "0.7"
                    {| groq_api_key := ""; groq_post := groq_post groq_down;
                       groq_loads := groq_loads groq_down |}
                    mistral_down tools_offline)
                 "a1" "SCAN_SITE" scan_params LOW "t0"))
  = Some (Dict (<["domain" := arg scan_params "domain"]>
                  (<["grade" := "A"]> {[ "status" := "simulated" ]}))).
Proof.
  apply (proj1 (scan_site_takes_exactly_domain "0.3" "0.5" "0.7"
                  {| groq_api_key := ""; groq_post := groq_post groq_down;
                     groq_loads := groq_loads groq_down |}
                  mistral_down tools_offline "a1" scan_params LOW "t0"
                  eq_refl)).
  reflexivity.
Defined.

End ServicesFacts.

(** ** The HTTP endpoint of the orchestrator *)

(** [execute_action_endpoint] of [src/mcp/orchestrator.py], the only caller
    of [execute_action]. A request body is unreadable ([get_json] raises), a
    value Python takes for false (none, or empty), or a JSON object, of
    which the endpoint reads four fields. The model covers objects whose
    [action_id] and [command_type] are strings and whose [params] is an
    object of strings; a [severity] that is no string behaves as a string
    that names no member of [Severity]. *)
Module Endpoint.

Import Breaker (Outcome, Returned, Raised).
Import Orchestrator.

Record Payload := {
  p_action_id : option string;
  p_command_type : option string;
  p_params : option (gmap string string);
  p_severity : option string
}.

Inductive Body :=
| Unreadable
| Falsy
| Object (p : Payload).

(** [Severity(value)]: the member with that value, none for a [ValueError]. *)
Definition Severity_of_string (s : string) : option Severity :=
  if String.eqb s "LOW" then Some LOW
  else if String.eqb s "MEDIUM" then Some MEDIUM
  else if String.eqb s "HIGH" then Some HIGH
  else None.

Section WithOrchestrator.

Context {float tool_value : Type}.

Inductive Reply :=
| Error (message : string)
| Answer (result : Result float tool_value).

(** The first of [required_fields] the payload lacks. *)
Definition missing_field (p : Payload) : option string :=
  if bool_decide (p_action_id p = None) then Some "action_id"
  else if bool_decide (p_command_type p = None) then Some "command_type"
  else if bool_decide (p_params p = None) then Some "params"
  else None.

(** [execute_action_endpoint]: the status code, the JSON reply and the calls
    the orchestrator made. The [X-Signature] header is logged only. *)
Definition execute_action_endpoint
    (self : ActionOrchestrator float tool_value) (body : Body)
    (signature : option string) (now : string)
  : Z * Reply * list Event :=
  match body with
  | Unreadable => (500%Z, Error "Internal server error", [])
  | Falsy => (400%Z, Error "No JSON payload", [])
  | Object p =>
      match missing_field p with
      | Some field =>
          (400%Z, Error ("Missing required field: " +:+ field), [])
      | None =>
          match Severity_of_string (default "LOW" (p_severity p)) with
          | None => (500%Z, Error "Internal server error", [])
          | Some severity =>
              let '(result, evs) :=
                execute_action self (default "" (p_action_id p))
                  (default "" (p_command_type p))
                  (default ∅ (p_params p)) severity now in
              (200%Z, Answer result, evs)
          end
      end
  end.

End WithOrchestrator.

Arguments Reply : clear implicits.

End Endpoint.

Module EndpointFacts.

Import Breaker (Outcome, Returned, Raised).
Import Orchestrator Endpoint.

Section Facts.

Context {float tool_value : Type}.

Implicit Types (self : ActionOrchestrator float tool_value).

Lemma low_not_judged self (aid ct : string) (params : gmap string string)
    (now : string) :
  Forall (λ e, is_judge_call e = false)
    (snd (execute_action self aid ct params LOW now)).
Proof.
  unfold execute_action, judge_step, execute_tool.
  repeat (case_match; simplify_eq/=); by repeat constructor.
Qed.

(** X27. A request that names no severity runs at LOW: with the three
    required fields present the endpoint answers 200 with the result of
    [execute_action] at severity LOW, whatever the signature header, so the
    judges are not consulted for it, whatever the command type and whatever
    the policy of that type asks for. *)
Theorem endpoint_defaults_to_low self (p : Payload)
    (signature : option string) (now aid ct : string)
    (params : gmap string string) :
  p_action_id p = Some aid → p_command_type p = Some ct →
  p_params p = Some params → p_severity p = None →
  execute_action_endpoint self (Object p) signature now
  = (200%Z, Answer (fst (execute_action self aid ct params LOW now)),
     snd (execute_action self aid ct params LOW now)) ∧
  Forall (λ e, is_judge_call e = false)
    (snd (execute_action_endpoint self (Object p) signature now)).
Proof.
  intros Ha Hc Hp Hs.
  assert (Heq : execute_action_endpoint self (Object p) signature now
    = (200%Z, Answer (fst (execute_action self aid ct params LOW now)),
       snd (execute_action self aid ct params LOW now))).
  { unfold execute_action_endpoint, missing_field.
    rewrite Ha, Hc, Hp, Hs. cbn.
    by destruct (execute_action self aid ct params LOW now). }
  split; [done|]. rewrite Heq. cbn [snd]. apply low_not_judged.
Qed.


End Facts.

Lemma endpoint_defaults_to_low_witness :
  execute_action_endpoint (judged_orchestrator [false; false; false])
    (Object {| p_action_id := Some "a1";
               p_command_type := Some "REFRESH_TOKEN";
               p_params := Some {[ "service" := "google" ]};
               p_severity := None |})
    (Some "sig") "t0"
  = (200%Z,
     Answer (fst (execute_action (judged_orchestrator [false; false; false])
                    "a1" "REFRESH_TOKEN" {[ "service" := "google" ]} LOW
                    "t0")),
     snd (execute_action (judged_orchestrator [false; false; false])
            "a1" "REFRESH_TOKEN" {[ "service" := "google" ]} LOW "t0")) ∧
  Forall (λ e, is_judge_call e = false)
    (snd (execute_action_endpoint (judged_orchestrator [false; false; false])
            (Object {| p_action_id := Some "a1";
                       p_command_type := Some "REFRESH_TOKEN";
                       p_params := Some {[ "service" := "google" ]};
                       p_severity := None |})
            (Some "sig") "t0")).
Proof.
  apply (endpoint_defaults_to_low (judged_orchestrator [false; false; false])
           {| p_action_id := Some "a1";
              p_command_type := Some "REFRESH_TOKEN";
              p_params := Some {[ "service" := "google" ]};
              p_severity := None |}
           (Some "sig") "t0" "a1" "REFRESH_TOKEN"
           {[ "service" := "google" ]});
    reflexivity.
Defined.

End EndpointFacts.
